(** * collab-notes: the real-time collaboration layer

    A shallow embedding of [backend/src/socket/index.ts]: the presence
    registry [roomPresence], the four socket event handlers
    ([join-note], [leave-note], [note-update], [disconnect]) and the helper
    [handleLeaveNote], together with the properties of the collaboration
    layer that the specification states about them.

    Conventions of the embedding.
    - A JavaScript [Map] keeps its entries in insertion order, and
      [Array.from(m.values())] observes that order, so a [Map] is an
      association list with the operations of the language ([JsMap]).
    - Each handler is a computation in the monad [Handler]: it threads the
      world (registry, Socket.IO room table, document store), collects what
      it emits, and either resolves or rejects (a thrown exception or a
      rejected promise that the handler does not catch).
    - A trace is a list of inputs, and [step] handles one input to its end
      before the next.  [leave-note] and [disconnect] have no [await];
      [note-update] never touches the registry; [join-note] does all its
      work on the shared state in one synchronous block after its only
      [await].  A handler that runs between the lookup of a [join-note] and
      that block is outside [step]: [join_note_overlapping] puts inputs
      between the two, and the block alone is [join_note_block].  A change
      of the note table between a lookup and the block that follows it is
      a [StoreChanged] input of the trace.
    - The argument of an event has the type the handler declares for it;
      [receive] adds the [note-update] that comes with no argument.
    - Socket.IO and Prisma are libraries, not code of the repository.  Their
      part is the small documented one the handlers rely on: [socket.join],
      [socket.leave], [io.to(room).emit], the automatic leaving of all rooms
      before ["disconnect"] fires, [findUnique] and [update].  Each store
      call may reject; whether it does is an input ([Faults]).  [socket_join]
      is [socket.join] of a connected socket, which is what the events of a
      trace come from; [socket_join_when] is the one of a block that runs
      when the socket may have disconnected.
    - The [updatedAt] column and [console.log] are left out. *)

From stdpp Require Import base strings list gmap pretty.

Set Warnings "-register-all,-clear-no-such-hyp".
Open Scope string_scope.
Open Scope list_scope.

(** ** JavaScript [Map] with string keys *)

Module JsMap.

Abbreviation t V := (list (string * V)).

Definition empty {V} : t V := [].

(** [m.get(k)]: [None] stands for [undefined]. *)
Fixpoint get {V} (k : string) (m : t V) : option V :=
  match m with
  | [] => None
  | (k', v) :: m' => if decide (k = k') then Some v else get k m'
  end.

(** [m.has(k)] *)
Definition has {V} (k : string) (m : t V) : bool :=
  match get k m with Some _ => true | None => false end.

(** [m.set(k, v)]: an existing key keeps its position, a new key goes
    last. *)
Fixpoint set {V} (k : string) (v : V) (m : t V) : t V :=
  match m with
  | [] => [(k, v)]
  | (k', v') :: m' =>
      if decide (k = k') then (k', v) :: m' else (k', v') :: set k v m'
  end.

(** [m.delete(k)] *)
Fixpoint delete {V} (k : string) (m : t V) : t V :=
  match m with
  | [] => []
  | (k', v') :: m' =>
      if decide (k = k') then delete k m' else (k', v') :: delete k m'
  end.

(** The value stored under [k] is an object; [mutate f k m] is the map
    after that object was changed in place by [f].  Every holder of the
    object sees the change, and the entry keeps its position. *)
Fixpoint mutate {V} (f : V → V) (k : string) (m : t V) : t V :=
  match m with
  | [] => []
  | (k', v') :: m' =>
      if decide (k = k') then (k', f v') :: m' else (k', v') :: mutate f k m'
  end.

(** [m.size], [m.keys()], [m.values()] *)
Definition size {V} (m : t V) : nat := length m.
Definition keys {V} (m : t V) : list string := m.*1.
Definition values {V} (m : t V) : list V := m.*2.

(** The representation invariant of a [Map]: no key occurs twice. *)
Definition wf {V} (m : t V) : Prop := NoDup (keys m).

End JsMap.

(** ** Data *)

(** [JwtPayload & { name: string }], the [user] attached to a socket by the
    authentication middleware. *)
Record SocketUser := {
  userId : string;
  email : string;
  name : string;
}.

(** [AuthenticatedSocket]: [user] is optional in the source. *)
Record Socket := {
  id : string;
  user : option SocketUser;
}.

(** [interface PresenceUser { odId; name; email }]; the projections of
    [name] and [email] are [pname] and [pemail], the plain names being those
    of [SocketUser]. *)
Record PresenceUser := {
  odId : string;
  pname : string;
  pemail : string;
}.

(** The columns of a note that the handlers read or write. *)
Record Note := {
  ownerId : string;
  title : string;
  content : string;
}.

(** Values sent over the wire. *)
Inductive Json :=
| JUndefined
| JStr (s : string)
| JArr (items : list Json)
| JObj (fields : list (string * Json)).

(** What a handler sends: [socket.emit(event, payload)] reaches one socket,
    [io.to(room).emit(event, payload)] reaches the sockets that are in the
    Socket.IO room when it is called. *)
Inductive Emission :=
| EmitSocket (sid : string) (event : string) (payload : Json)
| EmitRoom (room : string) (recipients : gset string)
           (event : string) (payload : Json).

Definition event_of (e : Emission) : string :=
  match e with
  | EmitSocket _ ev _ => ev
  | EmitRoom _ _ ev _ => ev
  end.

Definition payload_of (e : Emission) : Json :=
  match e with
  | EmitSocket _ _ p => p
  | EmitRoom _ _ _ p => p
  end.

(** [delivered sid e]: the socket [sid] receives [e]. *)
Definition delivered (sid : string) (e : Emission) : Prop :=
  match e with
  | EmitSocket sid' _ _ => sid = sid'
  | EmitRoom _ recipients _ _ => sid ∈ recipients
  end.

#[global] Instance delivered_dec sid e : Decision (delivered sid e).
Proof. destruct e; simpl; apply _. Defined.

(** The state the handlers share. *)
Record World := {
  (** [const roomPresence = new Map<string, Map<string, PresenceUser>>()] *)
  roomPresence : JsMap.t (JsMap.t PresenceUser);
  (** Socket.IO's room table: room name to the ids of the sockets in it. *)
  adapterRooms : gmap string (gset string);
  (** The [note] table behind [prisma.note]. *)
  notes : gmap string Note;
}.

(** The server after start-up: nobody is connected. *)
Definition initial (db : gmap string Note) : World :=
  {| roomPresence := JsMap.empty; adapterRooms := ∅; notes := db |}.

(** ** The handler monad *)

Inductive Completion (A : Type) :=
| Resolved (a : A)
| Rejected.
Arguments Resolved {A} a.
Arguments Rejected {A}.

Definition Handler (A : Type) : Type :=
  World → Completion A * World * list Emission.

Definition hret {A} (a : A) : Handler A := λ w, (Resolved a, w, []).

Definition hbind {A B} (m : Handler A) (k : A → Handler B) : Handler B :=
  λ w,
    match m w with
    | (Resolved a, w1, out1) =>
        match k a w1 with
        | (r, w2, out2) => (r, w2, out1 ++ out2)
        end
    | (Rejected, w1, out1) => (Rejected, w1, out1)
    end.

Declare Scope handler_scope.
Delimit Scope handler_scope with handler.
Notation "x <- m ;; k" := (hbind m (λ x, k))
  (at level 100, m at next level, right associativity) : handler_scope.
Notation "m ;; k" := (hbind m (λ _, k))
  (at level 100, right associativity) : handler_scope.

Definition throw {A} : Handler A := λ w, (Rejected, w, []).
Definition get_world : Handler World := λ w, (Resolved w, w, []).
Definition put_world (w' : World) : Handler unit := λ _, (Resolved (), w', []).
Definition emit (e : Emission) : Handler unit := λ w, (Resolved (), w, [e]).

Definition final {A} (r : Completion A * World * list Emission) : World :=
  r.1.2.
Definition emitted {A} (r : Completion A * World * list Emission)
  : list Emission := r.2.
Definition completion {A} (r : Completion A * World * list Emission)
  : Completion A := r.1.1.

(** ** Socket.IO *)

Definition set_adapterRooms (a : gmap string (gset string)) (w : World)
  : World :=
  {| roomPresence := roomPresence w; adapterRooms := a; notes := notes w |}.

Definition set_roomPresence (p : JsMap.t (JsMap.t PresenceUser)) (w : World)
  : World :=
  {| roomPresence := p; adapterRooms := adapterRooms w; notes := notes w |}.

Definition set_notes (n : gmap string Note) (w : World) : World :=
  {| roomPresence := roomPresence w; adapterRooms := adapterRooms w;
     notes := n |}.

(** The sockets in a Socket.IO room; a room that was never joined is
    empty. *)
Definition sockets_in (room : string) (w : World) : gset string :=
  default ∅ (adapterRooms w !! room).

(** [socket.join(room)] *)
Definition socket_join (socket : Socket) (room : string) : Handler unit :=
  (w <- get_world;;
   put_world (set_adapterRooms
     (<[room := {[id socket]} ∪ sockets_in room w]> (adapterRooms w)) w))%handler.

(** [socket.leave(room)] *)
Definition socket_leave (socket : Socket) (room : string) : Handler unit :=
  (w <- get_world;;
   put_world (set_adapterRooms
     (alter (λ s, s ∖ {[id socket]}) room (adapterRooms w)) w))%handler.

(** Before the ["disconnect"] listeners run, Socket.IO takes the socket out
    of every room. *)
Definition socket_leave_all (socket : Socket) : Handler unit :=
  (w <- get_world;;
   put_world (set_adapterRooms
     ((λ s, s ∖ {[id socket]}) <$> adapterRooms w) w))%handler.

(** [socket.emit(event, payload)] *)
Definition socket_emit (socket : Socket) (event : string) (payload : Json)
  : Handler unit :=
  emit (EmitSocket (id socket) event payload).

(** [io.to(room).emit(event, payload)] *)
Definition io_to_emit (room : string) (event : string) (payload : Json)
  : Handler unit :=
  (w <- get_world;;
   emit (EmitRoom room (sockets_in room w) event payload))%handler.

(** ** Prisma *)

(** Whether the store calls of one handler run reject (the database is
    unreachable, the connection drops, ...). *)
Record Faults := {
  find_rejects : bool;
  update_rejects : bool;
}.

Definition no_faults : Faults :=
  {| find_rejects := false; update_rejects := false |}.

(** [await prisma.note.findUnique({ where: { id }, select: ... })]:
    resolves to the note or to [null]. *)
Definition prisma_note_findUnique (flt : Faults) (noteId : string)
  : Handler (option Note) :=
  if find_rejects flt then throw
  else (w <- get_world;; hret (notes w !! noteId))%handler.

(** [const updateData = { content }; if (title !== undefined)
    updateData.title = title] *)
Record UpdateData := {
  ud_content : string;
  ud_title : option string;
}.

Definition apply_update (d : UpdateData) (n : Note) : Note :=
  {| ownerId := ownerId n;
     title := default (title n) (ud_title d);
     content := ud_content d |}.

(** [await prisma.note.update({ where: { id }, data })]: rejects when no
    record has that id. *)
Definition prisma_note_update (flt : Faults) (noteId : string)
    (data : UpdateData) : Handler unit :=
  if update_rejects flt then throw
  else
    (w <- get_world;;
     match notes w !! noteId with
     | None => throw
     | Some n => put_world (set_notes (<[noteId := apply_update data n]> (notes w)) w)
     end)%handler.

(** ** The presence registry *)

(** [roomPresence.get(noteId)] *)
Definition presence_get (noteId : string)
  : Handler (option (JsMap.t PresenceUser)) :=
  (w <- get_world;; hret (JsMap.get noteId (roomPresence w)))%handler.

(** [roomPresence.get(noteId)!] followed by a use of the result: a
    [TypeError] when there is no such room. *)
Definition room_deref (noteId : string) : Handler (JsMap.t PresenceUser) :=
  (room <- presence_get noteId;;
   match room with
   | Some r => hret r
   | None => throw
   end)%handler.

Definition modify_presence
    (f : JsMap.t (JsMap.t PresenceUser) → JsMap.t (JsMap.t PresenceUser))
  : Handler unit :=
  (w <- get_world;; put_world (set_roomPresence (f (roomPresence w)) w))%handler.

(** A method call on the room object held by the registry. *)
Definition room_mutate (noteId : string)
    (f : JsMap.t PresenceUser → JsMap.t PresenceUser) : Handler unit :=
  modify_presence (JsMap.mutate f noteId).

(** One element of the [users] array, as the object literal of the
    source writes it. *)
Definition presence_json (p : PresenceUser) : Json :=
  JObj [("odId", JStr (odId p)); ("name", JStr (pname p));
        ("email", JStr (pemail p))].

(** [{ users }] with [users = Array.from(room.values())] *)
Definition presence_payload (room : JsMap.t PresenceUser) : Json :=
  JObj [("users", JArr (presence_json <$> JsMap.values room))].

Definition error_payload (message : string) : Json :=
  JObj [("message", JStr message)].

(** ** The handlers *)

(** [function handleLeaveNote(socket, noteId, io)] *)
Definition handleLeaveNote (socket : Socket) (noteId : string)
  : Handler unit :=
  (socket_leave socket noteId;;
   room <- presence_get noteId;;
   match room with
   | Some _ =>
       room_mutate noteId (JsMap.delete (id socket));;
       room' <- room_deref noteId;;
       if decide (JsMap.size room' = 0) then
         modify_presence (JsMap.delete noteId)
       else
         io_to_emit noteId "presence-update" (presence_payload room')
   | None => hret ()
   end)%handler.

(** [socket.on('join-note', async (noteId) => ...)] *)
Definition on_join_note (flt : Faults) (socket : Socket) (noteId : string)
  : Handler unit :=
  match user socket with
  | None => hret ()
  | Some u =>
      (note <- prisma_note_findUnique flt noteId;;
       match note with
       | None => socket_emit socket "error" (error_payload "Note not found")
       | Some _ =>
           socket_join socket noteId;;
           w <- get_world;;
           (if JsMap.has noteId (roomPresence w) then hret ()
            else modify_presence (JsMap.set noteId JsMap.empty));;
           _ <- room_deref noteId;;
           room_mutate noteId
             (JsMap.set (id socket)
                {| odId := userId u; pname := name u; pemail := email u |});;
           room <- room_deref noteId;;
           io_to_emit noteId "presence-update" (presence_payload room)
       end)%handler
  end.

(** [socket.on('leave-note', (noteId) => handleLeaveNote(socket, noteId, io))] *)
Definition on_leave_note (socket : Socket) (noteId : string) : Handler unit :=
  handleLeaveNote socket noteId.

(** The argument of [note-update]: [{ noteId, content, title? }]. *)
Record UpdateMsg := {
  um_noteId : string;
  um_content : string;
  um_title : option string;
}.

Definition json_of_option (o : option string) : Json :=
  match o with
  | Some s => JStr s
  | None => JUndefined
  end.

Definition note_updated_payload (data : UpdateMsg) (u : SocketUser) : Json :=
  JObj [("content", JStr (um_content data));
        ("title", json_of_option (um_title data));
        ("updatedBy", JStr (name u))].

(** [socket.on('note-update', async (data) => ...)] *)
Definition on_note_update (flt : Faults) (socket : Socket) (data : UpdateMsg)
  : Handler unit :=
  match user socket with
  | None => hret ()
  | Some u =>
      (note <- prisma_note_findUnique flt (um_noteId data);;
       match note with
       | None => socket_emit socket "error" (error_payload "Note not found")
       | Some n =>
           if decide (ownerId n ≠ userId u) then
             socket_emit socket "error"
               (error_payload "Only the owner can edit this note")
           else
             prisma_note_update flt (um_noteId data)
               {| ud_content := um_content data; ud_title := um_title data |};;
             io_to_emit (um_noteId data) "note-updated"
               (note_updated_payload data u)
       end)%handler
  end.

(** [roomPresence.forEach((room, noteId) => ...)].  The iteration follows
    the insertion order of the keys and visits an entry only if it is still
    in the map when its turn comes; the callback of the source removes
    entries and never adds one, so the keys to visit are among those
    present at the start. *)
Fixpoint presence_forEach (ks : list string)
    (callback : JsMap.t PresenceUser → string → Handler unit)
  : Handler unit :=
  match ks with
  | [] => hret ()
  | k :: ks' =>
      (room <- presence_get k;;
       match room with
       | Some r => callback r k
       | None => hret ()
       end;;
       presence_forEach ks' callback)%handler
  end.

(** [socket.on('disconnect', () => ...)] *)
Definition on_disconnect (socket : Socket) : Handler unit :=
  (w <- get_world;;
   presence_forEach (JsMap.keys (roomPresence w))
     (λ room noteId,
        if JsMap.has (id socket) room then handleLeaveNote socket noteId
        else hret ()))%handler.

(** ** Events and traces *)

Inductive Event :=
| JoinNote (noteId : string)
| LeaveNote (noteId : string)
| NoteUpdate (data : UpdateMsg)
| Disconnect.

(** What Socket.IO runs for an event of a connected socket. *)
Definition dispatch (flt : Faults) (socket : Socket) (ev : Event)
  : Handler unit :=
  match ev with
  | JoinNote noteId => on_join_note flt socket noteId
  | LeaveNote noteId => on_leave_note socket noteId
  | NoteUpdate data => on_note_update flt socket data
  | Disconnect => (socket_leave_all socket;; on_disconnect socket)%handler
  end.

(** One thing that happens to the server: an event of a socket, or a change
    of the note table made elsewhere (the REST routes create, edit and
    delete notes). *)
Inductive Input :=
| Client (flt : Faults) (socket : Socket) (ev : Event)
| StoreChanged (db : gmap string Note).

Definition step (i : Input) (w : World) : World * list Emission :=
  match i with
  | Client flt socket ev =>
      let r := dispatch flt socket ev w in (final r, emitted r)
  | StoreChanged db => (set_notes db w, [])
  end.

(** The world after a trace (oldest input first) and everything emitted on
    the way. *)
Fixpoint run (tr : list Input) (w : World) : World * list Emission :=
  match tr with
  | [] => (w, [])
  | i :: tr' =>
      let (w1, out1) := step i w in
      let (w2, out2) := run tr' w1 in
      (w2, out1 ++ out2)
  end.

Definition exec (tr : list Input) (w : World) : World := (run tr w).1.

(** ** Notions used in the statements *)

(** [members(R)]: the entries of room [R]; a room that is not in the
    registry has none. *)
Definition members (noteId : string) (w : World) : JsMap.t PresenceUser :=
  default JsMap.empty (JsMap.get noteId (roomPresence w)).

(** The session [sid] has a presence entry in room [noteId]. *)
Definition is_member (sid noteId : string) (w : World) : bool :=
  JsMap.has sid (members noteId w).

(** The rooms with a presence entry of [sid], in registry order. *)
Definition rooms_with (sid : string) (w : World) : list string :=
  filter (λ r, is_member sid r w = true) (JsMap.keys (roomPresence w)).

(** The registry and every room in it are [Map]s, and no room is empty. *)
Definition registry_wf (p : JsMap.t (JsMap.t PresenceUser)) : Prop :=
  JsMap.wf p ∧ Forall (λ kv, JsMap.wf kv.2 ∧ kv.2 ≠ []) p.

(** The Socket.IO room of a note holds the sessions with a presence entry
    in the note's room, and no others. *)
Definition in_sync (w : World) : Prop :=
  ∀ r sid, sid ∈ sockets_in r w ↔ is_member sid r w = true.

(** What holds of every world the server can be in. *)
Definition consistent (w : World) : Prop :=
  registry_wf (roomPresence w) ∧ in_sync w.

(** The registry after [handleLeaveNote]. *)
Definition presence_after_leave (sid noteId : string)
    (p : JsMap.t (JsMap.t PresenceUser)) : JsMap.t (JsMap.t PresenceUser) :=
  match JsMap.get noteId p with
  | None => p
  | Some room =>
      if decide (JsMap.size (JsMap.delete sid room) = 0) then
        JsMap.delete noteId p
      else JsMap.mutate (JsMap.delete sid) noteId p
  end.

(** What [handleLeaveNote] broadcasts. *)
Definition emitted_by_leave (sid noteId : string) (w : World)
  : list Emission :=
  match JsMap.get noteId (roomPresence w) with
  | None => []
  | Some room =>
      if decide (JsMap.size (JsMap.delete sid room) = 0) then []
      else [EmitRoom noteId (sockets_in noteId w ∖ {[sid]}) "presence-update"
              (presence_payload (JsMap.delete sid room))]
  end.

Definition adapter_after_leave (sid noteId : string)
    (a : gmap string (gset string)) : gmap string (gset string) :=
  alter (λ s, s ∖ {[sid]}) noteId a.

(** The world after [handleLeaveNote]. *)
Definition world_after_leave (sid noteId : string) (w : World) : World :=
  {| roomPresence := presence_after_leave sid noteId (roomPresence w);
     adapterRooms := adapter_after_leave sid noteId (adapterRooms w);
     notes := notes w |}.

(** The entry that [join-note] writes for a socket of user [u]. *)
Definition presence_entry (u : SocketUser) : PresenceUser :=
  {| odId := userId u; pname := name u; pemail := email u |}.

(** The registry after an accepted [join-note]. *)
Definition presence_after_join (sid noteId : string) (e : PresenceUser)
    (p : JsMap.t (JsMap.t PresenceUser)) : JsMap.t (JsMap.t PresenceUser) :=
  JsMap.mutate (JsMap.set sid e) noteId
    (if JsMap.has noteId p then p else JsMap.set noteId JsMap.empty p).

(** The world after an accepted [join-note]. *)
Definition world_after_join (sid noteId : string) (e : PresenceUser)
    (w : World) : World :=
  {| roomPresence := presence_after_join sid noteId e (roomPresence w);
     adapterRooms := <[noteId := {[sid]} ∪ sockets_in noteId w]> (adapterRooms w);
     notes := notes w |}.

(** [handleLeaveNote] for each room of a list, in order. *)
Fixpoint leave_each (socket : Socket) (rs : list string) : Handler unit :=
  match rs with
  | [] => hret ()
  | r :: rs' => (handleLeaveNote socket r;; leave_each socket rs')%handler
  end.

(** The [leave-note] events that stand for a disconnect. *)
Definition leave_events (flt : Faults) (socket : Socket) (rs : list string)
  : list Input :=
  (λ r, Client flt socket (LeaveNote r)) <$> rs.

(** The world once Socket.IO has taken the socket out of all its rooms. *)
Definition world_after_leave_all (sid : string) (w : World) : World :=
  set_adapterRooms ((λ s, s ∖ {[sid]}) <$> adapterRooms w) w.

(** The lookup of the handler resolves to the note [n]: the document exists
    and [n] is its row. *)
Definition found (flt : Faults) (w : World) (noteId : string) (n : Note)
  : Prop :=
  completion (prisma_note_findUnique flt noteId w) = Resolved (Some n).

(** The write of the handler resolves (the update is persisted), or it
    rejects (the persistence write fails). *)
Definition write_resolves (flt : Faults) (w : World) (data : UpdateMsg)
  : Prop :=
  completion
    (prisma_note_update flt (um_noteId data)
       {| ud_content := um_content data; ud_title := um_title data |} w) =
  Resolved ().

Definition write_rejects (flt : Faults) (w : World) (data : UpdateMsg)
  : Prop :=
  completion
    (prisma_note_update flt (um_noteId data)
       {| ud_content := um_content data; ud_title := um_title data |} w) =
  Rejected.

(** A [join-note] is accepted when the socket is authenticated and the
    lookup resolves to a note. *)
Definition join_accepted (flt : Faults) (socket : Socket) (noteId : string)
    (w : World) : bool :=
  match user socket with
  | Some _ =>
      negb (find_rejects flt) && bool_decide (is_Some (notes w !! noteId))
  | None => false
  end.

(** The rooms a session has joined and not left, kept beside the run and
    computed from the history of events alone: an accepted [join-note] adds
    the room, [leave-note] removes it, [disconnect] removes them all. *)
Definition joined_of (sid : string) (j : gmap string (gset string))
  : gset string :=
  default ∅ (j !! sid).

Definition track (i : Input) (w : World) (j : gmap string (gset string))
  : gmap string (gset string) :=
  match i with
  | Client flt socket (JoinNote r) =>
      if join_accepted flt socket r w then
        <[id socket := {[r]} ∪ joined_of (id socket) j]> j
      else j
  | Client _ socket (LeaveNote r) =>
      <[id socket := joined_of (id socket) j ∖ {[r]}]> j
  | Client _ socket Disconnect => delete (id socket) j
  | Client _ _ (NoteUpdate _) => j
  | StoreChanged _ => j
  end.

Fixpoint joined_after (tr : list Input) (w : World)
    (j : gmap string (gset string)) : gmap string (gset string) :=
  match tr with
  | [] => j
  | i :: tr' => joined_after tr' (step i w).1 (track i w j)
  end.

(** The entry [p] is what some [join-note] of the trace, sent by a socket
    with id [sid], writes: the [userId], [name] and [email] of the user
    that socket is authenticated as. *)
Definition written_by (tr : list Input) (sid : string) (p : PresenceUser)
  : Prop :=
  ∃ flt socket u r,
    Client flt socket (JoinNote r) ∈ tr ∧ id socket = sid ∧
    user socket = Some u ∧ p = presence_entry u.

(** A [presence-update] that carries the snapshot of its room in [w] and
    goes to the sockets of that room in [w]. *)
Definition snapshot_of (w : World) (e : Emission) : Prop :=
  ∃ r, e = EmitRoom r (sockets_in r w) "presence-update"
             (presence_payload (members r w)).

(** The element of [users] and the payload as the specification words
    them, with the key [userId]. *)
Definition spec_presence_json (p : PresenceUser) : Json :=
  JObj [("userId", JStr (odId p)); ("name", JStr (pname p));
        ("email", JStr (pemail p))].

Definition spec_presence_payload (room : JsMap.t PresenceUser) : Json :=
  JObj [("users", JArr (spec_presence_json <$> JsMap.values room))].

(** The keys of a JSON object, in order. *)
Definition json_keys (j : Json) : list string :=
  match j with
  | JObj fields => fields.*1
  | _ => []
  end.

(** ** A small scenario *)

Definition alice : SocketUser :=
  {| userId := "uA"; email := "alice@example.org"; name := "Alice" |}.
Definition bob : SocketUser :=
  {| userId := "uB"; email := "bob@example.org"; name := "Bob" |}.

(** Two tabs of Alice and one of Bob. *)
Definition sA : Socket := {| id := "sA"; user := Some alice |}.
Definition sA' : Socket := {| id := "sA2"; user := Some alice |}.
Definition sB : Socket := {| id := "sB"; user := Some bob |}.

(** One note, owned by Alice. *)
Definition noteD : Note := {| ownerId := "uA"; title := "T"; content := "C" |}.
Definition db0 : gmap string Note := {[ "d" := noteD ]}.

Definition write_fails : Faults :=
  {| find_rejects := false; update_rejects := true |}.

Definition msgX : UpdateMsg :=
  {| um_noteId := "d"; um_content := "X"; um_title := None |}.

(** Alice has the note open. *)
Definition world_a : World :=
  exec [Client no_faults sA (JoinNote "d")] (initial db0).

(** Bob has the note open, Alice does not. *)
Definition world_b : World :=
  exec [Client no_faults sB (JoinNote "d")] (initial db0).

(** Alice and Bob have the note open. *)
Definition world_ab : World :=
  exec [Client no_faults sA (JoinNote "d"); Client no_faults sB (JoinNote "d")]
    (initial db0).

(** Alice has the note open in two tabs. *)
Definition world_aa : World :=
  exec [Client no_faults sA (JoinNote "d"); Client no_faults sA' (JoinNote "d")]
    (initial db0).

(** ** Further notions *)

(** The lookup of the handler resolves to [null]: there is no such note. *)
Definition not_found (flt : Faults) (w : World) (noteId : string) : Prop :=
  completion (prisma_note_findUnique flt noteId w) = Resolved None.

(** What [handleLeaveNote] sends for a room whose entries, once the leaving
    session is taken out, are [rest]. *)
Definition leave_announcement (sid noteId : string) (w : World)
    (rest : JsMap.t PresenceUser) : list Emission :=
  match rest with
  | [] => []
  | _ :: _ =>
      [EmitRoom noteId (sockets_in noteId w ∖ {[sid]}) "presence-update"
         (presence_payload rest)]
  end.

(** ** The authentication of a connection: [io.use(async (socket, next) => ...)] *)

(** [interface JwtPayload { userId; email }] of [lib/auth.ts]. *)
Record JwtPayload := {
  jp_userId : string;
  jp_email : string;
}.

(** The columns of a user that the server reads. *)
Record UserRow := {
  ur_name : string;
  ur_email : string;
}.

(** [socket.handshake.auth.token] is whatever the client put there: nothing,
    a string, or a value of another type, which JavaScript takes for true
    or for false. *)
Inductive HandshakeToken :=
| NoToken
| TokenString (t : string)
| TokenOther (truthy : bool).

(** How the middleware ends: [next(new Error(message))], [next()] with
    [socket.user] set, or neither, when the user lookup rejects. *)
Inductive Handshake :=
| Refused (message : string)
| Connected (socket : Socket)
| Unanswered.

(** [verifyToken] of [lib/auth.ts] wraps [jwt.verify] and returns [null]
    when it throws; what it makes of a string is the parameter
    [verifyToken], and [jwt.verify] throws on anything that is not a
    string. *)
Definition verify_handshake (verifyToken : string → option JwtPayload)
    (token : HandshakeToken) : option JwtPayload :=
  match token with
  | TokenString t => verifyToken t
  | _ => None
  end.

(** [!token] *)
Definition token_is_falsy (token : HandshakeToken) : bool :=
  match token with
  | NoToken => true
  | TokenString t => bool_decide (t = "")
  | TokenOther truthy => negb truthy
  end.

Definition authenticate (verifyToken : string → option JwtPayload)
    (users : gmap string UserRow) (lookup_rejects : bool)
    (sid : string) (token : HandshakeToken) : Handshake :=
  if token_is_falsy token then Refused "Authentication required"
  else
    match verify_handshake verifyToken token with
    | None => Refused "Invalid token"
    | Some payload =>
        if lookup_rejects then Unanswered
        else
          match users !! jp_userId payload with
          | None => Refused "User not found"
          | Some row =>
              Connected
                {| id := sid;
                   user := Some {| userId := jp_userId payload;
                                   email := jp_email payload;
                                   name := ur_name row |} |}
          end
    end.

(** ** The presence indicator of the frontend
    ([components/PresenceIndicator.tsx]) *)

(** [users.filter((u) => u.odId !== currentUserId)] *)
Definition otherUsers (users : list PresenceUser) (currentUserId : string)
  : list PresenceUser :=
  filter (λ u, odId u ≠ currentUserId) users.

(** The text of the [presence-text] span.  [otherUsers.length === 1] is the
    one-element case of the match, where [otherUsers[0]] is that element. *)
Definition presence_text (users : list PresenceUser) (currentUserId : string)
  : string :=
  if decide (length users = 1) then "Just you"
  else
    match otherUsers users currentUserId with
    | [u] => pname u +:+ " is viewing"
    | _ => pretty (length users) +:+ " people viewing"
    end.

(** [users.slice(0, 5)]: the users that get an avatar. *)
Definition shown_avatars (users : list PresenceUser) : list PresenceUser :=
  take 5 users.

(** The [+N] badge, shown when [users.length > 5]. *)
Definition more_badge (users : list PresenceUser) : option string :=
  if decide (5 < length users) then Some ("+" +:+ pretty (length users - 5))
  else None.

(** [getColorForUser].  The email is the list of its UTF-16 code units
    ([charCodeAt]); [hash << 5] converts its operand to a 32-bit integer and
    wraps, the subtraction and the addition are those of numbers. *)
Definition to_int32 (z : Z) : Z := ((z + 2 ^ 31) `mod` 2 ^ 32 - 2 ^ 31)%Z.

Definition shift_left_5 (z : Z) : Z := to_int32 (to_int32 z * 32).

Definition color_hash (email : list Z) : Z :=
  foldl (λ hash c, (c + (shift_left_5 hash - hash))%Z) 0%Z email.

Definition colors : list string :=
  ["#FF6B6B"; "#4ECDC4"; "#45B7D1"; "#96CEB4"; "#FFEAA7"; "#DDA0DD";
   "#98D8C8"; "#F7DC6F"].

(** [colors[Math.abs(hash) % colors.length]]; [None] stands for
    [undefined]. *)
Definition getColorForUser (email : list Z) : option string :=
  colors !! Z.to_nat (Z.abs (color_hash email) `mod` Z.of_nat (length colors)).

(** Two more users for the scenarios. *)
Definition users0 : gmap string UserRow :=
  {[ "uA" := {| ur_name := "Alice"; ur_email := "alice@example.org" |};
     "uB" := {| ur_name := "Bob"; ur_email := "bob@example.org" |} ]}.

(** A token check that knows two tokens. *)
Definition verify0 (t : string) : option JwtPayload :=
  if decide (t = "tokA") then
    Some {| jp_userId := "uA"; jp_email := "alice@example.org" |}
  else if decide (t = "tokB") then
    Some {| jp_userId := "uB"; jp_email := "bob@example.org" |}
  else None.

(** ** The REST routes of the notes ([routes/notes.ts]), behind
    [requireAuth] ([middleware/auth.ts]) and in front of [errorHandler]
    ([middleware/errorHandler.ts])

    [GET /api/notes] orders by [updatedAt], a column left out here, and is
    not modelled. *)

(** What a route passes to [next(error)]: an [AppError] with its
    [statusCode] and [message], or anything else (a rejected store call). *)
Inductive Thrown :=
| AppError (statusCode : nat) (message : string)
| OtherError.

(** [lib/errors.ts] is not among the sources.  Its four classes are taken
    to extend [AppError], as [errorHandler] expects of "our custom errors";
    the status code each one sets is a parameter. *)
Record ErrorClasses := {
  BadRequestError : nat;
  UnauthorizedError : nat;
  ForbiddenError : nat;
  NotFoundError : nat;
}.

(** The JSON bodies the routes send. *)
Inductive ResponseBody :=
| NoteBody (noteId : string) (n : Note)
| NoteViewBody (noteId : string) (n : Note)
               (owner : option (string * UserRow)) (isOwner : bool)
| MessageBody (message : string)
| ErrorBody (error : string).

Record Response := {
  status : nat;
  body : ResponseBody;
}.

(** [errorHandler(err, req, res, next)] *)
Definition errorHandler (err : Thrown) : Response :=
  match err with
  | AppError statusCode message =>
      {| status := statusCode; body := ErrorBody message |}
  | OtherError =>
      {| status := 500; body := ErrorBody "Internal server error" |}
  end.

(** [s.split(sep)] for a one-character separator. *)
Fixpoint js_split (sep : Ascii.ascii) (s : string) : list string :=
  match s with
  | EmptyString => [EmptyString]
  | String c s' =>
      if decide (c = sep) then EmptyString :: js_split sep s'
      else
        match js_split sep s' with
        | piece :: pieces => String c piece :: pieces
        | [] => [String c EmptyString]
        end
  end.

(** [requireAuth(req, res, next)]: the error given to [next], or the
    payload stored in [req.user]. *)
Definition requireAuth (ec : ErrorClasses)
    (verifyToken : string → option JwtPayload)
    (authorization : option string) : Thrown + JwtPayload :=
  match authorization with
  | None =>
      inl (AppError (UnauthorizedError ec)
             "Missing or invalid authorization header")
  | Some authHeader =>
      if bool_decide (authHeader = "")
         || negb (String.prefix "Bearer " authHeader) then
        inl (AppError (UnauthorizedError ec)
               "Missing or invalid authorization header")
      else
        match js_split Ascii.Space authHeader !! 1 ≫= verifyToken with
        | None =>
            inl (AppError (UnauthorizedError ec) "Invalid or expired token")
        | Some payload => inr payload
        end
  end.

(** A field of [req.body] as the schemas see it: absent, a string, or a
    value of another type. *)
Inductive Field :=
| FieldMissing
| FieldString (s : string)
| FieldOther.

Inductive RequestBody :=
| BodyNotObject
| BodyObject (title content : Field).

(** [parsed.data] of [updateNoteSchema]. *)
Record NoteChanges := {
  nc_title : option string;
  nc_content : option string;
}.

(** [z.string().min(1).optional()] and [z.string().optional()] *)
Definition parse_optional_string (min1 : bool) (f : Field)
  : option (option string) :=
  match f with
  | FieldMissing => Some None
  | FieldString s =>
      if min1 && bool_decide (s = "") then None else Some (Some s)
  | FieldOther => None
  end.

(** [updateNoteSchema.safeParse(req.body)]: [None] when [!parsed.success]. *)
Definition updateNoteSchema (b : RequestBody) : option NoteChanges :=
  match b with
  | BodyNotObject => None
  | BodyObject t c =>
      match parse_optional_string true t, parse_optional_string false c with
      | Some t', Some c' => Some {| nc_title := t'; nc_content := c' |}
      | _, _ => None
      end
  end.

(** [createNoteSchema.safeParse(req.body)]: the message of the first issue,
    or the title and the content (["{}"] by default).  [zodMessage] is the
    message zod gives an issue for which the schema sets none. *)
Definition createNoteSchema (zodMessage : RequestBody → string)
    (b : RequestBody) : string + string * string :=
  match b with
  | BodyObject (FieldString t) c =>
      if bool_decide (t = "") then inl "Title is required"
      else
        match c with
        | FieldMissing => inr (t, "{}")
        | FieldString c' => inr (t, c')
        | FieldOther => inl (zodMessage b)
        end
  | _ => inl (zodMessage b)
  end.

(** [prisma.note.update({ where, data: parsed.data })]: a field that is
    [undefined] in [data] is left as it is. *)
Definition apply_changes (ch : NoteChanges) (n : Note) : Note :=
  {| ownerId := ownerId n;
     title := default (title n) (nc_title ch);
     content := default (content n) (nc_content ch) |}.

(** Whether the store calls of one request reject. *)
Record RestFaults := {
  lookup_rejects : bool;
  mutation_rejects : bool;
}.

Definition rest_ok : RestFaults :=
  {| lookup_rejects := false; mutation_rejects := false |}.

Inductive Request :=
| GetNote (noteId : string)
| CreateNote (b : RequestBody)
| UpdateNote (noteId : string) (b : RequestBody)
| DeleteNote (noteId : string).

(** [router.get('/:id', ...)] *)
Definition get_note (ec : ErrorClasses) (users : gmap string UserRow)
    (flt : RestFaults) (user : JwtPayload) (noteId : string)
    (db : gmap string Note) : (Thrown + Response) * gmap string Note :=
  if lookup_rejects flt then (inl OtherError, db)
  else
    match db !! noteId with
    | None => (inl (AppError (NotFoundError ec) "Note not found"), db)
    | Some note =>
        (inr {| status := 200;
                body := NoteViewBody noteId note
                          ((λ row, (ownerId note, row)) <$>
                             users !! ownerId note)
                          (bool_decide (ownerId note = jp_userId user)) |},
         db)
    end.

(** [router.post('/', ...)]; [newId] is the id the store gives the new
    row. *)
Definition post_note (ec : ErrorClasses) (zodMessage : RequestBody → string)
    (newId : string) (flt : RestFaults) (user : JwtPayload)
    (b : RequestBody) (db : gmap string Note)
  : (Thrown + Response) * gmap string Note :=
  match createNoteSchema zodMessage b with
  | inl message => (inl (AppError (BadRequestError ec) message), db)
  | inr (t, c) =>
      if mutation_rejects flt || bool_decide (is_Some (db !! newId)) then
        (inl OtherError, db)
      else
        let note := {| ownerId := jp_userId user; title := t; content := c |} in
        (inr {| status := 201; body := NoteBody newId note |},
         <[newId := note]> db)
  end.

(** [router.put('/:id', ...)] *)
Definition put_note (ec : ErrorClasses) (zodMessage : RequestBody → string)
    (flt : RestFaults) (user : JwtPayload) (noteId : string)
    (b : RequestBody) (db : gmap string Note)
  : (Thrown + Response) * gmap string Note :=
  match updateNoteSchema b with
  | None => (inl (AppError (BadRequestError ec) (zodMessage b)), db)
  | Some changes =>
      if lookup_rejects flt then (inl OtherError, db)
      else
        match db !! noteId with
        | None => (inl (AppError (NotFoundError ec) "Note not found"), db)
        | Some existing =>
            if decide (ownerId existing ≠ jp_userId user) then
              (inl (AppError (ForbiddenError ec)
                      "Only the note owner can edit"), db)
            else if mutation_rejects flt then (inl OtherError, db)
            else
              let note := apply_changes changes existing in
              (inr {| status := 200; body := NoteBody noteId note |},
               <[noteId := note]> db)
        end
  end.

(** [router.delete('/:id', ...)] *)
Definition delete_note (ec : ErrorClasses) (flt : RestFaults)
    (user : JwtPayload) (noteId : string) (db : gmap string Note)
  : (Thrown + Response) * gmap string Note :=
  if lookup_rejects flt then (inl OtherError, db)
  else
    match db !! noteId with
    | None => (inl (AppError (NotFoundError ec) "Note not found"), db)
    | Some existing =>
        if decide (ownerId existing ≠ jp_userId user) then
          (inl (AppError (ForbiddenError ec)
                  "Only the note owner can delete"), db)
        else if mutation_rejects flt then (inl OtherError, db)
        else
          (inr {| status := 200; body := MessageBody "Note deleted" |},
           delete noteId db)
    end.

(** What the server answers to a request for [/api/notes/...]:
    [router.use(requireAuth)], the route, and [errorHandler] for whatever
    went to [next(error)]. *)
Record RestEnv := {
  errors : ErrorClasses;
  verify : string → option JwtPayload;
  zod : RequestBody → string;
  userTable : gmap string UserRow;
  nextId : string;
}.

Definition route (env : RestEnv) (flt : RestFaults) (user : JwtPayload)
    (req : Request) (db : gmap string Note)
  : (Thrown + Response) * gmap string Note :=
  match req with
  | GetNote noteId => get_note (errors env) (userTable env) flt user noteId db
  | CreateNote b => post_note (errors env) (zod env) (nextId env) flt user b db
  | UpdateNote noteId b => put_note (errors env) (zod env) flt user noteId b db
  | DeleteNote noteId => delete_note (errors env) flt user noteId db
  end.

Definition notes_api (env : RestEnv) (flt : RestFaults)
    (authorization : option string) (req : Request) (db : gmap string Note)
  : Response * gmap string Note :=
  match requireAuth (errors env) (verify env) authorization with
  | inl err => (errorHandler err, db)
  | inr user =>
      match route env flt user req db with
      | (inl err, db') => (errorHandler err, db')
      | (inr response, db') => (response, db')
      end
  end.

(** A server for the scenarios. *)
Definition env0 : RestEnv :=
  {| errors := {| BadRequestError := 400; UnauthorizedError := 401;
                  ForbiddenError := 403; NotFoundError := 404 |};
     verify := verify0;
     zod := λ _, "Invalid input";
     userTable := users0;
     nextId := "n1" |}.

(** ** Handlers that overlap

    [join-note] is suspended at [await prisma.note.findUnique(...)]: the
    handlers of the events that arrive in the meantime run before it goes
    on.  What follows the [await] is one synchronous block; [step] runs the
    lookup and the block with nothing in between, [join_note_overlapping]
    puts other inputs between them. *)

(** [socket.join(room)] at the time the block runs.  A socket that has
    disconnected while the lookup was pending is not added to the Socket.IO
    room ([attached = false]). *)
Definition socket_join_when (attached : bool) (socket : Socket)
    (room : string) : Handler unit :=
  if attached then socket_join socket room else hret ().

(** [join-note] from [if (!note)] to its end, given the answer [note] of the
    lookup; [u] is [socket.user], tested before the [await]. *)
Definition join_note_block (attached : bool) (socket : Socket)
    (u : SocketUser) (noteId : string) (note : option Note) : Handler unit :=
  match note with
  | None => socket_emit socket "error" (error_payload "Note not found")
  | Some _ =>
      (socket_join_when attached socket noteId;;
       w <- get_world;;
       (if JsMap.has noteId (roomPresence w) then hret ()
        else modify_presence (JsMap.set noteId JsMap.empty));;
       _ <- room_deref noteId;;
       room_mutate noteId
         (JsMap.set (id socket)
            {| odId := userId u; pname := name u; pemail := email u |});;
       room <- room_deref noteId;;
       io_to_emit noteId "presence-update" (presence_payload room))%handler
  end.

(** A [join-note] that arrives in the world [w], where its lookup is
    answered, and whose block runs after the inputs [between] have been
    handled.  A lookup that rejects ends the handler; so does a socket
    without [user]. *)
Definition join_note_overlapping (flt : Faults) (socket : Socket)
    (noteId : string) (between : list Input) (attached : bool) (w : World)
  : World * list Emission :=
  match user socket with
  | None => run between w
  | Some u =>
      match completion (prisma_note_findUnique flt noteId w) with
      | Rejected => run between w
      | Resolved note =>
          let (w1, out1) := run between w in
          let r := join_note_block attached socket u noteId note w1 in
          (final r, out1 ++ emitted r)
      end
  end.

(** The world after the block of a [join-note] whose lookup found the
    note. *)
Definition world_after_block (attached : bool) (sid noteId : string)
    (e : PresenceUser) (w : World) : World :=
  {| roomPresence := presence_after_join sid noteId e (roomPresence w);
     adapterRooms :=
       if attached then
         <[noteId := {[sid]} ∪ sockets_in noteId w]> (adapterRooms w)
       else adapterRooms w;
     notes := notes w |}.

(** Socket.IO gives every connection an id of its own: in the trace, the
    events that carry the id of [socket] are events of [socket]. *)
Definition one_socket_per_id (socket : Socket) (tr : list Input) : Prop :=
  ∀ flt s ev, Client flt s ev ∈ tr → id s = id socket → s = socket.

(** ** Reading a payload

    What a client finds in the JSON it receives. *)

(** [j[k]] for an object [j]. *)
Definition json_field (k : string) (j : Json) : option Json :=
  match j with
  | JObj fields => JsMap.get k fields
  | _ => None
  end.

(** [payload.users] *)
Definition payload_users (payload : Json) : list Json :=
  match json_field "users" payload with
  | Some (JArr items) => items
  | _ => []
  end.

(** [user.odId] of an element of [users]. *)
Definition json_odId (j : Json) : option string :=
  match json_field "odId" j with
  | Some (JStr s) => Some s
  | _ => None
  end.

(** The number of elements of [payload.users] with the user id [uid]. *)
Definition times_listed (uid : string) (payload : Json) : nat :=
  length (filter (λ j, json_odId j = Some uid) (payload_users payload)).

(** ** A [note-update] without its argument

    The handler destructures its argument, [const { noteId, content, title }
    = data], after the test of [socket.user]: when the client sends
    [undefined] or [null] the destructuring throws a [TypeError].  An
    argument of another wrong shape (a field missing or not a string) gets
    as far as the store call, which rejects it: a fault of [Faults]. *)
Definition on_note_update_received (flt : Faults) (socket : Socket)
    (data : option UpdateMsg) : Handler unit :=
  match user socket with
  | None => hret ()
  | Some _ =>
      match data with
      | None => throw
      | Some d => on_note_update flt socket d
      end
  end.

(** What a socket sends: an event with an argument of the declared shape,
    or [note-update] with nothing. *)
Inductive Received :=
| Sent (ev : Event)
| NoteUpdateWithoutData.

Definition receive (flt : Faults) (socket : Socket) (rv : Received)
  : Handler unit :=
  match rv with
  | Sent ev => dispatch flt socket ev
  | NoteUpdateWithoutData => on_note_update_received flt socket None
  end.

(** * Facts about [JsMap] *)

Module JsMapFacts.
Import JsMap.

Section facts.
Context {V : Type}.
Implicit Types (m : t V) (k : string) (v : V).

Lemma get_set_eq k v m : get k (set k v m) = Some v.
Proof.
  induction m as [|[k' v'] m IH]; simpl; repeat (case_decide; simpl); congruence.
Qed.

Lemma get_set_ne k k' v m : k ≠ k' → get k' (set k v m) = get k' m.
Proof.
  intros Hne. induction m as [|[k0 v0] m IH]; simpl;
    repeat (case_decide; simpl); congruence.
Qed.

Lemma get_delete_eq k m : get k (delete k m) = None.
Proof.
  induction m as [|[k' v'] m IH]; simpl; repeat (case_decide; simpl); congruence.
Qed.

Lemma get_delete_ne k k' m : k ≠ k' → get k' (delete k m) = get k' m.
Proof.
  intros Hne. induction m as [|[k0 v0] m IH]; simpl;
    repeat (case_decide; simpl); congruence.
Qed.

Lemma get_mutate_eq (f : V → V) k m : get k (mutate f k m) = f <$> get k m.
Proof.
  induction m as [|[k' v'] m IH]; simpl; repeat (case_decide; simpl); congruence.
Qed.

Lemma get_mutate_ne (f : V → V) k k' m :
  k ≠ k' → get k' (mutate f k m) = get k' m.
Proof.
  intros Hne. induction m as [|[k0 v0] m IH]; simpl;
    repeat (case_decide; simpl); congruence.
Qed.

Lemma get_None_keys k m : get k m = None ↔ k ∉ keys m.
Proof.
  unfold keys. induction m as [|[k' v'] m IH]; simpl.
  - split; [intros _; apply not_elem_of_nil | done].
  - rewrite not_elem_of_cons. case_decide; [|tauto].
    split; [done | intros [? _]; done].
Qed.

Lemma get_Some_keys k m : is_Some (get k m) ↔ k ∈ keys m.
Proof.
  destruct (get k m) eqn:E.
  - split; [intros _ | eauto].
    destruct (decide (k ∈ keys m)) as [|Hn]; [done|].
    apply get_None_keys in Hn. congruence.
  - apply get_None_keys in E. split; [intros [? ?]; done | done].
Qed.

Lemma has_true k m : has k m = true ↔ k ∈ keys m.
Proof.
  rewrite <- get_Some_keys. unfold has.
  destruct (get k m); split; try done; eauto.
Qed.

Lemma has_false k m : has k m = false ↔ get k m = None.
Proof. unfold has. destruct (get k m); split; done. Qed.

Lemma get_elem_of k v m : get k m = Some v → (k, v) ∈ m.
Proof.
  induction m as [|[k' v'] m IH]; simpl; [done|].
  case_decide; intros E.
  - simplify_eq. apply list_elem_of_here.
  - apply list_elem_of_further; auto.
Qed.

Lemma elem_of_get k v m : wf m → (k, v) ∈ m → get k m = Some v.
Proof.
  unfold wf, keys. induction m as [|[k' v'] m IH]; simpl.
  - intros _ H. by apply elem_of_nil in H.
  - rewrite NoDup_cons. intros [Hk Hnd] [E|Hin]%elem_of_cons.
    + simplify_eq. by rewrite decide_True.
    + case_decide; [|auto]. subst k'. exfalso. apply Hk.
      apply list_elem_of_fmap. by exists (k, v).
Qed.

Lemma keys_mutate (f : V → V) k m : keys (mutate f k m) = keys m.
Proof.
  unfold keys. induction m as [|[k' v'] m IH]; simpl; [done|].
  case_decide; csimpl; [done | by rewrite IH].
Qed.

Lemma keys_set_present k v m : k ∈ keys m → keys (set k v m) = keys m.
Proof.
  unfold keys. induction m as [|[k' v'] m IH]; simpl.
  - intros H. by apply elem_of_nil in H.
  - intros [E|Hin]%elem_of_cons; case_decide; simpl; try done.
    f_equal; auto.
Qed.

Lemma keys_set_absent k v m : k ∉ keys m → keys (set k v m) = keys m ++ [k].
Proof.
  unfold keys. induction m as [|[k' v'] m IH]; simpl; [done|].
  rewrite not_elem_of_cons. intros [Hne Hn].
  rewrite decide_False by done. simpl. f_equal; auto.
Qed.

Lemma elem_of_keys_set k k' v m :
  k' ∈ keys (set k v m) ↔ k' = k ∨ k' ∈ keys m.
Proof.
  destruct (decide (k ∈ keys m)) as [Hin|Hn].
  - rewrite keys_set_present by done. intuition congruence.
  - rewrite keys_set_absent by done. rewrite elem_of_app, list_elem_of_singleton.
    tauto.
Qed.

Lemma elem_of_keys_delete k k' m :
  k' ∈ keys (delete k m) ↔ k' ≠ k ∧ k' ∈ keys m.
Proof.
  rewrite <- !get_Some_keys. destruct (decide (k = k')) as [->|Hne].
  - rewrite get_delete_eq. split; [intros [? ?]; done | intros [? _]; done].
  - rewrite get_delete_ne by done. intuition congruence.
Qed.

Lemma delete_sublist k m : delete k m `sublist_of` m.
Proof.
  induction m as [|[k' v'] m IH]; simpl; [done|].
  case_decide; [by apply sublist_cons | by apply sublist_skip].
Qed.

Lemma delete_absent k m : k ∉ keys m → delete k m = m.
Proof.
  unfold keys. induction m as [|[k' v'] m IH]; simpl; [done|].
  rewrite not_elem_of_cons. intros [Hne Hn].
  rewrite decide_False by done. f_equal; auto.
Qed.

Lemma wf_delete k m : wf m → wf (delete k m).
Proof.
  unfold wf, keys. intros H.
  eapply sublist_NoDup; [exact H|]. apply fmap_sublist, delete_sublist.
Qed.

Lemma wf_mutate (f : V → V) k m : wf m → wf (mutate f k m).
Proof. unfold wf. by rewrite keys_mutate. Qed.

Lemma wf_set k v m : wf m → wf (set k v m).
Proof.
  unfold wf. intros H. destruct (decide (k ∈ keys m)) as [Hin|Hn].
  - by rewrite keys_set_present.
  - rewrite keys_set_absent by done. apply NoDup_app. split; [done|].
    split; [|apply NoDup_singleton].
    intros x Hx ->%list_elem_of_singleton. done.
Qed.

Lemma set_set k v m : set k v (set k v m) = set k v m.
Proof.
  induction m as [|[k' v'] m IH]; simpl.
  - by rewrite decide_True.
  - case_decide; simpl.
    + by rewrite decide_True.
    + rewrite decide_False by done. by rewrite IH.
Qed.

Lemma mutate_id (f : V → V) k m :
  (∀ v, get k m = Some v → f v = v) → mutate f k m = m.
Proof.
  induction m as [|[k' v'] m IH]; simpl; [done|].
  case_decide; intros Hf.
  - by rewrite Hf.
  - f_equal. auto.
Qed.

Lemma mutate_mutate (f g : V → V) k m :
  mutate f k (mutate g k m) = mutate (f ∘ g) k m.
Proof.
  induction m as [|[k' v'] m IH]; simpl; [done|].
  case_decide; simpl.
  - by rewrite decide_True.
  - rewrite decide_False by done. by rewrite IH.
Qed.

Lemma mutate_ext (f g : V → V) k m :
  (∀ v, f v = g v) → mutate f k m = mutate g k m.
Proof.
  intros Hfg. induction m as [|[k' v'] m IH]; simpl; [done|].
  case_decide; by rewrite ?Hfg, ?IH.
Qed.

Lemma filter_key_absent k m :
  k ∉ keys m → filter (λ kv, kv.1 = k) m = [].
Proof.
  unfold keys. induction m as [|[k' v'] m IH]; [done|].
  rewrite fmap_cons, not_elem_of_cons. intros [Hne Hn].
  rewrite filter_cons_False by (simpl in *; congruence). auto.
Qed.

Lemma one_entry_per_key k m :
  wf m → k ∈ keys m → length (filter (λ kv, kv.1 = k) m) = 1.
Proof.
  unfold wf. induction m as [|[k' v'] m IH].
  - by intros _ ?%elem_of_nil.
  - unfold keys. rewrite fmap_cons. fold (keys m). rewrite NoDup_cons.
    intros [Hk Hnd] Hin. destruct (decide (k' = k)) as [->|Hd].
    + rewrite filter_cons_True by done.
      by rewrite filter_key_absent.
    + rewrite filter_cons_False by done.
      apply elem_of_cons in Hin as [->|Hin]; [done|]. by apply IH.
Qed.

Lemma filter_values_get (P : V → Prop) `{!∀ v, Decision (P v)} k v m :
  get k m = Some v → P v → (1 ≤ length (filter P (values m)))%nat.
Proof.
  induction m as [|[k' v'] m IH]; [done|].
  unfold values. rewrite fmap_cons. fold (values m). simpl get. case_decide.
  - intros [= ->] Hp. rewrite filter_cons_True by done. simpl. lia.
  - intros Hg Hp. specialize (IH Hg Hp).
    destruct (decide (P v')).
    + rewrite filter_cons_True by done. simpl. lia.
    + by rewrite filter_cons_False.
Qed.

Lemma two_values (P : V → Prop) `{!∀ v, Decision (P v)} k1 k2 v1 v2 m :
  k1 ≠ k2 → get k1 m = Some v1 → get k2 m = Some v2 → P v1 → P v2 →
  (2 ≤ length (filter P (values m)))%nat.
Proof.
  intros Hne. induction m as [|[k' v'] m IH]; [done|].
  unfold values. rewrite fmap_cons. fold (values m). simpl get.
  intros H1 H2 Hp1 Hp2.
  destruct (decide (k1 = k')) as [E1|N1]; destruct (decide (k2 = k')) as [E2|N2].
  - congruence.
  - injection H1 as ->. rewrite filter_cons_True by done. simpl.
    pose proof (filter_values_get P k2 v2 m H2 Hp2). lia.
  - injection H2 as ->. rewrite filter_cons_True by done. simpl.
    pose proof (filter_values_get P k1 v1 m H1 Hp1). lia.
  - specialize (IH H1 H2 Hp1 Hp2). destruct (decide (P v')).
    + rewrite filter_cons_True by done. simpl. lia.
    + by rewrite filter_cons_False.
Qed.

Lemma delete_mutate (f : V → V) k m : delete k (mutate f k m) = delete k m.
Proof.
  induction m as [|[k' v'] m IH]; simpl; [done|].
  case_decide; simpl.
  - by rewrite decide_True.
  - rewrite decide_False by done. by rewrite IH.
Qed.

Lemma elem_of_mutate (f : V → V) k m k' v' :
  (k', v') ∈ mutate f k m →
  (k', v') ∈ m ∨ (k' = k ∧ ∃ v, get k m = Some v ∧ v' = f v).
Proof.
  induction m as [|[k0 v0] m IH]; simpl.
  - intros H. by apply elem_of_nil in H.
  - case_decide.
    + intros [E|Hin]%elem_of_cons.
      * simplify_eq. right. eauto.
      * left. by apply list_elem_of_further.
    + intros [E|Hin]%elem_of_cons.
      * simplify_eq. left. apply list_elem_of_here.
      * destruct (IH Hin) as [?|?]; [left; by apply list_elem_of_further | by right].
Qed.

Lemma elem_of_set k v m k' v' :
  (k', v') ∈ set k v m → (k', v') ∈ m ∨ (k' = k ∧ v' = v).
Proof.
  induction m as [|[k0 v0] m IH]; simpl.
  - intros E%list_elem_of_singleton. simplify_eq. by right.
  - case_decide.
    + intros [E|Hin]%elem_of_cons.
      * simplify_eq. by right.
      * left. by apply list_elem_of_further.
    + intros [E|Hin]%elem_of_cons.
      * simplify_eq. left. apply list_elem_of_here.
      * destruct (IH Hin) as [?|?]; [left; by apply list_elem_of_further | by right].
Qed.

Lemma elem_of_delete k m kv : kv ∈ delete k m → kv ∈ m.
Proof. intros H. eapply elem_of_sublist; [done | apply delete_sublist]. Qed.

End facts.
End JsMapFacts.

(** * What each handler does, in closed form *)

Section runs.
Import JsMap JsMapFacts.

Lemma sockets_in_record r p a n :
  sockets_in r {| roomPresence := p; adapterRooms := a; notes := n |} =
    default ∅ (a !! r).
Proof. reflexivity. Qed.

Lemma sockets_in_after_leave sid r r' (w : World) :
  default ∅ (adapter_after_leave sid r (adapterRooms w) !! r') =
    if decide (r = r') then sockets_in r' w ∖ {[sid]} else sockets_in r' w.
Proof.
  unfold adapter_after_leave, sockets_in. rewrite lookup_alter.
  case_decide; [|done]. subst r'.
  destruct (adapterRooms w !! r); simpl; [done | set_solver].
Qed.

Lemma handleLeaveNote_run socket r w :
  handleLeaveNote socket r w =
    (Resolved (), world_after_leave (id socket) r w,
     emitted_by_leave (id socket) r w).
Proof.
  unfold world_after_leave, handleLeaveNote, presence_after_leave, emitted_by_leave, socket_leave,
    room_mutate, modify_presence, room_deref, presence_get, io_to_emit, emit,
    hbind, get_world, put_world, hret, set_adapterRooms, set_roomPresence.
  simpl. destruct (get r (roomPresence w)) as [room|] eqn:E; simpl.
  - rewrite get_mutate_eq, E. simpl. case_decide; simpl.
    + by rewrite delete_mutate.
    + rewrite sockets_in_record.
      pose proof (sockets_in_after_leave (id socket) r r w) as Hs.
      rewrite decide_True in Hs by done. unfold adapter_after_leave in *.
      by rewrite Hs.
  - done.
Qed.

Lemma on_join_note_accepted flt socket u r w :
  user socket = Some u →
  join_accepted flt socket r w = true →
  on_join_note flt socket r w =
    (Resolved (), world_after_join (id socket) r (presence_entry u) w,
     [EmitRoom r ({[id socket]} ∪ sockets_in r w) "presence-update"
        (presence_payload (set (id socket) (presence_entry u) (members r w)))]).
Proof.
  unfold world_after_join, join_accepted, on_join_note. intros -> Hacc.
  apply andb_true_iff in Hacc as [Hf Hn].
  apply negb_true_iff in Hf. apply bool_decide_eq_true in Hn as [n Hn].
  unfold prisma_note_findUnique, presence_after_join, members, presence_entry.
  rewrite Hf.
  unfold socket_join, socket_emit, room_mutate, modify_presence, room_deref,
    presence_get, io_to_emit, emit, hbind, get_world, put_world, hret,
    set_adapterRooms, set_roomPresence.
  simpl. rewrite Hn. simpl.
  unfold has. destruct (get r (roomPresence w)) as [room|] eqn:E; simpl.
  - rewrite E. simpl. rewrite get_mutate_eq, E. simpl.
    by rewrite sockets_in_record, lookup_insert_eq.
  - rewrite get_set_eq. simpl. rewrite get_mutate_eq, get_set_eq. simpl.
    by rewrite sockets_in_record, lookup_insert_eq.
Qed.

Lemma on_join_note_refused flt socket r w :
  join_accepted flt socket r w = false →
  final (on_join_note flt socket r w) = w ∧
  (∀ e, e ∈ emitted (on_join_note flt socket r w) →
        e = EmitSocket (id socket) "error" (error_payload "Note not found")).
Proof.
  unfold join_accepted, on_join_note, final, emitted.
  destruct (user socket) as [u|]; simpl.
  - unfold prisma_note_findUnique. destruct (find_rejects flt); simpl.
    + intros _. split; [done|]. intros e H. by apply elem_of_nil in H.
    + intros Hn%bool_decide_eq_false.
      unfold hbind, get_world, hret, socket_emit, emit. simpl.
      destruct (notes w !! r) as [n|] eqn:E; [exfalso; eauto|]. simpl.
      split; [done|]. by intros e ->%list_elem_of_singleton.
  - intros _. split; [done|]. intros e H. by apply elem_of_nil in H.
Qed.


Lemma get_after_leave sid r r' p :
  get r' (presence_after_leave sid r p) =
    if decide (r = r') then
      match get r p with
      | Some room =>
          if decide (size (delete sid room) = 0) then None
          else Some (delete sid room)
      | None => None
      end
    else get r' p.
Proof.
  unfold presence_after_leave. destruct (get r p) as [room|] eqn:E.
  - destruct (decide (size (delete sid room) = 0)); case_decide; subst.
    + apply get_delete_eq.
    + by apply get_delete_ne.
    + by rewrite get_mutate_eq, E.
    + by apply get_mutate_ne.
  - case_decide; by subst.
Qed.

Lemma get_after_join sid r r' e p :
  get r' (presence_after_join sid r e p) =
    if decide (r = r') then Some (set sid e (default empty (get r p)))
    else get r' p.
Proof.
  unfold presence_after_join, has.
  destruct (get r p) as [room|] eqn:E; case_decide; subst.
  - by rewrite get_mutate_eq, E.
  - by apply get_mutate_ne.
  - by rewrite get_mutate_eq, get_set_eq.
  - rewrite get_mutate_ne by done. by apply get_set_ne.
Qed.

Lemma members_after_leave sid r r' w :
  members r' (world_after_leave sid r w) =
    if decide (r = r') then
      if decide (size (delete sid (members r w)) = 0) then empty
      else delete sid (members r w)
    else members r' w.
Proof.
  unfold members, world_after_leave. simpl. rewrite get_after_leave.
  case_decide; [|done]. subst r'.
  destruct (get r (roomPresence w)) as [room|]; simpl; [|done].
  by case_decide.
Qed.

Lemma members_after_join sid r r' e w :
  members r' (world_after_join sid r e w) =
    if decide (r = r') then set sid e (members r w) else members r' w.
Proof.
  unfold members, world_after_join. simpl. rewrite get_after_join.
  by case_decide.
Qed.

Lemma is_member_after_leave sid r sid' r' w :
  is_member sid' r' (world_after_leave sid r w) = true ↔
  is_member sid' r' w = true ∧ ¬ (r' = r ∧ sid' = sid).
Proof.
  unfold is_member. rewrite members_after_leave.
  case_decide as Hr; [subst r'|intuition congruence].
  rewrite !has_true. case_decide as Hz.
  - assert (delete sid (members r w) = []) as Hnil
      by (by apply length_zero_iff_nil).
    split; [by intros ?%elem_of_nil|].
    intros [Hin Hne]. exfalso.
    assert (sid' ∈ keys (delete sid (members r w))) as H
      by (apply elem_of_keys_delete; split; [intros ->; tauto | done]).
    rewrite Hnil in H. by apply elem_of_nil in H.
  - rewrite elem_of_keys_delete. intuition congruence.
Qed.

Lemma is_member_after_join sid r e sid' r' w :
  is_member sid' r' (world_after_join sid r e w) = true ↔
  (r' = r ∧ sid' = sid) ∨ is_member sid' r' w = true.
Proof.
  unfold is_member. rewrite members_after_join.
  case_decide as Hr; [subst r'|intuition congruence].
  rewrite !has_true, elem_of_keys_set. intuition congruence.
Qed.

Lemma sockets_in_world_after_leave sid r r' w :
  sockets_in r' (world_after_leave sid r w) =
    if decide (r = r') then sockets_in r' w ∖ {[sid]} else sockets_in r' w.
Proof. apply sockets_in_after_leave. Qed.

Lemma sockets_in_world_after_join sid r r' e w :
  sockets_in r' (world_after_join sid r e w) =
    if decide (r = r') then {[sid]} ∪ sockets_in r' w else sockets_in r' w.
Proof.
  unfold world_after_join. rewrite sockets_in_record, lookup_insert.
  case_decide; by subst.
Qed.

(** The registry invariant, read through [get]. *)
Lemma registry_wf_get p :
  registry_wf p ↔
  wf p ∧ ∀ r room, get r p = Some room → wf room ∧ room ≠ [].
Proof.
  unfold registry_wf. rewrite Forall_forall. split; intros [Hwf H]; split;
    try done.
  - intros r room Hg. apply (H (r, room)). by apply get_elem_of.
  - intros [r room] Hin. simpl. apply (H r). by apply elem_of_get.
Qed.

Lemma wf_after_leave sid r p :
  registry_wf p → registry_wf (presence_after_leave sid r p).
Proof.
  rewrite !registry_wf_get. intros [Hwf H]. split.
  - unfold presence_after_leave. destruct (get r p); [|done].
    case_decide; [by apply wf_delete | by apply wf_mutate].
  - intros r' room'. rewrite get_after_leave. case_decide; [|apply H].
    destruct (get r p) as [room|] eqn:E; [|done].
    case_decide as Hz; [done|]. intros [= <-]. split.
    + apply wf_delete. by apply (H r).
    + intros Hnil. apply Hz. unfold size. by rewrite Hnil.
Qed.

Lemma wf_after_join sid r e p :
  registry_wf p → registry_wf (presence_after_join sid r e p).
Proof.
  rewrite !registry_wf_get. intros [Hwf H]. split.
  - unfold presence_after_join. apply wf_mutate.
    destruct (has r p); [done | by apply wf_set].
  - intros r' room'. rewrite get_after_join. case_decide; [|apply H].
    intros [= <-]. split.
    + apply wf_set. destruct (get r p) as [room|] eqn:E; simpl.
      * by apply (H r).
      * apply NoDup_nil_2.
    + by destruct (default empty (get r p)) as [|[??]?]; simpl;
        try case_decide.
Qed.

End runs.

(** * [disconnect] is [handleLeaveNote] for each room of the session *)

Section disconnect.
Import JsMap JsMapFacts.

Lemma hbind_resolved {A B} (m : Handler A) (k : A → Handler B) w a w1 o1 :
  m w = (Resolved a, w1, o1) →
  hbind m k w =
    (completion (k a w1), final (k a w1), o1 ++ emitted (k a w1)).
Proof. unfold hbind. intros ->. by destruct (k a w1) as [[??]?]. Qed.

Lemma leave_each_cons socket r rs w :
  leave_each socket (r :: rs) w =
    (completion (leave_each socket rs (world_after_leave (id socket) r w)),
     final (leave_each socket rs (world_after_leave (id socket) r w)),
     emitted_by_leave (id socket) r w ++
       emitted (leave_each socket rs (world_after_leave (id socket) r w))).
Proof.
  simpl. erewrite hbind_resolved; [done | apply handleLeaveNote_run].
Qed.

Lemma filter_agree {A} (P Q : A → Prop) `{!∀ x, Decision (P x)}
    `{!∀ x, Decision (Q x)} (l : list A) :
  (∀ x, x ∈ l → P x ↔ Q x) → filter P l = filter Q l.
Proof.
  induction l as [|a l IH]; intros Hag; [done|].
  rewrite !filter_cons.
  rewrite IH by (intros x Hx; apply Hag; by apply list_elem_of_further).
  apply decide_ext, Hag, list_elem_of_here.
Qed.

Lemma forEach_cons k ks callback w :
  presence_forEach (k :: ks) callback w =
    match get k (roomPresence w) with
    | Some room => hbind (callback room k) (λ _, presence_forEach ks callback) w
    | None => presence_forEach ks callback w
    end.
Proof.
  cbn [presence_forEach]. unfold hbind, presence_get, get_world, hret. simpl.
  destruct (get k (roomPresence w)) as [room|]; simpl.
  - destruct (callback room k w) as [[[[]|] w1] o1]; [|done].
    by destruct (presence_forEach ks callback w1) as [[??]?].
  - by destruct (presence_forEach ks callback w) as [[??]?].
Qed.

Lemma forEach_leave_each socket ks w :
  NoDup ks →
  presence_forEach ks
    (λ room noteId,
       if has (id socket) room then handleLeaveNote socket noteId
       else hret ()) w =
  leave_each socket (filter (λ r, is_member (id socket) r w = true) ks) w.
Proof.
  revert w. induction ks as [|k ks IH]; intros w Hnd; [done|].
  apply NoDup_cons in Hnd as [Hk Hnd].
  rewrite forEach_cons.
  destruct (is_member (id socket) k w) eqn:Hm.
  - rewrite filter_cons_True by done.
    unfold is_member, members in Hm.
    destruct (get k (roomPresence w)) as [room|]; simpl in Hm; [|done].
    rewrite Hm, leave_each_cons.
    erewrite hbind_resolved by apply handleLeaveNote_run.
    rewrite IH by done.
    rewrite (filter_agree _ (λ r, is_member (id socket) r w = true));
      [done|].
    intros r Hr. rewrite is_member_after_leave.
    split; [tauto|]. intros H. split; [done|].
    intros [-> _]. done.
  - rewrite filter_cons_False by (by rewrite Hm).
    unfold is_member, members in Hm.
    destruct (get k (roomPresence w)) as [room|]; simpl in Hm; [|by apply IH].
    rewrite Hm. unfold hbind, hret. rewrite IH by done.
    by destruct (leave_each _ _ _) as [[??]?].
Qed.

Lemma rooms_with_leave_all socket w :
  rooms_with (id socket) (world_after_leave_all (id socket) w) =
  rooms_with (id socket) w.
Proof. reflexivity. Qed.

Lemma dispatch_disconnect flt socket w :
  wf (roomPresence w) →
  dispatch flt socket Disconnect w =
    leave_each socket (rooms_with (id socket) w)
      (world_after_leave_all (id socket) w).
Proof.
  intros Hwf. unfold world_after_leave_all, dispatch, on_disconnect,
    socket_leave_all.
  unfold hbind at 1 2, get_world at 1, put_world. simpl.
  unfold hbind at 1, get_world. simpl.
  rewrite forEach_leave_each by done.
  rewrite <- rooms_with_leave_all. unfold world_after_leave_all.
  by destruct (leave_each _ _ _) as [[??]?].
Qed.

Lemma leave_each_resolves socket rs w :
  completion (leave_each socket rs w) = Resolved ().
Proof.
  revert w. induction rs as [|r rs IH]; intros w; [done|].
  rewrite leave_each_cons. apply IH.
Qed.

Lemma leave_each_notes socket rs w :
  notes (final (leave_each socket rs w)) = notes w.
Proof.
  revert w. induction rs as [|r rs IH]; intros w; [done|].
  rewrite leave_each_cons. unfold final at 1. simpl. fold (final (leave_each socket rs (world_after_leave (id socket) r w))).
  by rewrite IH.
Qed.

Lemma leave_each_final_cons socket r rs w :
  final (leave_each socket (r :: rs) w) =
    final (leave_each socket rs (world_after_leave (id socket) r w)).
Proof. by rewrite leave_each_cons. Qed.

Lemma leave_each_emitted_cons socket r rs w :
  emitted (leave_each socket (r :: rs) w) =
    emitted_by_leave (id socket) r w ++
    emitted (leave_each socket rs (world_after_leave (id socket) r w)).
Proof. by rewrite leave_each_cons. Qed.

Lemma leave_each_members socket rs w sid' r' :
  is_member sid' r' (final (leave_each socket rs w)) = true ↔
  is_member sid' r' w = true ∧ ¬ (r' ∈ rs ∧ sid' = id socket).
Proof.
  revert w. induction rs as [|r rs IH]; intros w.
  - split; [|tauto]. intros H. split; [done|]. by intros [?%elem_of_nil _].
  - rewrite leave_each_final_cons, IH, is_member_after_leave, elem_of_cons.
    tauto.
Qed.

Lemma leave_each_sockets socket rs w r' x :
  x ∈ sockets_in r' (final (leave_each socket rs w)) ↔
  x ∈ sockets_in r' w ∧ ¬ (r' ∈ rs ∧ x = id socket).
Proof.
  revert w. induction rs as [|r rs IH]; intros w.
  - split; [|tauto]. intros H. split; [done|]. by intros [?%elem_of_nil _].
  - rewrite leave_each_final_cons, IH, sockets_in_world_after_leave,
      elem_of_cons.
    case_decide; [subst r'; set_solver | intuition congruence].
Qed.

Lemma leave_each_frame socket rs w r :
  r ∉ rs →
  members r (final (leave_each socket rs w)) = members r w ∧
  sockets_in r (final (leave_each socket rs w)) = sockets_in r w.
Proof.
  revert w. induction rs as [|r0 rs IH]; intros w Hr; [done|].
  apply not_elem_of_cons in Hr as [Hne Hr].
  rewrite leave_each_final_cons.
  destruct (IH (world_after_leave (id socket) r0 w) Hr) as [-> ->].
  rewrite members_after_leave, sockets_in_world_after_leave.
  by rewrite !decide_False by done.
Qed.

Lemma leave_each_wf socket rs w :
  registry_wf (roomPresence w) →
  registry_wf (roomPresence (final (leave_each socket rs w))).
Proof.
  revert w. induction rs as [|r rs IH]; intros w H; [done|].
  rewrite leave_each_final_cons. apply IH. by apply wf_after_leave.
Qed.

Lemma emitted_by_leave_snapshot sid r w e :
  e ∈ emitted_by_leave sid r w →
  e = EmitRoom r (sockets_in r (world_after_leave sid r w)) "presence-update"
        (presence_payload (members r (world_after_leave sid r w))) ∧
  members r (world_after_leave sid r w) ≠ [].
Proof.
  unfold emitted_by_leave.
  rewrite members_after_leave, sockets_in_world_after_leave,
    !decide_True by done.
  unfold members. destruct (get r (roomPresence w)) as [room|]; simpl.
  - case_decide as Hz; [by intros ?%elem_of_nil|].
    intros ->%list_elem_of_singleton. split; [done|].
    intros Hnil. apply Hz. unfold size. by rewrite Hnil.
  - by intros ?%elem_of_nil.
Qed.

Lemma leave_each_snapshots socket rs w e :
  NoDup rs →
  e ∈ emitted (leave_each socket rs w) →
  snapshot_of (final (leave_each socket rs w)) e ∧
  ∃ r, r ∈ rs ∧ e = EmitRoom r (sockets_in r (final (leave_each socket rs w)))
                      "presence-update"
                      (presence_payload
                         (members r (final (leave_each socket rs w)))).
Proof.
  revert w. induction rs as [|r rs IH]; intros w Hnd.
  - by intros ?%elem_of_nil.
  - apply NoDup_cons in Hnd as [Hr Hnd].
    rewrite leave_each_emitted_cons, leave_each_final_cons, elem_of_app.
    intros [He|He].
    + apply emitted_by_leave_snapshot in He as [-> _].
      destruct (leave_each_frame socket rs
                  (world_after_leave (id socket) r w) r Hr) as [Hm Hs].
      split; exists r; rewrite Hm, Hs; [done|].
      split; [apply list_elem_of_here | done].
    + destruct (IH _ Hnd He) as [Hsn (r0 & Hr0 & ->)].
      split; [done|]. exists r0. split; [by apply list_elem_of_further|done].
Qed.

End disconnect.

(** * [note-update] in closed form *)

Section update.

Lemma on_note_update_not_owner flt socket u data n w :
  user socket = Some u →
  find_rejects flt = false →
  notes w !! um_noteId data = Some n →
  ownerId n ≠ userId u →
  on_note_update flt socket data w =
    (Resolved (), w,
     [EmitSocket (id socket) "error"
        (error_payload "Only the owner can edit this note")]).
Proof.
  intros Hu Hf Hn Hown. unfold on_note_update, prisma_note_findUnique.
  rewrite Hu, Hf. unfold hbind, get_world, hret, socket_emit, emit. simpl.
  rewrite Hn. by rewrite decide_True.
Qed.

Lemma on_note_update_owner flt socket u data n w :
  user socket = Some u →
  find_rejects flt = false →
  notes w !! um_noteId data = Some n →
  ownerId n = userId u →
  on_note_update flt socket data w =
    if update_rejects flt then (Rejected, w, [])
    else
      (Resolved (),
       set_notes
         (<[um_noteId data :=
              apply_update {| ud_content := um_content data;
                              ud_title := um_title data |} n]> (notes w)) w,
       [EmitRoom (um_noteId data) (sockets_in (um_noteId data) w)
          "note-updated" (note_updated_payload data u)]).
Proof.
  intros Hu Hf Hn Hown.
  unfold on_note_update, prisma_note_findUnique, prisma_note_update.
  rewrite Hu, Hf.
  unfold hbind at 1, get_world at 1, hret at 1, hbind at 1. simpl.
  rewrite Hn. rewrite decide_False by (intros H; by apply H).
  destruct (update_rejects flt); [done|].
  unfold hbind, get_world, put_world, io_to_emit, emit. simpl.
  by rewrite Hn.
Qed.

Lemma on_note_update_no_note flt socket u data w :
  user socket = Some u →
  find_rejects flt = false →
  notes w !! um_noteId data = None →
  on_note_update flt socket data w =
    (Resolved (), w,
     [EmitSocket (id socket) "error" (error_payload "Note not found")]).
Proof.
  intros Hu Hf Hn. unfold on_note_update, prisma_note_findUnique.
  rewrite Hu, Hf. unfold hbind, get_world, hret, socket_emit, emit. simpl.
  by rewrite Hn.
Qed.

Lemma on_note_update_find_rejects flt socket u data w :
  user socket = Some u →
  find_rejects flt = true →
  on_note_update flt socket data w = (Rejected, w, []).
Proof.
  intros Hu Hf. unfold on_note_update, prisma_note_findUnique.
  by rewrite Hu, Hf.
Qed.

(** [note-update] touches neither the registry nor the Socket.IO rooms, and
    sends nothing but [error] and [note-updated]. *)
Lemma on_note_update_frame flt socket data w :
  roomPresence (final (on_note_update flt socket data w)) = roomPresence w ∧
  adapterRooms (final (on_note_update flt socket data w)) = adapterRooms w ∧
  ∀ e, e ∈ emitted (on_note_update flt socket data w) →
       event_of e = "error" ∨ event_of e = "note-updated".
Proof.
  destruct (user socket) as [u|] eqn:Hu.
  2: { unfold on_note_update. rewrite Hu. repeat split.
       by intros e ?%elem_of_nil. }
  destruct (find_rejects flt) eqn:Hf.
  { rewrite (on_note_update_find_rejects _ _ u) by done. repeat split.
    by intros e ?%elem_of_nil. }
  destruct (notes w !! um_noteId data) as [n|] eqn:Hn.
  2: { rewrite (on_note_update_no_note _ _ u) by done. repeat split.
       intros e ->%list_elem_of_singleton. by left. }
  destruct (decide (ownerId n = userId u)) as [Hown|Hown].
  - rewrite (on_note_update_owner _ _ u _ n) by done.
    destruct (update_rejects flt); repeat split.
    + by intros e ?%elem_of_nil.
    + intros e ->%list_elem_of_singleton. by right.
  - rewrite (on_note_update_not_owner _ _ u _ n) by done. repeat split.
    intros e ->%list_elem_of_singleton. by left.
Qed.

End update.

(** * Invariants of the server *)

Section invariants.
Import JsMap JsMapFacts.

Lemma exec_cons i tr w : exec (i :: tr) w = exec tr (step i w).1.
Proof.
  unfold exec. simpl. destruct (step i w) as [w1 o1]. simpl.
  by destruct (run tr w1).
Qed.

Lemma run_app tr1 tr2 w :
  run (tr1 ++ tr2) w =
    ((run tr2 (run tr1 w).1).1, (run tr1 w).2 ++ (run tr2 (run tr1 w).1).2).
Proof.
  revert w. induction tr1 as [|i tr1 IH]; intros w; simpl.
  - by destruct (run tr2 w).
  - destruct (step i w) as [w1 o1]. rewrite IH.
    destruct (run tr1 w1) as [w2 o2]. simpl.
    destruct (run tr2 w2) as [w3 o3]. simpl. by rewrite app_assoc.
Qed.

Lemma exec_snoc tr i w : exec (tr ++ [i]) w = (step i (exec tr w)).1.
Proof.
  unfold exec. rewrite run_app. simpl.
  by destruct (step i (run tr w).1).
Qed.

Lemma is_member_ext sid r w1 w2 :
  roomPresence w1 = roomPresence w2 → is_member sid r w1 = is_member sid r w2.
Proof. unfold is_member, members. by intros ->. Qed.

Lemma is_member_keys sid r w :
  is_member sid r w = true → r ∈ keys (roomPresence w).
Proof.
  unfold is_member, members. intros H. apply get_Some_keys.
  destruct (get r (roomPresence w)); [eauto | done].
Qed.

Lemma elem_of_rooms_with sid r w :
  r ∈ rooms_with sid w ↔ is_member sid r w = true.
Proof.
  unfold rooms_with. rewrite list_elem_of_filter.
  split; [tauto|]. intros H. split; [done | by eapply is_member_keys].
Qed.

Lemma rooms_with_NoDup sid w :
  wf (roomPresence w) → NoDup (rooms_with sid w).
Proof. intros H. by apply NoDup_filter. Qed.

Lemma join_accepted_user flt socket r w :
  join_accepted flt socket r w = true → ∃ u, user socket = Some u.
Proof. unfold join_accepted. destruct (user socket); [eauto | done]. Qed.

(** The world after each kind of step. *)
Lemma step_join_accepted flt socket u r w :
  user socket = Some u →
  join_accepted flt socket r w = true →
  step (Client flt socket (JoinNote r)) w =
    (world_after_join (id socket) r (presence_entry u) w,
     [EmitRoom r ({[id socket]} ∪ sockets_in r w) "presence-update"
        (presence_payload (set (id socket) (presence_entry u) (members r w)))]).
Proof.
  intros Hu Ha. unfold step. simpl.
  by rewrite (on_join_note_accepted _ _ u) by done.
Qed.

Lemma step_join_refused flt socket r w :
  join_accepted flt socket r w = false →
  (step (Client flt socket (JoinNote r)) w).1 = w ∧
  ∀ e, e ∈ (step (Client flt socket (JoinNote r)) w).2 →
       e = EmitSocket (id socket) "error" (error_payload "Note not found").
Proof. intros H. by apply on_join_note_refused. Qed.

Lemma step_leave flt socket r w :
  step (Client flt socket (LeaveNote r)) w =
    (world_after_leave (id socket) r w, emitted_by_leave (id socket) r w).
Proof.
  unfold step. simpl. unfold on_leave_note. by rewrite handleLeaveNote_run.
Qed.

Lemma step_disconnect flt socket w :
  wf (roomPresence w) →
  step (Client flt socket Disconnect) w =
    (final (leave_each socket (rooms_with (id socket) w)
              (world_after_leave_all (id socket) w)),
     emitted (leave_each socket (rooms_with (id socket) w)
                (world_after_leave_all (id socket) w))).
Proof. intros H. unfold step. by rewrite dispatch_disconnect. Qed.

Lemma sockets_in_leave_all sid r w x :
  x ∈ sockets_in r (world_after_leave_all sid w) ↔
  x ∈ sockets_in r w ∧ x ≠ sid.
Proof.
  unfold world_after_leave_all, set_adapterRooms.
  rewrite sockets_in_record, lookup_fmap. unfold sockets_in.
  destruct (adapterRooms w !! r); simpl; set_solver.
Qed.

Lemma is_member_after_disconnect socket w sid' r' :
  is_member sid' r'
    (final (leave_each socket (rooms_with (id socket) w)
              (world_after_leave_all (id socket) w))) = true ↔
  is_member sid' r' w = true ∧ sid' ≠ id socket.
Proof.
  rewrite leave_each_members, elem_of_rooms_with.
  rewrite (is_member_ext sid' r' (world_after_leave_all (id socket) w) w)
    by done.
  split; [|tauto]. intros [Hm Hn]. split; [done|].
  intros ->. tauto.
Qed.

Lemma initial_consistent db : consistent (initial db).
Proof.
  split.
  - split; [apply NoDup_nil_2 | apply Forall_nil_2].
  - intros r sid. unfold sockets_in, is_member, members. simpl.
    rewrite lookup_empty. simpl. split; [by intros ?%not_elem_of_empty | done].
Qed.

Lemma step_consistent i w : consistent w → consistent (step i w).1.
Proof.
  intros [Hwf Hsync]. unfold in_sync in Hsync.
  destruct i as [flt socket [r|r|data|]|db].
  - destruct (join_accepted flt socket r w) eqn:Ha.
    + destruct (join_accepted_user _ _ _ _ Ha) as [u Hu].
      rewrite (step_join_accepted _ _ u) by done. simpl. split.
      * by apply wf_after_join.
      * intros r' sid'.
        rewrite sockets_in_world_after_join, is_member_after_join.
        case_decide; [subst r'|]; rewrite <- Hsync; [set_solver|].
        intuition congruence.
    + destruct (step_join_refused _ _ _ _ Ha) as [-> _]. by split.
  - rewrite step_leave. simpl. split.
    + by apply wf_after_leave.
    + intros r' sid'.
      rewrite sockets_in_world_after_leave, is_member_after_leave.
      case_decide; [subst r'|]; rewrite <- Hsync; [set_solver|].
      intuition congruence.
  - destruct (on_note_update_frame flt socket data w) as (Hp & Ha & _).
    unfold step, dispatch. simpl. split.
    + by rewrite Hp.
    + intros r' sid'. unfold sockets_in. rewrite Ha.
      rewrite (is_member_ext _ _ _ w) by done. apply Hsync.
  - pose proof Hwf as [Hwf' _]. rewrite step_disconnect by done. simpl. split.
    + by apply leave_each_wf.
    + intros r' sid'.
      rewrite is_member_after_disconnect, <- Hsync.
      rewrite leave_each_sockets, sockets_in_leave_all, elem_of_rooms_with.
      tauto.
  - by split.
Qed.

Lemma exec_consistent tr w : consistent w → consistent (exec tr w).
Proof.
  revert w. induction tr as [|i tr IH]; intros w H; [done|].
  rewrite exec_cons. by apply IH, step_consistent.
Qed.

Lemma reachable_consistent db tr : consistent (exec tr (initial db)).
Proof. apply exec_consistent, initial_consistent. Qed.

(** Every [presence-update] of a step carries the snapshot of its room as
    the step leaves it. *)
Lemma step_snapshots i w e :
  consistent w →
  e ∈ (step i w).2 →
  event_of e = "presence-update" →
  snapshot_of (step i w).1 e.
Proof.
  intros [[Hwf _] _]. destruct i as [flt socket [r|r|data|]|db].
  - destruct (join_accepted flt socket r w) eqn:Ha.
    + destruct (join_accepted_user _ _ _ _ Ha) as [u Hu].
      rewrite (step_join_accepted _ _ u) by done. simpl.
      intros ->%list_elem_of_singleton _. exists r.
      rewrite sockets_in_world_after_join, members_after_join.
      by rewrite !decide_True by done.
    + destruct (step_join_refused _ _ _ _ Ha) as [_ He].
      intros ->%He. done.
  - rewrite step_leave. simpl. intros [-> _]%emitted_by_leave_snapshot _.
    by exists r.
  - destruct (on_note_update_frame flt socket data w) as (_ & _ & He).
    unfold step, dispatch. simpl. intros [Hev|Hev]%He; rewrite Hev; done.
  - rewrite step_disconnect by done. simpl. intros He _.
    apply leave_each_snapshots in He as [? _]; [done|].
    by apply rooms_with_NoDup.
  - by intros ?%elem_of_nil.
Qed.

(** The rooms of a session in the registry are the rooms it joined and did
    not leave. *)
Lemma step_tracked i w j :
  consistent w →
  (∀ sid r, is_member sid r w = true ↔ r ∈ joined_of sid j) →
  ∀ sid r, is_member sid r (step i w).1 = true ↔
           r ∈ joined_of sid (track i w j).
Proof.
  intros [[Hwf _] _] Hrel sid' r'.
  destruct i as [flt socket [r|r|data|]|db]; simpl track.
  - destruct (join_accepted flt socket r w) eqn:Ha.
    + destruct (join_accepted_user _ _ _ _ Ha) as [u Hu].
      rewrite (step_join_accepted _ _ u) by done. simpl.
      rewrite is_member_after_join, Hrel. unfold joined_of.
      rewrite lookup_insert. case_decide; simpl; [subst; set_solver|].
      intuition congruence.
    + destruct (step_join_refused _ _ _ _ Ha) as [-> _]. apply Hrel.
  - rewrite step_leave. simpl. rewrite is_member_after_leave, Hrel.
    unfold joined_of. rewrite lookup_insert.
    case_decide; simpl; [subst; set_solver|]. intuition congruence.
  - destruct (on_note_update_frame flt socket data w) as (Hp & _ & _).
    unfold step, dispatch. simpl.
    rewrite (is_member_ext _ _ _ w) by done. apply Hrel.
  - rewrite step_disconnect by done. simpl.
    rewrite is_member_after_disconnect, Hrel. unfold joined_of.
    rewrite lookup_delete. case_decide; simpl; [subst|]; set_solver.
  - apply Hrel.
Qed.

Lemma exec_tracked tr w j :
  consistent w →
  (∀ sid r, is_member sid r w = true ↔ r ∈ joined_of sid j) →
  ∀ sid r, is_member sid r (exec tr w) = true ↔
           r ∈ joined_of sid (joined_after tr w j).
Proof.
  revert w j. induction tr as [|i tr IH]; intros w j Hc Hrel; [done|].
  rewrite exec_cons. simpl. apply IH; [by apply step_consistent|].
  by apply step_tracked.
Qed.

Lemma leave_each_as_events flt socket rs w :
  run (leave_events flt socket rs) w =
    (final (leave_each socket rs w), emitted (leave_each socket rs w)).
Proof.
  revert w. induction rs as [|r rs IH]; intros w; [done|].
  unfold leave_events. simpl fmap. cbn [run]. rewrite step_leave.
  fold (leave_events flt socket rs). rewrite IH.
  by rewrite leave_each_final_cons, leave_each_emitted_cons.
Qed.

End invariants.

(** * The properties of the collaboration layer *)

Section store_facts.

Lemma found_iff flt w noteId n :
  found flt w noteId n ↔
  find_rejects flt = false ∧ notes w !! noteId = Some n.
Proof.
  unfold found, prisma_note_findUnique, completion.
  destruct (find_rejects flt); simpl.
  - split; [done | by intros [? _]].
  - split; [intros [= ->]; done | intros [_ ->]; done].
Qed.

Lemma write_resolves_iff flt w data n :
  notes w !! um_noteId data = Some n →
  write_resolves flt w data ↔ update_rejects flt = false.
Proof.
  intros Hn. unfold write_resolves, prisma_note_update, completion.
  destruct (update_rejects flt); simpl; [done|].
  unfold hbind, get_world, put_world. simpl. by rewrite Hn.
Qed.

Lemma write_rejects_iff flt w data n :
  notes w !! um_noteId data = Some n →
  write_rejects flt w data ↔ update_rejects flt = true.
Proof.
  intros Hn. unfold write_rejects, prisma_note_update, completion.
  destruct (update_rejects flt); simpl; [done|].
  unfold hbind, get_world, put_world. simpl. by rewrite Hn.
Qed.

End store_facts.

(** C1: for a document owned by user A and an authenticated session B of
    another user, a [note-update] of B for that document changes nothing in
    the store (nor anywhere else in the world), broadcasts no
    [note-updated], and sends exactly one event: an [error] that reaches B's
    socket and no other. *)
Theorem C1_non_owner_update_is_refused flt socket u data n w :
  user socket = Some u →
  found flt w (um_noteId data) n →
  ownerId n ≠ userId u →
  let res := step (Client flt socket (NoteUpdate data)) w in
  res.1 = w ∧
  notes res.1 !! um_noteId data = Some n ∧
  (∀ e, e ∈ res.2 → event_of e ≠ "note-updated") ∧
  res.2 = [EmitSocket (id socket) "error"
             (error_payload "Only the owner can edit this note")] ∧
  (∀ sid e, e ∈ res.2 → delivered sid e → sid = id socket).
Proof.
  intros Hu [Hf Hn]%found_iff Hown. unfold step, dispatch. simpl.
  rewrite (on_note_update_not_owner _ _ u _ n) by done. simpl.
  repeat split; try done.
  - by intros e ->%list_elem_of_singleton.
  - by intros sid e ->%list_elem_of_singleton.
Qed.

(** Bob, in the room of Alice's note, tries to edit it. *)
Lemma C1_witness :
  user sB = Some bob ∧ found no_faults world_ab "d" noteD ∧
  ownerId noteD ≠ userId bob ∧
  (step (Client no_faults sB (NoteUpdate msgX)) world_ab).1 = world_ab ∧
  (step (Client no_faults sB (NoteUpdate msgX)) world_ab).2 =
    [EmitSocket "sB" "error"
       (error_payload "Only the owner can edit this note")].
Proof.
  assert (user sB = Some bob) as Hu by reflexivity.
  assert (found no_faults world_ab (um_noteId msgX) noteD) as Hf
    by (vm_compute; reflexivity).
  assert (ownerId noteD ≠ userId bob) as Hown by (vm_compute; discriminate).
  destruct (C1_non_owner_update_is_refused no_faults sB bob msgX noteD
              world_ab Hu Hf Hown) as (H1 & _ & _ & H2 & _).
  repeat split; assumption.
Defined.

(** C2: in every state the server reaches, a room key is in the registry
    exactly when the room has members; no room of the registry is empty,
    also right after the event that removed a room's last member. *)
Theorem C2_room_present_iff_nonempty db tr r :
  let w := exec tr (initial db) in
  (JsMap.has r (roomPresence w) = true ↔ members r w ≠ []) ∧
  Forall (λ kv, kv.2 ≠ []) (roomPresence w) ∧
  (∀ i, let w' := (step i w).1 in
        (JsMap.has r (roomPresence w') = true ↔ members r w' ≠ []) ∧
        Forall (λ kv, kv.2 ≠ []) (roomPresence w')).
Proof.
  assert (∀ w, consistent w →
            (JsMap.has r (roomPresence w) = true ↔ members r w ≠ []) ∧
            Forall (λ kv, kv.2 ≠ []) (roomPresence w)) as Hinv.
  { intros w [Hwf _]. split.
    - apply registry_wf_get in Hwf as [_ Hne].
      unfold JsMap.has, members.
      destruct (JsMap.get r (roomPresence w)) as [room|] eqn:E; simpl.
      + split; [intros _; by apply (Hne r) | done].
      + split; [done | by intros H].
    - destruct Hwf as [_ Hall]. eapply Forall_impl; [exact Hall|].
      by intros kv [_ ?]. }
  intros w. pose proof (reachable_consistent db tr) as Hc.
  destruct (Hinv w Hc) as [H1 H2]. split; [done|]. split; [done|].
  intros i. apply Hinv, step_consistent, Hc.
Qed.

(** * The block of [join-note], and what may run before it *)

Section overlap.
Import JsMap JsMapFacts.

(** The handler is its lookup followed by its block. *)
Lemma on_join_note_as_block flt socket r :
  on_join_note flt socket r =
    match user socket with
    | None => hret ()
    | Some u =>
        (note <- prisma_note_findUnique flt r;;
         join_note_block true socket u r note)%handler
    end.
Proof. reflexivity. Qed.

Lemma join_note_block_found attached socket u r n w :
  join_note_block attached socket u r (Some n) w =
    (Resolved (), world_after_block attached (id socket) r (presence_entry u) w,
     [EmitRoom r (if attached then {[id socket]} ∪ sockets_in r w
                  else sockets_in r w) "presence-update"
        (presence_payload (set (id socket) (presence_entry u) (members r w)))]).
Proof.
  unfold world_after_block, join_note_block, presence_after_join, members,
    presence_entry.
  unfold socket_join_when, socket_join, room_mutate, modify_presence,
    room_deref, presence_get, io_to_emit, emit, hbind, get_world, put_world,
    hret, set_adapterRooms, set_roomPresence.
  destruct attached; simpl.
  - unfold has. destruct (get r (roomPresence w)) as [room|] eqn:E; simpl.
    + rewrite E. simpl. rewrite get_mutate_eq, E. simpl.
      by rewrite sockets_in_record, lookup_insert_eq.
    + rewrite get_set_eq. simpl. rewrite get_mutate_eq, get_set_eq. simpl.
      by rewrite sockets_in_record, lookup_insert_eq.
  - unfold has. destruct (get r (roomPresence w)) as [room|] eqn:E; simpl.
    + rewrite E. simpl. by rewrite get_mutate_eq, E.
    + rewrite get_set_eq. simpl. by rewrite get_mutate_eq, get_set_eq.
Qed.

Lemma join_note_block_missing attached socket u r w :
  join_note_block attached socket u r None w =
    (Resolved (), w,
     [EmitSocket (id socket) "error" (error_payload "Note not found")]).
Proof. reflexivity. Qed.

(** With nothing in between, for a connected socket, it is the step. *)
Lemma join_note_overlapping_nil flt socket r w :
  join_note_overlapping flt socket r [] true w =
    step (Client flt socket (JoinNote r)) w.
Proof.
  unfold join_note_overlapping, step, dispatch.
  rewrite on_join_note_as_block.
  destruct (user socket) as [u|]; [|done].
  unfold prisma_note_findUnique, completion, final, emitted, hbind.
  destruct (find_rejects flt); [done|]. simpl.
  by destruct (join_note_block true socket u r (notes w !! r) w) as [[c w'] o].
Qed.

Lemma members_after_block attached sid r r' e w :
  members r' (world_after_block attached sid r e w) =
    if decide (r = r') then set sid e (members r w) else members r' w.
Proof.
  unfold members, world_after_block. simpl. rewrite get_after_join.
  by case_decide.
Qed.

Lemma sockets_in_after_block attached sid r r' e w :
  sockets_in r' (world_after_block attached sid r e w) =
    if decide (attached = true ∧ r = r') then {[sid]} ∪ sockets_in r w
    else sockets_in r' w.
Proof.
  unfold world_after_block. rewrite sockets_in_record.
  destruct attached.
  - destruct (decide (r = r')) as [->|Hne].
    + rewrite decide_True by done. by rewrite lookup_insert_eq.
    + rewrite decide_False by tauto. by rewrite lookup_insert_ne.
  - rewrite decide_False; [done | by intros [? _]].
Qed.

(** A join whose lookup found the note and whose block runs after other
    inputs: the block writes the entry whatever these inputs were. *)
Lemma join_note_overlapping_found flt socket u r n between attached w :
  user socket = Some u →
  found flt w r n →
  join_note_overlapping flt socket r between attached w =
    (world_after_block attached (id socket) r (presence_entry u)
       (run between w).1,
     (run between w).2 ++
     [EmitRoom r (if attached then {[id socket]} ∪ sockets_in r (run between w).1
                  else sockets_in r (run between w).1) "presence-update"
        (presence_payload
           (set (id socket) (presence_entry u) (members r (run between w).1)))]).
Proof.
  intros Hu Hf. unfold join_note_overlapping. rewrite Hu.
  unfold found in Hf. rewrite Hf.
  destruct (run between w) as [w1 out1].
  by rewrite join_note_block_found.
Qed.

Lemma entry_after_overlapping flt socket u r n between attached w :
  user socket = Some u →
  found flt w r n →
  get (id socket)
    (members r (join_note_overlapping flt socket r between attached w).1) =
  Some (presence_entry u).
Proof.
  intros Hu Hf. rewrite (join_note_overlapping_found _ _ u _ n) by done.
  simpl. rewrite members_after_block, decide_True by done.
  apply get_set_eq.
Qed.

End overlap.

(** Handlers that do not overlap.  When every input of the trace is handled
    to its end before the next one (no other handler runs between the lookup
    of a [join-note] and its block), the rooms whose member map has an entry
    keyed by a session are the rooms recorded for it by the events alone
    (an accepted [join-note] adds, [leave-note] removes, [disconnect] removes
    all); and a [disconnect] removes the entry of the session from every
    room that has one, by doing for each such room, in registry order, what
    [leave-note] does. *)
Lemma rooms_of_a_session_in_handler_order db tr :
  let w := exec tr (initial db) in
  let j := joined_after tr (initial db) ∅ in
  (∀ sid r, is_member sid r w = true ↔ r ∈ joined_of sid j) ∧
  (∀ flt socket,
     let res := step (Client flt socket Disconnect) w in
     (∀ r, r ∈ rooms_with (id socket) w ↔ is_member (id socket) r w = true) ∧
     (∀ r, is_member (id socket) r res.1 = false) ∧
     (∀ sid r, sid ≠ id socket → is_member sid r res.1 = is_member sid r w) ∧
     res = run (leave_events flt socket (rooms_with (id socket) w))
             (world_after_leave_all (id socket) w)).
Proof.
  intros w j. pose proof (reachable_consistent db tr) as Hc. split.
  - apply exec_tracked; [apply initial_consistent|].
    intros sid r. unfold joined_of. rewrite lookup_empty. simpl.
    split; [done | by intros ?%not_elem_of_empty].
  - intros flt socket res. subst res. fold w in Hc.
    pose proof Hc as [[Hwf _] _].
    rewrite step_disconnect by done. simpl.
    split; [intros r; apply elem_of_rooms_with|].
    split; [|split].
    + intros r. apply not_true_is_false.
      rewrite is_member_after_disconnect. tauto.
    + intros sid r Hne.
      pose proof (is_member_after_disconnect socket w sid r) as H.
      destruct (is_member sid r w), (is_member sid r _); try done.
      * by apply H.
      * destruct H as [H _]. by destruct (H eq_refl).
    + by rewrite leave_each_as_events.
Qed.

(** C3, evaluated where the code departs from it.  Alice's socket sends
    [join-note] for her note "d" and disconnects while the lookup of the
    join is pending.  The [disconnect] handler runs first: the session has
    no entry yet, so it removes nothing.  The block of the join runs after
    it and writes the entry.  By its events the session has joined "d" and
    then left every room; in the registry, room "d" holds its entry, and no
    event of the closed connection will remove it.  Bob, who joins "d"
    later, is sent a snapshot that lists Alice, and when Bob leaves, the
    room stays in the registry with the entry of the closed connection.
    This holds whether or not [socket.join] still adds the closed socket to
    the Socket.IO room. *)
Theorem C3_join_resumed_after_disconnect attached :
  let join := Client no_faults sA (JoinNote "d") in
  let bye := Client no_faults sA Disconnect in
  let res :=
    join_note_overlapping no_faults sA "d" [bye] attached (initial db0) in
  let later :=
    run [Client no_faults sB (JoinNote "d");
         Client no_faults sB (LeaveNote "d")] res.1 in
  found no_faults (initial db0) "d" noteD ∧
  rooms_with "sA" (initial db0) = [] ∧
  roomPresence (step bye (initial db0)).1 = [] ∧
  joined_of "sA" (joined_after [join; bye] (initial db0) ∅) = ∅ ∧
  JsMap.get "sA" (members "d" res.1) = Some (presence_entry alice) ∧
  rooms_with "sA" res.1 = ["d"] ∧
  roomPresence res.1 = [("d", [("sA", presence_entry alice)])] ∧
  payload_of <$> later.2 =
    [presence_payload [("sA", presence_entry alice);
                       ("sB", presence_entry bob)];
     presence_payload [("sA", presence_entry alice)]] ∧
  roomPresence later.1 = [("d", [("sA", presence_entry alice)])].
Proof.
  intros join bye res later.
  assert (found no_faults (initial db0) "d" noteD) as Hf
    by (vm_compute; reflexivity).
  split; [exact Hf|].
  split; [vm_compute; reflexivity|].
  split; [vm_compute; reflexivity|].
  split; [vm_compute; reflexivity|].
  split.
  { exact (entry_after_overlapping no_faults sA alice "d" noteD [bye]
             attached (initial db0) eq_refl Hf). }
  subst later res. destruct attached; vm_compute; repeat split.
Qed.


Section join_twice.
Import JsMap JsMapFacts.

Lemma presence_after_join_idem sid r e p :
  presence_after_join sid r e (presence_after_join sid r e p) =
  presence_after_join sid r e p.
Proof.
  unfold presence_after_join at 1.
  assert (has r (presence_after_join sid r e p) = true) as ->.
  { apply has_true, get_Some_keys. rewrite get_after_join.
    rewrite decide_True by done. eauto. }
  unfold presence_after_join. rewrite mutate_mutate.
  apply mutate_ext. intros v. simpl. apply set_set.
Qed.

Lemma world_after_join_idem sid r e w :
  world_after_join sid r e (world_after_join sid r e w) =
  world_after_join sid r e w.
Proof.
  unfold world_after_join at 1. rewrite sockets_in_world_after_join.
  rewrite decide_True by done. unfold world_after_join. simpl.
  rewrite presence_after_join_idem, insert_insert_eq.
  do 2 f_equal. set_solver.
Qed.

Lemma join_accepted_found flt socket u r n w :
  user socket = Some u → found flt w r n →
  join_accepted flt socket r w = true.
Proof.
  intros Hu [Hf Hn]%found_iff. unfold join_accepted.
  rewrite Hu, Hf. simpl. apply bool_decide_eq_true. eauto.
Qed.

End join_twice.

(** C6: two [join-note] events in a row from the same session for the same
    existing document leave the room with exactly one presence entry for the
    session, the entry a single join writes; the registry (and the whole
    world) after the second join is the one after the first. *)
Theorem C6_join_twice_is_join_once db tr flt1 flt2 socket u r n :
  let w := exec tr (initial db) in
  let w1 := (step (Client flt1 socket (JoinNote r)) w).1 in
  let w2 := (step (Client flt2 socket (JoinNote r)) w1).1 in
  user socket = Some u →
  found flt1 w r n →
  found flt2 w1 r n →
  roomPresence w2 = roomPresence w1 ∧
  w2 = w1 ∧
  JsMap.get (id socket) (members r w1) = Some (presence_entry u) ∧
  JsMap.get (id socket) (members r w2) = Some (presence_entry u) ∧
  length (filter (λ kv, kv.1 = id socket) (members r w1)) = 1 ∧
  length (filter (λ kv, kv.1 = id socket) (members r w2)) = 1.
Proof.
  intros w w1 w2 Hu Hf1 Hf2.
  pose proof (reachable_consistent db tr) as Hc. fold w in Hc.
  pose proof (join_accepted_found _ _ _ _ _ _ Hu Hf1) as Ha1.
  pose proof (join_accepted_found _ _ _ _ _ _ Hu Hf2) as Ha2.
  assert (w1 = world_after_join (id socket) r (presence_entry u) w) as E1.
  { unfold w1. by rewrite (step_join_accepted _ _ u). }
  assert (w2 = w1) as E2.
  { unfold w2. rewrite (step_join_accepted _ _ u) by done. simpl.
    rewrite E1. apply world_after_join_idem. }
  assert (JsMap.get (id socket) (members r w1) = Some (presence_entry u))
    as Hg.
  { rewrite E1, members_after_join, decide_True by done.
    apply JsMapFacts.get_set_eq. }
  assert (length (filter (λ kv, kv.1 = id socket) (members r w1)) = 1)
    as Hone.
  { apply JsMapFacts.one_entry_per_key.
    - assert (consistent w1) as [Hwf _] by apply step_consistent, Hc.
      apply registry_wf_get in Hwf as [_ Hrooms].
      unfold members.
      destruct (JsMap.get r (roomPresence w1)) as [room|] eqn:E; simpl.
      + by apply (Hrooms r).
      + apply NoDup_nil_2.
    - apply JsMapFacts.get_Some_keys. rewrite Hg. eauto. }
  rewrite E2. done.
Qed.

(** Alice joins note "d" twice while Bob is in the room. *)
Lemma C6_witness :
  user sA = Some alice ∧
  found no_faults world_b "d" noteD ∧
  found no_faults (step (Client no_faults sA (JoinNote "d")) world_b).1 "d"
    noteD ∧
  (step (Client no_faults sA (JoinNote "d"))
     (step (Client no_faults sA (JoinNote "d")) world_b).1).1 =
  (step (Client no_faults sA (JoinNote "d")) world_b).1.
Proof.
  assert (user sA = Some alice) as Hu by reflexivity.
  assert (found no_faults world_b "d" noteD) as Hf1
    by (vm_compute; reflexivity).
  assert (found no_faults
            (step (Client no_faults sA (JoinNote "d")) world_b).1 "d" noteD)
    as Hf2 by (vm_compute; reflexivity).
  destruct (C6_join_twice_is_join_once db0
              [Client no_faults sB (JoinNote "d")] no_faults no_faults sA
              alice "d" noteD Hu Hf1 Hf2) as (_ & H & _).
  repeat split; assumption.
Defined.

Section leave_non_member.
Import JsMap JsMapFacts.

Lemma leave_non_member sid r w :
  consistent w →
  is_member sid r w = false →
  world_after_leave sid r w = w ∧
  emitted_by_leave sid r w =
    if has r (roomPresence w) then
      [EmitRoom r (sockets_in r w) "presence-update"
         (presence_payload (members r w))]
    else [].
Proof.
  intros [Hwf Hsync] Hm. unfold in_sync in Hsync.
  apply registry_wf_get in Hwf as [_ Hrooms].
  assert (sid ∉ sockets_in r w) as Hs.
  { rewrite Hsync, Hm. done. }
  assert (adapter_after_leave sid r (adapterRooms w) = adapterRooms w) as Ha.
  { unfold adapter_after_leave. apply map_eq. intros r'.
    rewrite lookup_alter. case_decide; [subst r'|done].
    unfold sockets_in in Hs.
    destruct (adapterRooms w !! r) as [s|]; simpl in *; [|done].
    f_equal. apply set_eq. intros x.
    rewrite elem_of_difference, elem_of_singleton.
    split; [tauto|]. intros Hx. split; [done|]. by intros ->. }
  unfold world_after_leave, emitted_by_leave, presence_after_leave, has.
  rewrite Ha. unfold is_member, members in Hm. unfold members.
  destruct (get r (roomPresence w)) as [room|] eqn:E; simpl in *.
  - destruct (Hrooms r room E) as [Hwfr Hne].
    assert (delete sid room = room) as Hd.
    { apply delete_absent. apply get_None_keys. by apply has_false. }
    rewrite Hd. destruct (decide (size room = 0)) as [Hz|_].
    { unfold size in Hz. by apply length_zero_iff_nil in Hz. }
    split.
    + destruct w as [p a nn]. simpl in *. f_equal.
      apply mutate_id. intros v Hv. congruence.
    + do 2 f_equal. apply set_eq. intros x.
      rewrite elem_of_difference, elem_of_singleton.
      split; [tauto|]. intros Hx. split; [done|]. by intros ->.
  - split; [by destruct w | done].
Qed.

End leave_non_member.

(** C7 (amended): a [leave-note] for room [r] from a session that is not a
    member of [r] is not an error and changes nothing: the registry (and the
    whole world) stays as it is, no [error] is sent, and no event reaches
    the leaving session.  When [r] is not in the registry nothing is sent at
    all; when [r] is in the registry, the room's unchanged snapshot is
    broadcast once, as a [presence-update], to the room's members. *)
Theorem C7_leave_by_non_member db tr flt socket r :
  let w := exec tr (initial db) in
  is_member (id socket) r w = false →
  let res := step (Client flt socket (LeaveNote r)) w in
  res.1 = w ∧
  roomPresence res.1 = roomPresence w ∧
  (∀ e, e ∈ res.2 → event_of e ≠ "error") ∧
  (∀ e, e ∈ res.2 → ¬ delivered (id socket) e) ∧
  (JsMap.has r (roomPresence w) = false → res.2 = []) ∧
  (JsMap.has r (roomPresence w) = true →
   res.2 = [EmitRoom r (sockets_in r w) "presence-update"
              (presence_payload (members r w))] ∧
   members r w ≠ [] ∧
   ∀ sid, sid ∈ sockets_in r w ↔ is_member sid r w = true).
Proof.
  intros w Hm res. subst res. rewrite step_leave. cbn [fst snd].
  pose proof (reachable_consistent db tr) as Hc. fold w in Hc.
  destruct (leave_non_member _ _ _ Hc Hm) as [-> ->].
  pose proof Hc as [Hwf Hsync].
  split; [done|]. split; [done|].
  destruct (JsMap.has r (roomPresence w)) eqn:Hh.
  - repeat split; try done.
    + by intros e ->%list_elem_of_singleton.
    + intros e ->%list_elem_of_singleton. simpl.
      rewrite (Hsync r (id socket)), Hm. done.
    + apply registry_wf_get in Hwf as [_ Hrooms].
      unfold JsMap.has in Hh. unfold members.
      destruct (JsMap.get r (roomPresence w)) as [room|] eqn:E; [|done].
      simpl. by apply (Hrooms r).
    + apply Hsync.
    + apply Hsync.
  - repeat split; try done; by intros e ?%elem_of_nil.
Qed.

(** Bob, who never joined, leaves note "d" while Alice is in the room. *)
Lemma C7_witness :
  is_member (id sB) "d" world_a = false ∧
  (step (Client no_faults sB (LeaveNote "d")) world_a).1 = world_a.
Proof.
  assert (is_member (id sB) "d" world_a = false) as Hm
    by (vm_compute; reflexivity).
  destruct (C7_leave_by_non_member db0 [Client no_faults sA (JoinNote "d")]
              no_faults sB "d" Hm) as (H & _).
  split; assumption.
Defined.

(** C7, as stated, fails: Bob is not a member of room "d", Alice is; Bob's
    [leave-note] for "d" makes the server send a [presence-update] that
    Alice receives. *)
Lemma C7_counterexample :
  is_member "sB" "d" world_a = false ∧
  (step (Client no_faults sB (LeaveNote "d")) world_a).2 =
    [EmitRoom "d" {["sA"]} "presence-update"
       (presence_payload [("sA", presence_entry alice)])] ∧
  delivered "sA"
    (EmitRoom "d" {["sA"]} "presence-update"
       (presence_payload [("sA", presence_entry alice)])).
Proof.
  split; [vm_compute; reflexivity|].
  split; [vm_compute; reflexivity|].
  simpl. set_solver.
Qed.

Section entries.
Import JsMap JsMapFacts.

Lemma get_delete_Some {V} k k' (v : V) (m : t V) :
  get k' (delete k m) = Some v → get k' m = Some v.
Proof.
  destruct (decide (k = k')) as [->|Hne].
  - by rewrite get_delete_eq.
  - by rewrite get_delete_ne.
Qed.

Lemma get_members_after_leave sid r sid' r' p w :
  get sid' (members r' (world_after_leave sid r w)) = Some p →
  get sid' (members r' w) = Some p.
Proof.
  rewrite members_after_leave. case_decide; [subst r'|done].
  case_decide; [done|]. apply get_delete_Some.
Qed.

Lemma get_members_leave_each socket rs sid' r' p w :
  get sid' (members r' (final (leave_each socket rs w))) = Some p →
  get sid' (members r' w) = Some p.
Proof.
  revert w. induction rs as [|r rs IH]; intros w; [done|].
  rewrite leave_each_final_cons. intros H%IH.
  by eapply get_members_after_leave.
Qed.

Lemma written_by_mono tr1 tr2 sid p :
  tr1 ⊆ tr2 → written_by tr1 sid p → written_by tr2 sid p.
Proof.
  intros Hsub (flt & socket & u & r & Hin & H). exists flt, socket, u, r.
  split; [by apply Hsub | done].
Qed.

Lemma step_entries (Q : string → PresenceUser → Prop) i w :
  consistent w →
  (∀ r sid p, get sid (members r w) = Some p → Q sid p) →
  ∀ r sid p, get sid (members r (step i w).1) = Some p →
             Q sid p ∨ written_by [i] sid p.
Proof.
  intros [[Hwf _] _] HQ r' sid' p.
  destruct i as [flt socket [r|r|data|]|db].
  - destruct (join_accepted flt socket r w) eqn:Ha.
    + destruct (join_accepted_user _ _ _ _ Ha) as [u Hu].
      rewrite (step_join_accepted _ _ u) by done. simpl.
      rewrite members_after_join. case_decide; [subst r'|eauto].
      destruct (decide (id socket = sid')) as [<-|Hne].
      * rewrite get_set_eq. intros [= <-]. right.
        exists flt, socket, u, r. split; [apply list_elem_of_here | done].
      * rewrite get_set_ne by done. eauto.
    + destruct (step_join_refused _ _ _ _ Ha) as [-> _]. eauto.
  - rewrite step_leave. simpl. intros H%get_members_after_leave. eauto.
  - destruct (on_note_update_frame flt socket data w) as (Hp & _ & _).
    unfold step, dispatch. simpl. unfold members. rewrite Hp.
    intros H. left. by apply (HQ r').
  - rewrite step_disconnect by done. simpl.
    intros H%get_members_leave_each. left. by apply (HQ r').
  - simpl. eauto.
Qed.

Lemma exec_entries (Q : string → PresenceUser → Prop) tr w :
  consistent w →
  (∀ r sid p, get sid (members r w) = Some p → Q sid p) →
  ∀ r sid p, get sid (members r (exec tr w)) = Some p →
             Q sid p ∨ written_by tr sid p.
Proof.
  revert Q w. induction tr as [|i tr IH]; intros Q w Hc HQ r sid p.
  - intros H. left. by apply (HQ r).
  - rewrite exec_cons. intros H.
    apply (IH (λ sid p, Q sid p ∨ written_by [i] sid p)) in H.
    + destruct H as [[H|H]|H]; [by left | right | right].
      * eapply written_by_mono; [|exact H].
        intros x ->%list_elem_of_singleton. apply list_elem_of_here.
      * eapply written_by_mono; [|exact H].
        intros x Hx. by apply list_elem_of_further.
    + by apply step_consistent.
    + by apply step_entries.
Qed.

(** Every presence entry of a reachable world was written by a [join-note]
    of the session that keys it. *)
Lemma entries_written_by_join db tr r sid p :
  get sid (members r (exec tr (initial db))) = Some p →
  written_by tr sid p.
Proof.
  intros H. apply (exec_entries (λ _ _, False)) in H as [[]|H]; [done| |].
  - apply initial_consistent.
  - intros r' sid' p'. unfold members. simpl. done.
Qed.

End entries.

(** C8 (amended): a [note-update] sent by the owner of an existing document
    that persists results in one [note-updated] broadcast, delivered to
    every member of the document's room; the owner's own session receives
    it when it is a member of that room, and does not when it is not. *)
Theorem C8_update_reaches_the_room db tr flt socket u data n :
  let w := exec tr (initial db) in
  let r := um_noteId data in
  user socket = Some u →
  found flt w r n →
  ownerId n = userId u →
  write_resolves flt w data →
  let res := step (Client flt socket (NoteUpdate data)) w in
  ∃ e, res.2 = [e] ∧
       event_of e = "note-updated" ∧
       payload_of e = note_updated_payload data u ∧
       (∀ sid, is_member sid r w = true → delivered sid e) ∧
       (is_member (id socket) r w = true → delivered (id socket) e) ∧
       (is_member (id socket) r w = false → ¬ delivered (id socket) e).
Proof.
  intros w r Hu Hf Hown Hw. pose proof Hf as [Hfr Hn]%found_iff.
  apply (write_resolves_iff _ _ _ n Hn) in Hw.
  pose proof (reachable_consistent db tr) as [_ Hsync]. fold w in Hsync.
  unfold step, dispatch. simpl.
  rewrite (on_note_update_owner _ _ u _ n) by done. rewrite Hw. simpl.
  eexists. split; [done|]. simpl. repeat split.
  - intros sid. apply Hsync.
  - apply Hsync.
  - intros Hm Hd. apply Hsync in Hd. fold r in Hd. congruence.
Qed.

(** Alice and Bob are in the room; Alice's update reaches both. *)
Lemma C8_witness :
  user sA = Some alice ∧ found no_faults world_ab "d" noteD ∧
  ownerId noteD = userId alice ∧ write_resolves no_faults world_ab msgX ∧
  ∃ e, (step (Client no_faults sA (NoteUpdate msgX)) world_ab).2 = [e] ∧
       delivered "sA" e ∧ delivered "sB" e.
Proof.
  assert (user sA = Some alice) as Hu by reflexivity.
  assert (found no_faults world_ab (um_noteId msgX) noteD) as Hf
    by (vm_compute; reflexivity).
  assert (ownerId noteD = userId alice) as Hown by reflexivity.
  assert (write_resolves no_faults world_ab msgX) as Hw
    by (vm_compute; reflexivity).
  destruct (C8_update_reaches_the_room db0
              [Client no_faults sA (JoinNote "d");
               Client no_faults sB (JoinNote "d")]
              no_faults sA alice msgX noteD Hu Hf Hown Hw)
    as (e & He & _ & _ & Hall & _).
  repeat split; try assumption.
  exists e. split; [exact He|].
  split; apply Hall; vm_compute; reflexivity.
Defined.

(** C8, as stated, fails: Alice owns note "d" and has not joined its room,
    Bob has; Alice's update persists and is broadcast, and her own session
    does not receive the broadcast. *)
Lemma C8_counterexample :
  user sA = Some alice ∧ found no_faults world_b "d" noteD ∧
  ownerId noteD = userId alice ∧ write_resolves no_faults world_b msgX ∧
  (step (Client no_faults sA (NoteUpdate msgX)) world_b).2 =
    [EmitRoom "d" {["sB"]} "note-updated" (note_updated_payload msgX alice)] ∧
  ¬ delivered "sA"
      (EmitRoom "d" {["sB"]} "note-updated" (note_updated_payload msgX alice)).
Proof.
  split; [reflexivity|]. split; [vm_compute; reflexivity|].
  split; [reflexivity|]. split; [vm_compute; reflexivity|].
  split; [vm_compute; reflexivity|]. simpl. set_solver.
Qed.

(** C9: [note-update] asks for no room membership.  For an owner session
    and an existing document, whether or not the session is in the
    document's room, the update is persisted ([content] always, [title]
    when given) and [note-updated] is broadcast to the sessions that are
    members of the room at that time; the registry is not touched. *)
Theorem C9_update_needs_no_membership db tr flt socket u data n :
  let w := exec tr (initial db) in
  let r := um_noteId data in
  user socket = Some u →
  found flt w r n →
  ownerId n = userId u →
  write_resolves flt w data →
  let res := step (Client flt socket (NoteUpdate data)) w in
  notes res.1 =
    <[r := {| ownerId := ownerId n;
              title := default (title n) (um_title data);
              content := um_content data |}]> (notes w) ∧
  roomPresence res.1 = roomPresence w ∧
  res.2 = [EmitRoom r (sockets_in r w) "note-updated"
             (note_updated_payload data u)] ∧
  (∀ sid, sid ∈ sockets_in r w ↔ is_member sid r w = true).
Proof.
  intros w r Hu Hf Hown Hw. pose proof Hf as [Hfr Hn]%found_iff.
  apply (write_resolves_iff _ _ _ n Hn) in Hw.
  pose proof (reachable_consistent db tr) as [_ Hsync]. fold w in Hsync.
  unfold step, dispatch. simpl.
  rewrite (on_note_update_owner _ _ u _ n) by done. rewrite Hw. simpl.
  repeat split; try done; apply Hsync.
Qed.

(** Alice never joined the room of her note; her update is saved and sent
    to the room, where Bob is. *)
Lemma C9_witness :
  is_member "sA" "d" world_b = false ∧
  user sA = Some alice ∧ found no_faults world_b "d" noteD ∧
  ownerId noteD = userId alice ∧ write_resolves no_faults world_b msgX ∧
  notes (step (Client no_faults sA (NoteUpdate msgX)) world_b).1 =
    <["d" := {| ownerId := "uA"; title := "T"; content := "X" |}]>
      (notes world_b) ∧
  (step (Client no_faults sA (NoteUpdate msgX)) world_b).2 =
    [EmitRoom "d" (sockets_in "d" world_b) "note-updated"
       (note_updated_payload msgX alice)].
Proof.
  assert (user sA = Some alice) as Hu by reflexivity.
  assert (found no_faults world_b (um_noteId msgX) noteD) as Hf
    by (vm_compute; reflexivity).
  assert (ownerId noteD = userId alice) as Hown by reflexivity.
  assert (write_resolves no_faults world_b msgX) as Hw
    by (vm_compute; reflexivity).
  destruct (C9_update_needs_no_membership db0
              [Client no_faults sB (JoinNote "d")]
              no_faults sA alice msgX noteD Hu Hf Hown Hw)
    as (Hn & _ & He & _).
  split; [vm_compute; reflexivity|].
  repeat split; assumption.
Defined.

(** C5 (amended): every [presence-update] is a room broadcast whose payload
    is [{users: [...]}], the full membership of the room as the event leaves
    it: one element per member session, in the order of the room's entries,
    each element an object with exactly the keys [odId], [name] and [email]
    that hold the userId, display name and email of the user the member
    session was authenticated as when it joined.  The key of the user id is
    [odId], not [userId]. *)
Theorem C5_presence_update_is_full_snapshot db tr i e :
  let w := exec tr (initial db) in
  let res := step i w in
  e ∈ res.2 →
  event_of e = "presence-update" →
  ∃ r, e = EmitRoom r (sockets_in r res.1) "presence-update"
             (JObj [("users",
                     JArr (presence_json <$> JsMap.values (members r res.1)))]) ∧
       NoDup (JsMap.keys (members r res.1)) ∧
       (∀ sid, sid ∈ JsMap.keys (members r res.1) ↔
               is_member sid r res.1 = true) ∧
       length (presence_json <$> JsMap.values (members r res.1)) =
         length (JsMap.keys (members r res.1)) ∧
       (∀ sid p, JsMap.get sid (members r res.1) = Some p →
                 written_by (tr ++ [i]) sid p ∧
                 presence_json p ∈
                   presence_json <$> JsMap.values (members r res.1)) ∧
       (∀ x, x ∈ presence_json <$> JsMap.values (members r res.1) →
             json_keys x = ["odId"; "name"; "email"] ∧
             ∃ p, p ∈ JsMap.values (members r res.1) ∧
                  x = JObj [("odId", JStr (odId p)); ("name", JStr (pname p));
                            ("email", JStr (pemail p))]).
Proof.
  intros w res He Hev.
  pose proof (reachable_consistent db tr) as Hc. fold w in Hc.
  destruct (step_snapshots i w e Hc He Hev) as [r ->]. exists r.
  fold res. split; [done|].
  assert (consistent res.1) as [Hwf _] by apply step_consistent, Hc.
  apply registry_wf_get in Hwf as [_ Hrooms].
  split; [|split; [|split; [|split]]].
  - unfold members.
    destruct (JsMap.get r (roomPresence res.1)) as [room|] eqn:E; simpl.
    + by apply (Hrooms r).
    + apply NoDup_nil_2.
  - intros sid. unfold is_member. by rewrite JsMapFacts.has_true.
  - unfold JsMap.values, JsMap.keys. by rewrite !length_fmap.
  - intros sid p Hg. split.
    + apply (entries_written_by_join db (tr ++ [i]) r).
      by rewrite exec_snoc.
    + apply list_elem_of_fmap. exists p. split; [done|].
      unfold JsMap.values. apply list_elem_of_fmap. exists (sid, p).
      split; [done | by apply JsMapFacts.get_elem_of].
  - intros x (p & -> & Hp)%list_elem_of_fmap. split; [done|]. by exists p.
Qed.

(** Bob joins after Alice: the snapshot lists both, Alice first. *)
Lemma C5_witness :
  ∃ e, e ∈ (step (Client no_faults sB (JoinNote "d")) world_a).2 ∧
       event_of e = "presence-update" ∧
       payload_of e =
         JObj [("users",
                JArr [JObj [("odId", JStr "uA"); ("name", JStr "Alice");
                            ("email", JStr "alice@example.org")];
                      JObj [("odId", JStr "uB"); ("name", JStr "Bob");
                            ("email", JStr "bob@example.org")]])].
Proof.
  set (e := EmitRoom "d" {["sA"; "sB"]} "presence-update"
              (presence_payload [("sA", presence_entry alice);
                                 ("sB", presence_entry bob)])).
  assert (e ∈ (step (Client no_faults sB (JoinNote "d"))
                 (exec [Client no_faults sA (JoinNote "d")] (initial db0))).2)
    as He by (apply list_elem_of_singleton; vm_compute; reflexivity).
  assert (event_of e = "presence-update") as Hev by reflexivity.
  destruct (C5_presence_update_is_full_snapshot db0
              [Client no_faults sA (JoinNote "d")]
              (Client no_faults sB (JoinNote "d")) e He Hev) as (r & _).
  exists e. split; [exact He|]. split; [exact Hev|]. reflexivity.
Defined.

(** C5, as stated, fails: when Alice joins note "d" the elements of [users]
    carry her user id under the key [odId]; the payload is not the one the
    specification describes. *)
Lemma C5_counterexample :
  (step (Client no_faults sA (JoinNote "d")) (initial db0)).2 =
    [EmitRoom "d" {["sA"]} "presence-update"
       (JObj [("users",
               JArr [JObj [("odId", JStr "uA"); ("name", JStr "Alice");
                           ("email", JStr "alice@example.org")]])])] ∧
  json_keys (JObj [("odId", JStr "uA"); ("name", JStr "Alice");
                   ("email", JStr "alice@example.org")]) ≠
    ["userId"; "name"; "email"] ∧
  JObj [("users",
         JArr [JObj [("odId", JStr "uA"); ("name", JStr "Alice");
                     ("email", JStr "alice@example.org")]])] ≠
    spec_presence_payload
      (members "d" (step (Client no_faults sA (JoinNote "d")) (initial db0)).1).
Proof.
  split; [vm_compute; reflexivity|]. split; [simpl; discriminate|].
  vm_compute. discriminate.
Qed.

Section per_connection.
Import JsMap JsMapFacts.

Lemma exec_app tr1 tr2 w : exec (tr1 ++ tr2) w = exec tr2 (exec tr1 w).
Proof. unfold exec. by rewrite run_app. Qed.

Lemma json_odId_presence p : json_odId (presence_json p) = Some (odId p).
Proof.
  reflexivity.
Qed.

Lemma payload_users_presence room :
  payload_users (presence_payload room) = presence_json <$> values room.
Proof.
  reflexivity.
Qed.

(** A user id is listed in a snapshot once for every entry of the room that
    carries it. *)
Lemma times_listed_presence uid room :
  times_listed uid (presence_payload room) =
    length (filter (λ p, odId p = uid) (values room)).
Proof.
  unfold times_listed. rewrite payload_users_presence.
  induction (values room) as [|p ps IH]; [done|].
  rewrite fmap_cons. destruct (decide (odId p = uid)) as [E|N].
  - rewrite !filter_cons_True; [| done | by rewrite json_odId_presence, E].
    simpl. by rewrite IH.
  - rewrite !filter_cons_False; [done | done |].
    rewrite json_odId_presence. by intros [= ?].
Qed.

Lemma is_member_get sid r w :
  is_member sid r w = true → ∃ p, get sid (members r w) = Some p.
Proof.
  unfold is_member, has. destruct (get sid (members r w)); [eauto | done].
Qed.

Lemma wf_members r w : registry_wf (roomPresence w) → wf (members r w).
Proof.
  intros [_ Hrooms]%registry_wf_get. unfold members.
  destruct (get r (roomPresence w)) as [room|] eqn:E; simpl.
  - by apply (Hrooms r).
  - apply NoDup_nil_2.
Qed.

(** In a trace where the id of [socket] belongs to [socket] alone, the entry
    keyed by that id is the one of the user of [socket]. *)
Lemma entry_of_the_socket db tr socket u r p :
  one_socket_per_id socket tr →
  user socket = Some u →
  get (id socket) (members r (exec tr (initial db))) = Some p →
  p = presence_entry u.
Proof.
  intros Hone Hu H.
  apply entries_written_by_join in H
    as (flt & s & u' & r' & Hin & Hid & Hu' & ->).
  pose proof (Hone _ _ _ Hin Hid) as Hs. subst s. congruence.
Qed.

End per_connection.

(** C10: presence entries are keyed by connection, not by user.  Two
    connections authenticated as the same user join the same room, one after
    the other.  The room then holds two entries, one under each socket id,
    each with that user's id.  The [presence-update] of the second join goes
    to both sockets, and its [users] array has at least two elements whose
    [odId] is that user's id.  So has the [users] array of every
    [presence-update] sent for the room later on, as long as both sessions
    are in it. *)
Theorem C10_presence_is_per_connection db tr flt1 flt2 socket1 socket2
    u1 u2 r n1 n2 :
  let w := exec tr (initial db) in
  let join1 := Client flt1 socket1 (JoinNote r) in
  let join2 := Client flt2 socket2 (JoinNote r) in
  let w1 := (step join1 w).1 in
  let res := step join2 w1 in
  id socket1 ≠ id socket2 →
  user socket1 = Some u1 →
  user socket2 = Some u2 →
  userId u1 = userId u2 →
  found flt1 w r n1 →
  found flt2 w1 r n2 →
  (JsMap.get (id socket1) (members r res.1) = Some (presence_entry u1) ∧
   JsMap.get (id socket2) (members r res.1) = Some (presence_entry u2) ∧
   length (filter (λ kv, kv.1 = id socket1) (members r res.1)) = 1%nat ∧
   length (filter (λ kv, kv.1 = id socket2) (members r res.1)) = 1%nat ∧
   odId (presence_entry u1) = odId (presence_entry u2)) ∧
  (∃ R payload,
     res.2 = [EmitRoom r R "presence-update" payload] ∧
     id socket1 ∈ R ∧ id socket2 ∈ R ∧
     (2 ≤ times_listed (userId u1) payload)%nat) ∧
  (∀ tr' i e R payload,
     let full := tr ++ [join1; join2] ++ tr' ++ [i] in
     let res' := step i (exec tr' res.1) in
     one_socket_per_id socket1 full →
     one_socket_per_id socket2 full →
     is_member (id socket1) r res'.1 = true →
     is_member (id socket2) r res'.1 = true →
     e ∈ res'.2 →
     e = EmitRoom r R "presence-update" payload →
     (2 ≤ times_listed (userId u1) payload)%nat).
Proof.
  intros w join1 join2 w1 res Hne Hu1 Hu2 Huid Hf1 Hf2.
  pose proof (reachable_consistent db tr) as Hc. fold w in Hc.
  pose proof (join_accepted_found _ _ _ _ _ _ Hu1 Hf1) as Ha1.
  pose proof (join_accepted_found _ _ _ _ _ _ Hu2 Hf2) as Ha2.
  assert (consistent w1) as Hc1 by apply step_consistent, Hc.
  assert (consistent res.1) as Hc2 by apply step_consistent, Hc1.
  assert (w1 = world_after_join (id socket1) r (presence_entry u1) w) as Ew1.
  { unfold w1, join1. by rewrite (step_join_accepted _ _ u1). }
  assert (res =
    (world_after_join (id socket2) r (presence_entry u2) w1,
     [EmitRoom r ({[id socket2]} ∪ sockets_in r w1) "presence-update"
        (presence_payload
           (JsMap.set (id socket2) (presence_entry u2) (members r w1)))]))
    as Eres.
  { unfold res, join2. by rewrite (step_join_accepted _ _ u2). }
  assert (JsMap.get (id socket1) (members r w1) = Some (presence_entry u1))
    as Hg1.
  { rewrite Ew1, members_after_join, decide_True by done.
    apply JsMapFacts.get_set_eq. }
  assert (JsMap.get (id socket1) (members r res.1) = Some (presence_entry u1))
    as H1.
  { rewrite Eres. cbn [fst]. rewrite members_after_join, decide_True by done.
    rewrite JsMapFacts.get_set_ne by done. exact Hg1. }
  assert (JsMap.get (id socket2) (members r res.1) = Some (presence_entry u2))
    as H2.
  { rewrite Eres. cbn [fst]. rewrite members_after_join, decide_True by done.
    apply JsMapFacts.get_set_eq. }
  assert (JsMap.wf (members r res.1)) as Hwf
    by (apply wf_members; apply Hc2).
  split; [|split].
  - split; [exact H1|]. split; [exact H2|].
    split; [|split].
    + apply JsMapFacts.one_entry_per_key; [done|].
      apply JsMapFacts.get_Some_keys. eauto.
    + apply JsMapFacts.one_entry_per_key; [done|].
      apply JsMapFacts.get_Some_keys. eauto.
    + exact Huid.
  - eexists _, _. split; [by rewrite Eres|].
    split; [|split].
    + apply elem_of_union_r. destruct Hc1 as [_ Hs]. apply (Hs r).
      unfold is_member, JsMap.has. by rewrite Hg1.
    + apply elem_of_union_l. by apply elem_of_singleton.
    + rewrite times_listed_presence.
      assert (JsMap.set (id socket2) (presence_entry u2) (members r w1) =
              members r res.1) as ->.
      { rewrite Eres. cbn [fst].
        by rewrite members_after_join, decide_True. }
      by apply (JsMapFacts.two_values _ (id socket1) (id socket2)
                  (presence_entry u1) (presence_entry u2)).
  - intros tr' i e R payload full res' Hone1 Hone2 Hm1 Hm2 He ->.
    assert (exec tr' res.1 = exec (tr ++ [join1; join2] ++ tr') (initial db))
      as Ew.
    { rewrite !exec_app. fold w. by rewrite !exec_cons. }
    assert (res'.1 = exec full (initial db)) as Ew'.
    { unfold res', full. rewrite !app_assoc, exec_snoc.
      rewrite <- !app_assoc. by rewrite <- Ew. }
    assert (consistent (exec tr' res.1)) as Hc'
      by (rewrite Ew; apply reachable_consistent).
    destruct (step_snapshots i _ _ Hc' He eq_refl) as [r0 [= <- _ ->]].
    rewrite times_listed_presence. fold res'.
    apply is_member_get in Hm1 as [p1 Hp1].
    apply is_member_get in Hm2 as [p2 Hp2].
    pose proof Hp1 as E1. pose proof Hp2 as E2.
    rewrite Ew' in E1, E2.
    apply (entry_of_the_socket _ _ _ u1) in E1; [|done..].
    apply (entry_of_the_socket _ _ _ u2) in E2; [|done..].
    subst p1 p2.
    apply (JsMapFacts.two_values _ (id socket1) (id socket2)
             (presence_entry u1) (presence_entry u2)); done.
Qed.

(** Two tabs of Alice on the same note; Bob joins after them. *)
Lemma C10_witness :
  id sA ≠ id sA' ∧
  userId alice = userId alice ∧
  found no_faults (initial db0) "d" noteD ∧
  found no_faults world_a "d" noteD ∧
  JsMap.get "sA" (members "d" world_aa) = Some (presence_entry alice) ∧
  JsMap.get "sA2" (members "d" world_aa) = Some (presence_entry alice) ∧
  (∃ R payload,
     (step (Client no_faults sA' (JoinNote "d")) world_a).2 =
       [EmitRoom "d" R "presence-update" payload] ∧
     (2 ≤ times_listed "uA" payload)%nat) ∧
  (2 ≤ times_listed "uA"
         (presence_payload [("sA", presence_entry alice);
                            ("sA2", presence_entry alice);
                            ("sB", presence_entry bob)]))%nat.
Proof.
  assert (id sA ≠ id sA') as Hne by discriminate.
  assert (found no_faults (exec [] (initial db0)) "d" noteD) as Hf1
    by (vm_compute; reflexivity).
  assert (found no_faults
            (step (Client no_faults sA (JoinNote "d"))
               (exec [] (initial db0))).1 "d" noteD) as Hf2
    by (vm_compute; reflexivity).
  destruct (C10_presence_is_per_connection db0 [] no_faults no_faults
              sA sA' alice alice "d" noteD noteD
              Hne eq_refl eq_refl eq_refl Hf1 Hf2)
    as ((H1 & H2 & _) & (R & payload & Hout & _ & _ & Hlen) & Hlater).
  split; [exact Hne|]. split; [reflexivity|].
  split; [exact Hf1|]. split; [exact Hf2|].
  split; [exact H1|]. split; [exact H2|].
  split; [exists R, payload; split; [exact Hout | exact Hlen]|].
  set (i := Client no_faults sB (JoinNote "d")).
  apply (Hlater [] i
           (EmitRoom "d" {["sA"; "sA2"; "sB"]} "presence-update"
              (presence_payload [("sA", presence_entry alice);
                                 ("sA2", presence_entry alice);
                                 ("sB", presence_entry bob)]))
           {["sA"; "sA2"; "sB"]}).
  - intros flt s ev Hin Hid.
    repeat (apply elem_of_cons in Hin as [Hin|Hin];
            [injection Hin as -> -> ->; first [reflexivity | discriminate]|]).
    by apply elem_of_nil in Hin.
  - intros flt s ev Hin Hid.
    repeat (apply elem_of_cons in Hin as [Hin|Hin];
            [injection Hin as -> -> ->; first [reflexivity | discriminate]|]).
    by apply elem_of_nil in Hin.
  - vm_compute. reflexivity.
  - vm_compute. reflexivity.
  - apply list_elem_of_singleton. vm_compute. reflexivity.
  - reflexivity.
Defined.

Section write_failure.

Lemma update_write_rejected flt socket u data n w :
  user socket = Some u →
  found flt w (um_noteId data) n →
  ownerId n = userId u →
  write_rejects flt w data →
  dispatch flt socket (NoteUpdate data) w = (Rejected, w, []).
Proof.
  intros Hu Hf Hown Hw. pose proof Hf as [Hfr Hn]%found_iff.
  apply (write_rejects_iff _ _ _ n Hn) in Hw. simpl.
  rewrite (on_note_update_owner _ _ u _ n) by done. by rewrite Hw.
Qed.

End write_failure.

(** C4, evaluated where the code departs from it: Alice owns note "d", she
    and Bob are in its room, and the write of her [note-update] rejects.
    The handler rejects with it: no [note-updated] is broadcast, and no
    [error] (nothing at all) is sent to Alice. *)
Theorem C4_write_failure_is_not_reported :
  user sA = Some alice ∧
  found write_fails world_ab "d" noteD ∧
  ownerId noteD = userId alice ∧
  write_rejects write_fails world_ab msgX ∧
  dispatch write_fails sA (NoteUpdate msgX) world_ab =
    (Rejected, world_ab, []) ∧
  (step (Client write_fails sA (NoteUpdate msgX)) world_ab).2 = [].
Proof.
  assert (found write_fails world_ab (um_noteId msgX) noteD) as Hf
    by (vm_compute; reflexivity).
  assert (write_rejects write_fails world_ab msgX) as Hw
    by (vm_compute; reflexivity).
  pose proof (update_write_rejected write_fails sA alice msgX noteD world_ab
                eq_refl Hf eq_refl Hw) as H.
  repeat split; try done.
Qed.

(** * Further properties of the socket handlers *)

Section more_map_facts.
Import JsMap JsMapFacts.
Context {V : Type}.
Implicit Types (m : t V) (k : string) (v : V).

Lemma set_absent k v m : k ∉ keys m → set k v m = m ++ [(k, v)].
Proof.
  unfold keys. induction m as [|[k' v'] m IH]; [done|].
  rewrite fmap_cons, not_elem_of_cons. intros [Hne Hn]. simpl.
  rewrite decide_False by done. by rewrite IH.
Qed.

Lemma delete_set_absent k v m : k ∉ keys m → delete k (set k v m) = m.
Proof.
  unfold keys. induction m as [|[k' v'] m IH].
  - intros _. simpl. by rewrite decide_True.
  - rewrite fmap_cons, not_elem_of_cons. intros [Hne Hn]. simpl.
    rewrite decide_False by done. simpl.
    rewrite decide_False by done. by rewrite IH.
Qed.

Lemma delete_nil_others k m :
  delete k m = [] ↔ ∀ k', k' ∈ keys m → k' = k.
Proof.
  split.
  - intros Hd k' Hin. destruct (decide (k' = k)) as [|Hne]; [done|].
    assert (k' ∈ keys (delete k m)) as H
      by (apply elem_of_keys_delete; done).
    rewrite Hd in H. by apply elem_of_nil in H.
  - intros Hall. destruct (delete k m) as [|[k' v'] m'] eqn:E; [done|].
    assert (k' ∈ keys (delete k m)) as H
      by (rewrite E; apply list_elem_of_here).
    apply elem_of_keys_delete in H as [Hne Hin]. by apply Hall in Hin.
Qed.

Lemma get_delete k k' m :
  get k' (delete k m) = if decide (k = k') then None else get k' m.
Proof.
  case_decide; [subst; apply get_delete_eq | by apply get_delete_ne].
Qed.

Lemma get_set k k' v m :
  get k' (set k v m) = if decide (k = k') then Some v else get k' m.
Proof.
  case_decide; [subst; apply get_set_eq | by apply get_set_ne].
Qed.

End more_map_facts.

Section not_found_facts.

Lemma not_found_iff flt w noteId :
  not_found flt w noteId ↔
  find_rejects flt = false ∧ notes w !! noteId = None.
Proof.
  unfold not_found, prisma_note_findUnique, completion.
  destruct (find_rejects flt); simpl.
  - split; [done | by intros [? _]].
  - split; [intros [= ->]; done | intros [_ ->]; done].
Qed.

Lemma join_refused_not_found flt socket u r w :
  user socket = Some u → not_found flt w r →
  join_accepted flt socket r w = false.
Proof.
  intros Hu [Hf Hn]%not_found_iff. unfold join_accepted.
  rewrite Hu, Hf, Hn. done.
Qed.

End not_found_facts.

(** A [join-note] for a note that does not exist: the caller alone gets
    [error] with the message "Note not found"; the socket joins no room and
    the registry, the Socket.IO rooms and the store stay as they are. *)
Theorem join_of_missing_note flt socket u r w :
  user socket = Some u →
  not_found flt w r →
  step (Client flt socket (JoinNote r)) w =
    (w, [EmitSocket (id socket) "error" (error_payload "Note not found")]).
Proof.
  intros Hu Hnf. pose proof Hnf as [Hf Hn]%not_found_iff.
  unfold step, dispatch, on_join_note, prisma_note_findUnique.
  rewrite Hu, Hf. unfold hbind, get_world, hret, socket_emit, emit. simpl.
  by rewrite Hn.
Qed.

Lemma join_of_missing_note_witness :
  user sB = Some bob ∧ not_found no_faults world_a "nope" ∧
  step (Client no_faults sB (JoinNote "nope")) world_a =
    (world_a, [EmitSocket "sB" "error" (error_payload "Note not found")]).
Proof.
  assert (not_found no_faults world_a "nope") as Hnf
    by (vm_compute; reflexivity).
  split; [reflexivity|]. split; [exact Hnf|].
  exact (join_of_missing_note no_faults sB bob "nope" world_a eq_refl Hnf).
Defined.

(** A [note-update] for a note that does not exist: the caller alone gets
    [error] with the message "Note not found"; nothing is written and
    nothing is broadcast, whoever the caller is. *)
Theorem update_of_missing_note flt socket u data w :
  user socket = Some u →
  not_found flt w (um_noteId data) →
  step (Client flt socket (NoteUpdate data)) w =
    (w, [EmitSocket (id socket) "error" (error_payload "Note not found")]).
Proof.
  intros Hu [Hf Hn]%not_found_iff. unfold step, dispatch.
  by rewrite (on_note_update_no_note _ _ u).
Qed.

Lemma update_of_missing_note_witness :
  user sA = Some alice ∧
  not_found no_faults world_a "nope" ∧
  step (Client no_faults sA
          (NoteUpdate {| um_noteId := "nope"; um_content := "X";
                         um_title := Some "t" |})) world_a =
    (world_a, [EmitSocket "sA" "error" (error_payload "Note not found")]).
Proof.
  assert (not_found no_faults world_a "nope") as Hnf
    by (vm_compute; reflexivity).
  split; [reflexivity|]. split; [exact Hnf|].
  exact (update_of_missing_note no_faults sA alice
           {| um_noteId := "nope"; um_content := "X"; um_title := Some "t" |}
           world_a eq_refl Hnf).
Defined.

Section join_leave_facts.
Import JsMap JsMapFacts.

Lemma members_wf db tr r : wf (members r (exec tr (initial db))).
Proof.
  destruct (reachable_consistent db tr) as [Hwf _].
  apply registry_wf_get in Hwf as [_ Hrooms]. unfold members.
  destruct (get r (roomPresence (exec tr (initial db)))) as [room|] eqn:E.
  - by apply (Hrooms r).
  - apply NoDup_nil_2.
Qed.

Lemma members_after_leave_delete sid r r' w :
  members r' (world_after_leave sid r w) =
    if decide (r = r') then delete sid (members r w) else members r' w.
Proof.
  rewrite members_after_leave. case_decide; [|done].
  case_decide as Hz; [|done].
  unfold size in Hz. apply length_zero_iff_nil in Hz. by rewrite Hz.
Qed.

Lemma is_member_keys_members sid r w :
  is_member sid r w = true ↔ sid ∈ keys (members r w).
Proof. unfold is_member. apply has_true. Qed.

Lemma is_member_false_keys sid r w :
  is_member sid r w = false ↔ sid ∉ keys (members r w).
Proof.
  rewrite <- is_member_keys_members.
  destruct (is_member sid r w); split; done.
Qed.

End join_leave_facts.

(** An accepted [join-note] sends one [presence-update], the snapshot of the
    room with the joiner in it, to the joiner and to every session that was
    in the room, and to nobody else.  A session that was not in the room is
    added after the entries already there; one that was keeps its position.
    The store is not written. *)
Theorem join_announces_to_the_room db tr flt socket u r n :
  let w := exec tr (initial db) in
  user socket = Some u →
  found flt w r n →
  let res := step (Client flt socket (JoinNote r)) w in
  ∃ e, res.2 = [e] ∧
       event_of e = "presence-update" ∧
       payload_of e = presence_payload (members r res.1) ∧
       (∀ sid, delivered sid e ↔ sid = id socket ∨ is_member sid r w = true) ∧
       (is_member (id socket) r w = false →
        members r res.1 = members r w ++ [(id socket, presence_entry u)]) ∧
       (is_member (id socket) r w = true →
        JsMap.keys (members r res.1) = JsMap.keys (members r w)) ∧
       notes res.1 = notes w.
Proof.
  intros w Hu Hf res. subst res.
  pose proof (join_accepted_found _ _ _ _ _ _ Hu Hf) as Ha.
  destruct (reachable_consistent db tr) as [_ Hsync]. fold w in Hsync.
  rewrite (step_join_accepted _ _ u) by done. cbn [fst snd].
  eexists. split; [done|]. cbn [event_of payload_of delivered].
  rewrite members_after_join, decide_True by done.
  split; [done|]. split; [done|]. split; [|split; [|split]].
  - intros sid. rewrite elem_of_union, elem_of_singleton.
    by rewrite (Hsync r sid).
  - intros Hm%is_member_false_keys. by apply set_absent.
  - intros Hm%is_member_keys_members. by apply JsMapFacts.keys_set_present.
  - done.
Qed.

Lemma join_announces_to_the_room_witness :
  user sB = Some bob ∧ found no_faults world_a "d" noteD ∧
  ∃ e, (step (Client no_faults sB (JoinNote "d")) world_a).2 = [e] ∧
       delivered "sA" e ∧ delivered "sB" e ∧
       members "d" (step (Client no_faults sB (JoinNote "d")) world_a).1 =
         [("sA", presence_entry alice); ("sB", presence_entry bob)].
Proof.
  assert (found no_faults world_a "d" noteD) as Hf
    by (vm_compute; reflexivity).
  destruct (join_announces_to_the_room db0
              [Client no_faults sA (JoinNote "d")] no_faults sB bob "d"
              noteD eq_refl Hf) as (e & He & _ & _ & Hd & Hnew & _).
  split; [reflexivity|]. split; [exact Hf|]. exists e.
  split; [exact He|]. split; [|split].
  - apply Hd. right. vm_compute. reflexivity.
  - apply Hd. left. reflexivity.
  - unfold world_a. rewrite Hnew by (vm_compute; reflexivity).
    vm_compute. reflexivity.
Defined.

(** A [leave-note] by a member of the room takes its entry out and keeps
    the others in their order.  If other sessions remain, they and only they
    receive one [presence-update] with the remaining entries; the leaver
    does not.  If the leaver was the last member, the room is deleted from
    the registry and nothing is sent. *)
Theorem leave_by_member db tr flt socket r :
  let w := exec tr (initial db) in
  is_member (id socket) r w = true →
  let res := step (Client flt socket (LeaveNote r)) w in
  let rest := JsMap.delete (id socket) (members r w) in
  members r res.1 = rest ∧
  res.2 = leave_announcement (id socket) r w rest ∧
  (∀ sid, sid ∈ sockets_in r w ∖ {[id socket]} ↔
          sid ≠ id socket ∧ is_member sid r w = true) ∧
  (rest = [] ↔ ∀ sid, is_member sid r w = true → sid = id socket) ∧
  (rest = [] → JsMap.has r (roomPresence res.1) = false) ∧
  (∀ e, e ∈ res.2 → ¬ delivered (id socket) e) ∧
  notes res.1 = notes w.
Proof.
  intros w Hm res rest. subst res. rewrite step_leave. cbn [fst snd].
  destruct (reachable_consistent db tr) as [Hwf Hsync]. fold w in Hwf, Hsync.
  rewrite members_after_leave_delete, decide_True by done. fold rest.
  assert (emitted_by_leave (id socket) r w =
          leave_announcement (id socket) r w rest) as Hem.
  { unfold emitted_by_leave, leave_announcement, rest, members.
    unfold is_member, members in Hm.
    destruct (JsMap.get r (roomPresence w)) as [room|]; simpl in *; [|done].
    by destruct (JsMap.delete (id socket) room) as [|kv l]. }
  split; [done|]. split; [done|]. split; [|split; [|split; [|split]]].
  - intros sid. rewrite elem_of_difference, elem_of_singleton, (Hsync r sid).
    tauto.
  - unfold rest. rewrite delete_nil_others.
    split; intros H sid Hs.
    + apply H. by apply is_member_keys_members.
    + apply H. by apply is_member_keys_members.
  - intros Hnil. unfold JsMap.has. simpl. rewrite get_after_leave.
    rewrite decide_True by done. unfold rest, members in Hnil.
    unfold is_member, members in Hm.
    destruct (JsMap.get r (roomPresence w)) as [room|]; simpl in *; [|done].
    by rewrite Hnil.
  - rewrite Hem. unfold leave_announcement.
    destruct rest as [|kv l]; [by intros e ?%elem_of_nil|].
    intros e ->%list_elem_of_singleton. simpl.
    rewrite elem_of_difference, elem_of_singleton. tauto.
  - done.
Qed.

Lemma leave_by_member_witness :
  is_member "sA" "d" world_ab = true ∧
  (step (Client no_faults sA (LeaveNote "d")) world_ab).2 =
    [EmitRoom "d" ({["sA"; "sB"]} ∖ {["sA"]}) "presence-update"
       (presence_payload [("sB", presence_entry bob)])] ∧
  members "d" (step (Client no_faults sA (LeaveNote "d")) world_ab).1 =
    [("sB", presence_entry bob)].
Proof.
  assert (is_member (id sA) "d" world_ab = true) as Hm
    by (vm_compute; reflexivity).
  destruct (leave_by_member db0
              [Client no_faults sA (JoinNote "d");
               Client no_faults sB (JoinNote "d")] no_faults sA "d" Hm)
    as (H1 & H2 & _).
  split; [exact Hm|]. unfold world_ab. split.
  - rewrite H2. vm_compute. reflexivity.
  - rewrite H1. vm_compute. reflexivity.
Defined.

Section round_trip.
Import JsMap JsMapFacts.

Lemma leave_after_join sid r e p :
  registry_wf p →
  has sid (default empty (get r p)) = false →
  presence_after_leave sid r (presence_after_join sid r e p) = p.
Proof.
  intros [_ Hrooms]%registry_wf_get Hm.
  assert (sid ∉ keys (default empty (get r p))) as Hk.
  { apply get_None_keys. by apply has_false. }
  unfold presence_after_leave. rewrite get_after_join, decide_True by done.
  rewrite delete_set_absent by done.
  unfold presence_after_join, has.
  destruct (get r p) as [room|] eqn:E; simpl in *.
  - destruct (Hrooms r room E) as [_ Hne].
    rewrite decide_False.
    2: { unfold size. intros Hz. by apply length_zero_iff_nil in Hz. }
    rewrite mutate_mutate. apply mutate_id. intros v Hv. simpl.
    assert (v = room) as -> by congruence. by apply delete_set_absent.
  - rewrite delete_mutate. apply delete_set_absent.
    by apply get_None_keys.
Qed.

Lemma leave_absent sid r p :
  registry_wf p →
  has sid (default empty (get r p)) = false →
  presence_after_leave sid r p = p.
Proof.
  intros [_ Hrooms]%registry_wf_get Hm. unfold presence_after_leave.
  destruct (get r p) as [room|] eqn:E; simpl in *; [|done].
  destruct (Hrooms r room E) as [_ Hne].
  assert (delete sid room = room) as ->.
  { apply delete_absent, get_None_keys. by apply has_false. }
  rewrite decide_False.
  2: { unfold size. intros Hz. by apply length_zero_iff_nil in Hz. }
  apply mutate_id. intros v Hv. assert (v = room) as -> by congruence.
  apply delete_absent, get_None_keys. by apply has_false.
Qed.

End round_trip.

(** The block of a join and a leave, in both orders.  Take a session that
    is not in room [r], and a [join-note] of it whose lookup found the
    note.  If its [leave-note] is handled after the block of the join has
    run, the registry is put back as it was (a room created by the block is
    deleted again, an existing room gets its old entries back in their
    order) and every Socket.IO room has the sockets it had.  If the
    [leave-note] is handled while the lookup is pending, before the block,
    it finds nothing to remove, and the block then writes the entry of the
    session: the leave is lost. *)
Theorem leave_restores_after_the_block attached flt socket u r n w :
  let block := join_note_block attached socket u r (Some n) in
  let leave := Client flt socket (LeaveNote r) in
  registry_wf (roomPresence w) →
  is_member (id socket) r w = false →
  id socket ∉ sockets_in r w →
  (let w2 := (step leave (final (block w))).1 in
   roomPresence w2 = roomPresence w ∧
   (∀ r', sockets_in r' w2 = sockets_in r' w) ∧
   notes w2 = notes w) ∧
  (let w1 := (step leave w).1 in
   let w2 := final (block w1) in
   roomPresence w1 = roomPresence w ∧
   JsMap.get (id socket) (members r w2) = Some (presence_entry u) ∧
   roomPresence w2 ≠ roomPresence w).
Proof.
  intros block leave Hwf Hm Hs. unfold block, leave. split.
  - rewrite join_note_block_found, step_leave. cbn [fst snd final].
    split; [|split].
    + simpl. by apply leave_after_join.
    + intros r'. rewrite sockets_in_world_after_leave, sockets_in_after_block.
      destruct (decide (r = r')) as [<-|Hne].
      * apply set_eq. intros x. rewrite elem_of_difference, elem_of_singleton.
        destruct attached.
        -- rewrite decide_True by done.
           rewrite elem_of_union, elem_of_singleton.
           split; [tauto|]. intros Hx. split; [tauto|]. by intros ->.
        -- rewrite decide_False by (by intros [? _]).
           split; [tauto|]. intros Hx. split; [done|]. by intros ->.
      * rewrite decide_False; [done | tauto].
    + done.
  - rewrite step_leave. cbn [fst snd]. rewrite join_note_block_found.
    cbn [final fst snd].
    assert (roomPresence (world_after_leave (id socket) r w) = roomPresence w)
      as Hp by (simpl; by apply leave_absent).
    split; [exact Hp|].
    assert (JsMap.get (id socket)
              (members r (world_after_block attached (id socket) r
                            (presence_entry u)
                            (world_after_leave (id socket) r w))) =
            Some (presence_entry u)) as Hg.
    { rewrite members_after_block, decide_True by done.
      apply JsMapFacts.get_set_eq. }
    split; [exact Hg|].
    intros Heq. unfold members in Hg. rewrite Heq in Hg.
    unfold is_member, members, JsMap.has in Hm. by rewrite Hg in Hm.
Qed.

Lemma leave_restores_after_the_block_witness :
  registry_wf (roomPresence world_a) ∧
  is_member (id sB) "d" world_a = false ∧
  (id sB ∉ sockets_in "d" world_a) ∧
  roomPresence
    (step (Client no_faults sB (LeaveNote "d"))
       (final (join_note_block true sB bob "d" (Some noteD) world_a))).1 =
  roomPresence world_a ∧
  JsMap.get "sB"
    (members "d"
       (final (join_note_block true sB bob "d" (Some noteD)
                 (step (Client no_faults sB (LeaveNote "d")) world_a).1))) =
  Some (presence_entry bob).
Proof.
  assert (registry_wf (roomPresence world_a)) as Hwf.
  { split; [vm_compute; repeat constructor; set_solver|].
    vm_compute. repeat constructor; [set_solver | done]. }
  assert (is_member (id sB) "d" world_a = false) as Hm
    by (vm_compute; reflexivity).
  assert (id sB ∉ sockets_in "d" world_a) as Hs.
  { assert (sockets_in "d" world_a = {["sA"]}) as ->
      by (vm_compute; reflexivity).
    intros H%elem_of_singleton. discriminate. }
  destruct (leave_restores_after_the_block true no_faults sB bob "d" noteD
              world_a Hwf Hm Hs) as ((H1 & _) & (_ & H2 & _)).
  split; [exact Hwf|]. split; [exact Hm|]. split; [exact Hs|].
  split; [exact H1 | exact H2].
Defined.

Section disconnect_facts.
Import JsMap JsMapFacts.

Lemma sockets_in_leave_all_eq sid r w :
  sockets_in r (world_after_leave_all sid w) = sockets_in r w ∖ {[sid]}.
Proof.
  apply set_eq. intros x.
  rewrite sockets_in_leave_all, elem_of_difference, elem_of_singleton. done.
Qed.

Lemma leave_each_members_eq socket rs w r :
  NoDup rs →
  members r (final (leave_each socket rs w)) =
    if decide (r ∈ rs) then delete (id socket) (members r w)
    else members r w.
Proof.
  revert w. induction rs as [|r0 rs IH]; intros w Hnd.
  - rewrite decide_False; [done | by intros ?%elem_of_nil].
  - apply NoDup_cons in Hnd as [Hr0 Hnd].
    rewrite leave_each_final_cons, IH, members_after_leave_delete by done.
    destruct (decide (r0 = r)) as [->|Hne].
    + rewrite decide_False by done.
      rewrite decide_True; [done | apply list_elem_of_here].
    + destruct (decide (r ∈ rs)) as [Hin|Hnin].
      * rewrite decide_True; [done | by apply list_elem_of_further].
      * rewrite decide_False; [done|].
        rewrite elem_of_cons. intros [->|?]; done.
Qed.

Lemma emitted_by_leave_ext sid r w1 w2 :
  get r (roomPresence w1) = get r (roomPresence w2) →
  sockets_in r w1 = sockets_in r w2 →
  emitted_by_leave sid r w1 = emitted_by_leave sid r w2.
Proof. unfold emitted_by_leave. by intros -> ->. Qed.

Lemma leave_each_emitted socket rs w :
  NoDup rs →
  emitted (leave_each socket rs w) =
    mjoin ((λ r, emitted_by_leave (id socket) r w) <$> rs).
Proof.
  revert w. induction rs as [|r0 rs IH]; intros w Hnd; [done|].
  apply NoDup_cons in Hnd as [Hr0 Hnd].
  rewrite leave_each_emitted_cons, IH by done.
  rewrite fmap_cons. simpl. f_equal. f_equal.
  apply list_fmap_ext. intros i r Hr.
  assert (r0 ≠ r) as Hne.
  { intros ->. apply Hr0. by eapply list_elem_of_lookup_2. }
  apply emitted_by_leave_ext.
  - simpl. rewrite get_after_leave. by rewrite decide_False.
  - rewrite sockets_in_world_after_leave. by rewrite decide_False.
Qed.

Lemma emitted_by_leave_announcement sid r w :
  emitted_by_leave sid r (world_after_leave_all sid w) =
    leave_announcement sid r w (delete sid (members r w)).
Proof.
  unfold emitted_by_leave, leave_announcement, members.
  rewrite sockets_in_leave_all_eq. simpl.
  destruct (get r (roomPresence w)) as [room|]; simpl; [|done].
  destruct (delete sid room) as [|kv l]; simpl; [done|].
  do 2 f_equal. apply set_eq. intros x.
  rewrite !elem_of_difference. tauto.
Qed.

Lemma delete_non_member sid r w :
  is_member sid r w = false → delete sid (members r w) = members r w.
Proof. intros H%is_member_false_keys. by apply delete_absent. Qed.

End disconnect_facts.

(** A [disconnect] takes the session's entry out of every room and keeps
    the other entries in their order.  For each room the session was in, in
    registry order, the sessions that remain get one [presence-update] with
    the remaining entries; a room where it was alone is deleted in silence.
    The disconnected socket receives none of this, and the store is not
    written. *)
Theorem disconnect_announces_each_room db tr flt socket :
  let w := exec tr (initial db) in
  let res := step (Client flt socket Disconnect) w in
  res.2 =
    mjoin ((λ r, leave_announcement (id socket) r w
                    (JsMap.delete (id socket) (members r w)))
              <$> rooms_with (id socket) w) ∧
  (∀ r, members r res.1 = JsMap.delete (id socket) (members r w)) ∧
  (∀ r, JsMap.has r (roomPresence res.1) = true ↔
        JsMap.delete (id socket) (members r w) ≠ []) ∧
  (∀ e, e ∈ res.2 → ¬ delivered (id socket) e) ∧
  notes res.1 = notes w.
Proof.
  intros w res. subst res.
  pose proof (reachable_consistent db tr) as Hc. fold w in Hc.
  pose proof Hc as [[Hwf Hall] Hsync].
  rewrite step_disconnect by done. cbn [fst snd].
  pose proof (rooms_with_NoDup (id socket) w Hwf) as Hnd.
  assert (∀ r, members r (final (leave_each socket (rooms_with (id socket) w)
                                   (world_after_leave_all (id socket) w))) =
               JsMap.delete (id socket) (members r w)) as Hmem.
  { intros r. rewrite leave_each_members_eq by done.
    change (members r (world_after_leave_all (id socket) w))
      with (members r w).
    case_decide as Hin; [done|].
    rewrite elem_of_rooms_with in Hin. apply not_true_is_false in Hin.
    symmetry. by apply delete_non_member. }
  split; [|split; [|split; [|split]]].
  - rewrite leave_each_emitted by done. f_equal.
    apply list_fmap_ext. intros i r _. apply emitted_by_leave_announcement.
  - exact Hmem.
  - intros r. rewrite <- Hmem.
    assert (consistent (step (Client flt socket Disconnect) w).1) as [Hwf' _]
      by apply step_consistent, Hc.
    rewrite step_disconnect in Hwf' by done. cbn [fst] in Hwf'.
    apply registry_wf_get in Hwf' as [_ Hrooms].
    unfold JsMap.has, members.
    destruct (JsMap.get r _) as [room|] eqn:E; simpl.
    + split; [intros _; by apply (Hrooms r) | done].
    + split; [done | by intros H].
  - rewrite leave_each_emitted by done. intros e He.
    apply list_elem_of_join in He as (l & He & Hl).
    apply list_elem_of_fmap in Hl as (r & -> & _).
    rewrite emitted_by_leave_announcement in He.
    unfold leave_announcement in He.
    destruct (JsMap.delete (id socket) (members r w)) as [|kv l];
      [by apply elem_of_nil in He|].
    apply list_elem_of_singleton in He as ->. simpl.
    rewrite elem_of_difference, elem_of_singleton. tauto.
  - by rewrite leave_each_notes.
Qed.

(** A [disconnect] of a session that is in no room (it never joined, it
    left everything, or it has disconnected before) sends nothing and
    leaves the registry and every Socket.IO room as they are. *)
Theorem disconnect_without_rooms db tr flt socket :
  let w := exec tr (initial db) in
  (∀ r, is_member (id socket) r w = false) →
  let res := step (Client flt socket Disconnect) w in
  res.2 = [] ∧
  roomPresence res.1 = roomPresence w ∧
  (∀ r, sockets_in r res.1 = sockets_in r w) ∧
  notes res.1 = notes w.
Proof.
  intros w Hno res. subst res.
  pose proof (reachable_consistent db tr) as [[Hwf Hall] Hsync].
  fold w in Hwf, Hall, Hsync.
  rewrite step_disconnect by done. cbn [fst snd].
  assert (rooms_with (id socket) w = []) as ->.
  { unfold rooms_with. induction (JsMap.keys (roomPresence w)) as [|r0 l IH];
      [done|].
    rewrite filter_cons_False by (by rewrite Hno). exact IH. }
  cbn [leave_each]. unfold hret, final, emitted. cbn [fst snd].
  split; [done|]. split; [done|]. split; [|done].
  intros r. rewrite sockets_in_leave_all_eq.
  assert (id socket ∉ sockets_in r w) as Hs
    by (rewrite (Hsync r), Hno; done).
  apply set_eq. intros x. rewrite elem_of_difference, elem_of_singleton.
  split; [tauto|]. intros Hx. split; [done|]. by intros ->.
Qed.

Lemma disconnect_without_rooms_witness :
  (∀ r, is_member (id sB) r world_a = false) ∧
  (step (Client no_faults sB Disconnect) world_a).2 = [] ∧
  roomPresence (step (Client no_faults sB Disconnect) world_a).1 =
    roomPresence world_a.
Proof.
  assert (∀ r, is_member (id sB) r world_a = false) as Hno.
  { intros r. unfold is_member, members.
    change (roomPresence world_a) with [("d", [("sA", presence_entry alice)])].
    simpl. by case_decide. }
  destruct (disconnect_without_rooms db0 [Client no_faults sA (JoinNote "d")]
              no_faults sB Hno) as (H1 & H2 & _).
  split; [exact Hno|]. split; [exact H1 | exact H2].
Defined.

(** Disconnecting twice is disconnecting once: the second [disconnect] of a
    session sends nothing and changes neither the registry nor the Socket.IO
    rooms. *)
Theorem disconnect_twice db tr flt1 flt2 socket :
  let w := exec tr (initial db) in
  let w1 := (step (Client flt1 socket Disconnect) w).1 in
  let res := step (Client flt2 socket Disconnect) w1 in
  res.2 = [] ∧
  roomPresence res.1 = roomPresence w1 ∧
  (∀ r, sockets_in r res.1 = sockets_in r w1).
Proof.
  intros w w1 res.
  assert (w1 = exec (tr ++ [Client flt1 socket Disconnect]) (initial db))
    as Hw1 by (by rewrite exec_snoc).
  assert (∀ r, is_member (id socket) r w1 = false) as Hno.
  { intros r. apply not_true_is_false. unfold w1.
    destruct (reachable_consistent db tr) as [[Hwf _] _].
    rewrite step_disconnect by done. cbn [fst].
    rewrite is_member_after_disconnect. tauto. }
  rewrite Hw1 in Hno. subst res. rewrite Hw1.
  destruct (disconnect_without_rooms db (tr ++ [Client flt1 socket Disconnect])
              flt2 socket Hno) as (H1 & H2 & H3 & _).
  done.
Qed.

Section store_frame.

Lemma step_notes_registry_events flt socket ev w :
  JsMap.wf (roomPresence w) →
  (∀ data, ev ≠ NoteUpdate data) →
  notes (step (Client flt socket ev) w).1 = notes w.
Proof.
  intros Hwf Hev. destruct ev as [r|r|data|].
  - destruct (join_accepted flt socket r w) eqn:Ha.
    + destruct (join_accepted_user _ _ _ _ Ha) as [u Hu].
      by rewrite (step_join_accepted _ _ u).
    + by destruct (step_join_refused _ _ _ _ Ha) as [-> _].
  - by rewrite step_leave.
  - by destruct (Hev data).
  - rewrite step_disconnect by done. cbn [fst]. by rewrite leave_each_notes.
Qed.

Lemma step_update_cases flt socket data w :
  step (Client flt socket (NoteUpdate data)) w = (w, []) ∨
  (∃ msg, step (Client flt socket (NoteUpdate data)) w =
            (w, [EmitSocket (id socket) "error" (error_payload msg)]) ∧
          (msg = "Note not found" ∨
           msg = "Only the owner can edit this note")) ∨
  (∃ u n, user socket = Some u ∧ found flt w (um_noteId data) n ∧
          ownerId n = userId u ∧ write_resolves flt w data ∧
          step (Client flt socket (NoteUpdate data)) w =
            (set_notes
               (<[um_noteId data :=
                    apply_update {| ud_content := um_content data;
                                    ud_title := um_title data |} n]>
                  (notes w)) w,
             [EmitRoom (um_noteId data) (sockets_in (um_noteId data) w)
                "note-updated" (note_updated_payload data u)])).
Proof.
  unfold step, dispatch. destruct (user socket) as [u|] eqn:Hu.
  2: { left. unfold on_note_update. by rewrite Hu. }
  destruct (find_rejects flt) eqn:Hf.
  { left. by rewrite (on_note_update_find_rejects _ _ u). }
  destruct (notes w !! um_noteId data) as [n|] eqn:Hn.
  2: { right. left. exists "Note not found".
       rewrite (on_note_update_no_note _ _ u) by done. auto. }
  destruct (decide (ownerId n = userId u)) as [Hown|Hown].
  - rewrite (on_note_update_owner _ _ u _ n) by done.
    destruct (update_rejects flt) eqn:Hw; [by left|].
    right. right. exists u, n. split; [done|].
    split; [by apply found_iff|]. split; [done|].
    split; [by apply (write_resolves_iff _ _ _ n)|]. done.
  - right. left. exists "Only the owner can edit this note".
    rewrite (on_note_update_not_owner _ _ u _ n) by done. auto.
Qed.

End store_frame.

(** No socket event writes a note unless it is a [note-update] from a
    socket whose user owns that note.  Whatever a client sends, the store
    after its event is the store before, or the event is an owner's update
    whose lookup and write resolved and exactly that note's row was
    rewritten; and no socket event creates or deletes a note or changes a
    note's owner. *)
Theorem only_the_owner_writes db tr flt socket ev :
  let w := exec tr (initial db) in
  let res := step (Client flt socket ev) w in
  (notes res.1 = notes w ∨
   ∃ data u n,
     ev = NoteUpdate data ∧ user socket = Some u ∧
     found flt w (um_noteId data) n ∧ ownerId n = userId u ∧
     write_resolves flt w data ∧
     notes res.1 =
       <[um_noteId data :=
           {| ownerId := ownerId n;
              title := default (title n) (um_title data);
              content := um_content data |}]> (notes w)) ∧
  (∀ noteId, ownerId <$> notes res.1 !! noteId =
             ownerId <$> notes w !! noteId).
Proof.
  intros w res. subst res.
  destruct (reachable_consistent db tr) as [[Hwf _] _]. fold w in Hwf.
  assert ((∃ data, ev = NoteUpdate data) ∨ ∀ data, ev ≠ NoteUpdate data)
    as [[data ->]|Hno] by (destruct ev; eauto).
  - destruct (step_update_cases flt socket data w)
      as [->|[(msg & -> & _)|(u & n & Hu & Hf & Hown & Hw & ->)]].
    + by split; [left|].
    + by split; [left|].
    + cbn [fst]. split.
      * right. by exists data, u, n.
      * intros noteId. simpl. rewrite lookup_insert.
        apply found_iff in Hf as [_ Hn]. case_decide; [subst|done].
        by rewrite Hn.
  - rewrite step_notes_registry_events by done. by split; [left|].
Qed.

(** Last write wins.  Two [note-update]s of the same note by its owner
    (from one socket or from two), one after the other, both persisted:
    the stored content is that of the second; the title is the second's if
    it carries one, else the first's if it carries one, else the old one;
    the owner and all other notes are as before. *)
Theorem last_write_wins flt1 flt2 s1 s2 u1 u2 d1 d2 n n1 w :
  let w1 := (step (Client flt1 s1 (NoteUpdate d1)) w).1 in
  let w2 := (step (Client flt2 s2 (NoteUpdate d2)) w1).1 in
  um_noteId d2 = um_noteId d1 →
  user s1 = Some u1 → user s2 = Some u2 →
  found flt1 w (um_noteId d1) n → ownerId n = userId u1 →
  write_resolves flt1 w d1 →
  found flt2 w1 (um_noteId d2) n1 → ownerId n1 = userId u2 →
  write_resolves flt2 w1 d2 →
  notes w2 !! um_noteId d1 =
    Some {| ownerId := ownerId n;
            title := default (default (title n) (um_title d1)) (um_title d2);
            content := um_content d2 |} ∧
  (∀ noteId, noteId ≠ um_noteId d1 → notes w2 !! noteId = notes w !! noteId).
Proof.
  intros w1 w2 Hid Hu1 Hu2 Hf1 Hown1 Hw1 Hf2 Hown2 Hw2.
  pose proof Hf1 as [Hfr1 Hn1]%found_iff.
  pose proof Hf2 as [Hfr2 Hn2]%found_iff.
  apply (write_resolves_iff _ _ _ n Hn1) in Hw1.
  apply (write_resolves_iff _ _ _ n1 Hn2) in Hw2.
  assert (notes w1 =
          <[um_noteId d1 :=
              apply_update {| ud_content := um_content d1;
                              ud_title := um_title d1 |} n]> (notes w))
    as Hw1n.
  { unfold w1, step, dispatch.
    rewrite (on_note_update_owner _ _ u1 _ n) by done. by rewrite Hw1. }
  assert (n1 = apply_update {| ud_content := um_content d1;
                               ud_title := um_title d1 |} n) as Hn1'.
  { rewrite Hid, Hw1n, lookup_insert_eq in Hn2. congruence. }
  assert (notes w2 =
          <[um_noteId d2 :=
              apply_update {| ud_content := um_content d2;
                              ud_title := um_title d2 |} n1]> (notes w1))
    as Hw2n.
  { unfold w2, step, dispatch.
    rewrite (on_note_update_owner _ _ u2 _ n1) by done. by rewrite Hw2. }
  rewrite Hw2n, Hw1n, Hid, Hn1'. split.
  - by rewrite lookup_insert_eq.
  - intros noteId Hne. by rewrite !lookup_insert_ne.
Qed.

Lemma last_write_wins_witness :
  notes
    (step (Client no_faults sA'
             (NoteUpdate {| um_noteId := "d"; um_content := "second";
                            um_title := None |}))
       (step (Client no_faults sA
                (NoteUpdate {| um_noteId := "d"; um_content := "first";
                               um_title := Some "New" |})) world_aa).1).1
    !! "d" =
  Some {| ownerId := "uA"; title := "New"; content := "second" |}.
Proof.
  set (d1 := {| um_noteId := "d"; um_content := "first";
                um_title := Some "New" |}).
  set (d2 := {| um_noteId := "d"; um_content := "second";
                um_title := None |}).
  set (w1 := (step (Client no_faults sA (NoteUpdate d1)) world_aa).1).
  assert (found no_faults world_aa (um_noteId d1) noteD) as Hf1
    by (vm_compute; reflexivity).
  assert (write_resolves no_faults world_aa d1) as Hw1
    by (vm_compute; reflexivity).
  assert (found no_faults w1 (um_noteId d2)
            {| ownerId := "uA"; title := "New"; content := "first" |}) as Hf2
    by (vm_compute; reflexivity).
  assert (write_resolves no_faults w1 d2) as Hw2
    by (vm_compute; reflexivity).
  destruct (last_write_wins no_faults no_faults sA sA' alice alice d1 d2
              noteD _ world_aa eq_refl eq_refl eq_refl Hf1 eq_refl Hw1
              Hf2 eq_refl Hw2) as [H _].
  exact H.
Defined.

(** What the server sends.  Every direct emission is an [error] to the
    socket whose event is being handled, with one of the two messages of
    the source; every room broadcast is a [presence-update] or a
    [note-updated], addressed to the sockets of the room at that time.
    [join-note] and [leave-note] send at most one event, [note-update]
    exactly one unless a store call rejects. *)
Theorem emission_discipline db tr flt socket ev e :
  let w := exec tr (initial db) in
  let res := step (Client flt socket ev) w in
  e ∈ res.2 →
  match e with
  | EmitSocket sid event payload =>
      sid = id socket ∧ event = "error" ∧
      (payload = error_payload "Note not found" ∨
       payload = error_payload "Only the owner can edit this note") ∧
      (∀ r, ev ≠ LeaveNote r) ∧ ev ≠ Disconnect
  | EmitRoom r recipients event payload =>
      (event = "presence-update" ∧ recipients = sockets_in r res.1 ∧
       ∀ data, ev ≠ NoteUpdate data) ∨
      (event = "note-updated" ∧ recipients = sockets_in r w ∧
       ∃ data, ev = NoteUpdate data ∧ r = um_noteId data)
  end.
Proof.
  intros w res He. subst res.
  pose proof (reachable_consistent db tr) as Hc. fold w in Hc.
  destruct ev as [r|r|data|].
  - destruct (join_accepted flt socket r w) eqn:Ha.
    + pose proof (step_snapshots _ _ e Hc He) as Hsn.
      destruct (join_accepted_user _ _ _ _ Ha) as [u Hu].
      rewrite (step_join_accepted _ _ u) in He, Hsn by done.
      apply list_elem_of_singleton in He as ->.
      destruct (Hsn eq_refl) as [r' [= <- Hr]].
      left. rewrite (step_join_accepted _ _ u) by done.
      split; [done|]. split; [done|]. done.
    + destruct (step_join_refused _ _ _ _ Ha) as [_ Herr].
      apply Herr in He as ->. repeat split; try done. by left.
  - pose proof (step_snapshots _ _ e Hc He) as Hsn.
    rewrite step_leave in He. cbn [snd] in He.
    apply emitted_by_leave_snapshot in He as [He _].
    rewrite He. left. rewrite step_leave. by split; [|split].
  - destruct (step_update_cases flt socket data w)
      as [Hs|[(msg & Hs & Hmsg)|(u & n & Hu & Hf & Hown & Hw & Hs)]];
      rewrite Hs in He; cbn [snd] in He.
    + by apply elem_of_nil in He.
    + apply list_elem_of_singleton in He as ->.
      repeat split; try done. destruct Hmsg as [->| ->]; [by left | by right].
    + apply list_elem_of_singleton in He as ->.
      right. split; [done|]. split; [done|]. by exists data.
  - pose proof Hc as [[Hwf _] _].
    rewrite step_disconnect in He |- * by done. cbn [fst snd] in *.
    apply leave_each_snapshots in He as [_ (r & _ & ->)];
      [|by apply rooms_with_NoDup].
    left. by split; [|split].
Qed.

Lemma emission_discipline_witness :
  EmitSocket "sB" "error"
    (error_payload "Only the owner can edit this note")
    ∈ (step (Client no_faults sB (NoteUpdate msgX)) world_ab).2 ∧
  "sB" = id sB.
Proof.
  assert (EmitSocket "sB" "error"
            (error_payload "Only the owner can edit this note")
            ∈ (step (Client no_faults sB (NoteUpdate msgX))
                 (exec [Client no_faults sA (JoinNote "d");
                        Client no_faults sB (JoinNote "d")] (initial db0))).2)
    as He by (apply list_elem_of_singleton; vm_compute; reflexivity).
  split; [exact He|].
  exact (proj1 (emission_discipline db0 _ no_faults sB (NoteUpdate msgX) _ He)).
Defined.

Section other_sessions.
Import JsMap JsMapFacts.

Lemma roomPresence_members_ext w1 w2 r :
  roomPresence w1 = roomPresence w2 → members r w1 = members r w2.
Proof. unfold members. by intros ->. Qed.

End other_sessions.

(** An event of one session never adds, removes or rewrites the presence
    entry of another session, in any room, and never moves another socket
    into or out of a Socket.IO room. *)
Theorem other_sessions_are_untouched db tr flt socket ev sid r :
  let w := exec tr (initial db) in
  let res := step (Client flt socket ev) w in
  sid ≠ id socket →
  JsMap.get sid (members r res.1) = JsMap.get sid (members r w) ∧
  (sid ∈ sockets_in r res.1 ↔ sid ∈ sockets_in r w).
Proof.
  intros w res Hne. subst res.
  pose proof (reachable_consistent db tr) as Hc. fold w in Hc.
  assert (JsMap.get sid (members r (step (Client flt socket ev) w).1) =
          JsMap.get sid (members r w)) as Hg.
  { destruct ev as [r0|r0|data|].
    - destruct (join_accepted flt socket r0 w) eqn:Ha.
      + destruct (join_accepted_user _ _ _ _ Ha) as [u Hu].
        rewrite (step_join_accepted _ _ u) by done. cbn [fst].
        rewrite members_after_join. case_decide; [subst r0|done].
        by apply JsMapFacts.get_set_ne.
      + by destruct (step_join_refused _ _ _ _ Ha) as [-> _].
    - rewrite step_leave. cbn [fst]. rewrite members_after_leave_delete.
      case_decide; [subst r0|done]. by apply JsMapFacts.get_delete_ne.
    - destruct (on_note_update_frame flt socket data w) as (Hp & _ & _).
      unfold step, dispatch. cbn [fst].
      by rewrite (roomPresence_members_ext _ w).
    - pose proof Hc as [[Hwf _] _]. rewrite step_disconnect by done.
      cbn [fst]. rewrite leave_each_members_eq by (by apply rooms_with_NoDup).
      change (members r (world_after_leave_all (id socket) w))
        with (members r w).
      case_decide; [|done]. by apply JsMapFacts.get_delete_ne. }
  split; [done|].
  assert (consistent (step (Client flt socket ev) w).1) as [_ Hs']
    by apply step_consistent, Hc.
  destruct Hc as [_ Hs]. rewrite (Hs' r sid), (Hs r sid).
  unfold is_member, JsMap.has. by rewrite Hg.
Qed.

Lemma other_sessions_are_untouched_witness :
  "sB" ≠ id sA ∧
  JsMap.get "sB" (members "d" (step (Client no_faults sA Disconnect)
                                 world_ab).1) =
    Some (presence_entry bob).
Proof.
  assert ("sB" ≠ id sA) as Hne by discriminate.
  destruct (other_sessions_are_untouched db0
              [Client no_faults sA (JoinNote "d");
               Client no_faults sB (JoinNote "d")]
              no_faults sA Disconnect "sB" "d" Hne) as [H _].
  split; [exact Hne|]. unfold world_ab. rewrite H. vm_compute. reflexivity.
Defined.

(** A handler that fails has done nothing, and there are two ways to
    fail.  If the handler of what a socket sent rejects, the sender is
    authenticated, the world is unchanged, nothing was sent, and either a
    store call rejected (the lookup of a [join-note], the lookup or the
    write of a [note-update]) or the socket sent [note-update] without its
    argument, which throws at the destructuring before any store call.
    [leave-note] and [disconnect] never fail.  For an authenticated socket
    a [note-update] without argument always fails. *)
Theorem a_failed_handler_has_done_nothing flt socket rv w :
  JsMap.wf (roomPresence w) →
  completion (receive flt socket rv w) = Rejected →
  final (receive flt socket rv w) = w ∧
  emitted (receive flt socket rv w) = [] ∧
  is_Some (user socket) ∧
  (rv = NoteUpdateWithoutData ∨
   (∃ r, rv = Sent (JoinNote r) ∧ find_rejects flt = true) ∨
   (∃ data, rv = Sent (NoteUpdate data) ∧
            (find_rejects flt = true ∨ write_rejects flt w data))) ∧
  receive flt socket NoteUpdateWithoutData w = (Rejected, w, []).
Proof.
  intros Hwf Hrej.
  assert (is_Some (user socket) →
          receive flt socket NoteUpdateWithoutData w = (Rejected, w, []))
    as Hnodata.
  { intros [u Hu]. unfold receive, on_note_update_received. by rewrite Hu. }
  cut (final (receive flt socket rv w) = w ∧
       emitted (receive flt socket rv w) = [] ∧
       is_Some (user socket) ∧
       (rv = NoteUpdateWithoutData ∨
        (∃ r, rv = Sent (JoinNote r) ∧ find_rejects flt = true) ∨
        (∃ data, rv = Sent (NoteUpdate data) ∧
                 (find_rejects flt = true ∨ write_rejects flt w data)))).
  { intros (H1 & H2 & H3 & H4). do 4 (split; [done|]). by apply Hnodata. }
  revert Hrej. destruct rv as [[r|r|data|]|]; unfold receive.
  - unfold dispatch. destruct (join_accepted flt socket r w) eqn:Ha.
    + destruct (join_accepted_user _ _ _ _ Ha) as [u Hu].
      by rewrite (on_join_note_accepted _ _ u).
    + unfold join_accepted in Ha. unfold on_join_note.
      destruct (user socket) as [u|]; [|done].
      unfold prisma_note_findUnique.
      destruct (find_rejects flt) eqn:Hf; simpl in *.
      * intros _. repeat split; eauto.
      * apply bool_decide_eq_false in Ha.
        unfold hbind, get_world, hret, socket_emit, emit. simpl.
        destruct (notes w !! r) as [n|]; [exfalso; eauto | done].
  - unfold dispatch, on_leave_note. by rewrite handleLeaveNote_run.
  - unfold dispatch. destruct (user socket) as [u|] eqn:Hu.
    2: { unfold on_note_update. by rewrite Hu. }
    destruct (find_rejects flt) eqn:Hf.
    { rewrite (on_note_update_find_rejects _ _ u) by done. intros _.
      repeat split; eauto 6. }
    destruct (notes w !! um_noteId data) as [n|] eqn:Hn.
    2: { by rewrite (on_note_update_no_note _ _ u). }
    destruct (decide (ownerId n = userId u)) as [Hown|Hown].
    + rewrite (on_note_update_owner _ _ u _ n) by done.
      destruct (update_rejects flt) eqn:Hw; [|done]. intros _.
      repeat split; eauto. right. right. exists data. split; [done|]. right.
      by apply (write_rejects_iff _ _ _ n).
    + by rewrite (on_note_update_not_owner _ _ u _ n).
  - rewrite dispatch_disconnect by done. by rewrite leave_each_resolves.
  - unfold on_note_update_received.
    destruct (user socket) as [u|]; [|done]. intros _.
    repeat split; eauto.
Qed.

(** Bob's socket sends [note-update] with nothing. *)
Lemma a_failed_handler_has_done_nothing_witness :
  JsMap.wf (roomPresence world_ab) ∧
  completion (receive no_faults sB NoteUpdateWithoutData world_ab) = Rejected ∧
  final (receive no_faults sB NoteUpdateWithoutData world_ab) = world_ab ∧
  emitted (receive no_faults sB NoteUpdateWithoutData world_ab) = [].
Proof.
  assert (JsMap.wf (roomPresence world_ab)) as Hwf.
  { vm_compute. repeat constructor. set_solver. }
  assert (completion (receive no_faults sB NoteUpdateWithoutData world_ab) =
          Rejected) as H by reflexivity.
  destruct (a_failed_handler_has_done_nothing no_faults sB
              NoteUpdateWithoutData world_ab Hwf H) as (H1 & H2 & _).
  split; [exact Hwf|]. split; [exact H|]. split; [exact H1 | exact H2].
Defined.

(** * The authentication middleware *)

(** A connection is let in only with a non-empty string token that
    [verifyToken] accepts and whose user exists; the socket then carries the
    user id and email of the token and the name stored for that user.  Such
    a socket is never stopped by the [!socket.user] guard: its [join-note]
    for an existing note writes the entry [{odId, name, email}] of exactly
    that identity and the socket receives the [presence-update]. *)
Theorem connected_sockets_are_authenticated
    verifyToken users lookup_rejects sid token socket :
  authenticate verifyToken users lookup_rejects sid token = Connected socket →
  ∃ t payload row,
    token = TokenString t ∧ t ≠ "" ∧
    verifyToken t = Some payload ∧
    lookup_rejects = false ∧
    users !! jp_userId payload = Some row ∧
    id socket = sid ∧
    user socket = Some {| userId := jp_userId payload;
                          email := jp_email payload;
                          name := ur_name row |} ∧
    ∀ db tr flt r n,
      let w := exec tr (initial db) in
      found flt w r n →
      let res := step (Client flt socket (JoinNote r)) w in
      JsMap.get sid (members r res.1) =
        Some {| odId := jp_userId payload; pname := ur_name row;
                pemail := jp_email payload |} ∧
      ∃ e, res.2 = [e] ∧ event_of e = "presence-update" ∧ delivered sid e.
Proof.
  unfold authenticate. destruct (token_is_falsy token) eqn:Hfalsy; [done|].
  destruct token as [|t|b]; simpl in *; try done.
  destruct (verifyToken t) as [payload|] eqn:Hv; [|done].
  destruct lookup_rejects; [done|].
  destruct (users !! jp_userId payload) as [row|] eqn:Hrow; [|done].
  intros [= <-]. exists t, payload, row.
  apply bool_decide_eq_false in Hfalsy.
  do 7 (split; [done|]).
  intros db tr flt r n Hf.
  set (w := exec tr (initial db)) in *.
  set (u := {| userId := jp_userId payload; email := jp_email payload;
               name := ur_name row |}).
  set (socket := {| id := sid; user := Some u |}).
  assert (join_accepted flt socket r w = true) as Ha
    by (by apply (join_accepted_found _ _ u _ n)).
  rewrite (on_join_note_accepted _ _ u) by done.
  unfold final, emitted. cbn [fst snd]. split.
  - rewrite members_after_join, decide_True by done.
    apply JsMapFacts.get_set_eq.
  - eexists. split; [done|]. split; [done|]. simpl.
    apply elem_of_union_l, elem_of_singleton. done.
Qed.

Lemma connected_sockets_are_authenticated_witness :
  authenticate verify0 users0 false "sA" (TokenString "tokA") = Connected sA ∧
  user sA = Some {| userId := "uA"; email := "alice@example.org";
                    name := "Alice" |}.
Proof.
  assert (authenticate verify0 users0 false "sA" (TokenString "tokA") =
          Connected sA) as H by (vm_compute; reflexivity).
  destruct (connected_sockets_are_authenticated _ _ _ _ _ _ H)
    as (t & payload & row & Ht & _ & Hv & _ & Hrow & _ & Hu & _).
  split; [exact H|]. reflexivity.
Defined.

(** * The presence indicator *)

Section indicator.

Lemma string_length_app (s1 s2 : string) :
  String.length (s1 +:+ s2) = String.length s1 + String.length s2.
Proof. induction s1 as [|c s1 IH]; simpl; [done | by rewrite IH]. Qed.

Lemma presence_text_just_you users uid :
  presence_text users uid = "Just you" ↔ length users = 1.
Proof.
  unfold presence_text. case_decide as Hlen; [done|].
  split; [|done]. intros H. exfalso.
  apply (f_equal String.length) in H.
  destruct (otherUsers users uid) as [|u [|u' l]];
    rewrite string_length_app in H; simpl in H; lia.
Qed.

Lemma otherUsers_none users uid :
  Forall (λ u, odId u = uid) users → otherUsers users uid = [].
Proof.
  unfold otherUsers. induction 1 as [|u l Hu _ IH]; [done|].
  rewrite filter_cons_False; [done|]. by intros H.
Qed.

End indicator.

(** "Just you" means alone.  Whenever a socket receives a
    [presence-update], the indicator shows "Just you" exactly when that
    socket's session is the only one in the room, whoever the viewer is. *)
Theorem just_you_means_alone db tr i e sid :
  let w := exec tr (initial db) in
  let res := step i w in
  e ∈ res.2 →
  event_of e = "presence-update" →
  delivered sid e →
  ∃ r, payload_of e = presence_payload (members r res.1) ∧
       ∀ uid, presence_text (JsMap.values (members r res.1)) uid = "Just you" ↔
              JsMap.keys (members r res.1) = [sid].
Proof.
  intros w res He Hev Hd.
  pose proof (reachable_consistent db tr) as Hc. fold w in Hc.
  destruct (step_snapshots i w e Hc He Hev) as [r ->]. fold res in Hd |- *.
  exists r. split; [done|]. intros uid.
  assert (consistent res.1) as [_ Hsync] by apply step_consistent, Hc.
  simpl in Hd. apply (Hsync r sid) in Hd.
  apply is_member_keys_members in Hd.
  rewrite presence_text_just_you. unfold JsMap.values, JsMap.keys in *.
  rewrite length_fmap.
  destruct (members r res.1) as [|[k v] [|kv l]]; simpl in *.
  - by apply elem_of_nil in Hd.
  - apply list_elem_of_singleton in Hd as ->. done.
  - split; [lia | done].
Qed.

Lemma just_you_means_alone_witness :
  ∃ e r, e ∈ (step (Client no_faults sA (JoinNote "d")) (initial db0)).2 ∧
         delivered "sA" e ∧
         payload_of e = presence_payload [("sA", presence_entry alice)] ∧
         r = "d".
Proof.
  set (e := EmitRoom "d" {["sA"]} "presence-update"
              (presence_payload [("sA", presence_entry alice)])).
  assert (e ∈ (step (Client no_faults sA (JoinNote "d"))
                 (exec [] (initial db0))).2) as He
    by (apply list_elem_of_singleton; vm_compute; reflexivity).
  assert (delivered "sA" e) as Hd by (simpl; set_solver).
  destruct (just_you_means_alone db0 [] _ e "sA" He eq_refl Hd) as (r & _).
  exists e, "d". split; [exact He|]. split; [exact Hd|]. split; reflexivity.
Defined.

(** Tabs count as people.  When every session in the room belongs to the
    viewer and there are two or more of them, the indicator does not say
    "Just you": it says "N people viewing", N being the number of
    sessions. *)
Theorem own_tabs_count_as_people db tr r uid :
  let w := exec tr (initial db) in
  let users := JsMap.values (members r w) in
  Forall (λ u, odId u = uid) users →
  (2 ≤ length users)%nat →
  presence_text users uid = pretty (length users) +:+ " people viewing" ∧
  length users = length (JsMap.keys (members r w)) ∧
  NoDup (JsMap.keys (members r w)).
Proof.
  intros w users Hall Hlen. split; [|split].
  - unfold presence_text. rewrite decide_False by lia.
    by rewrite otherUsers_none.
  - unfold users, JsMap.values, JsMap.keys. by rewrite !length_fmap.
  - apply members_wf.
Qed.

Lemma own_tabs_count_as_people_witness :
  presence_text (JsMap.values (members "d" world_aa)) "uA" =
    "2 people viewing".
Proof.
  assert (Forall (λ u, odId u = "uA")
            (JsMap.values
               (members "d"
                  (exec [Client no_faults sA (JoinNote "d");
                         Client no_faults sA' (JoinNote "d")] (initial db0)))))
    as Hall by (repeat constructor).
  assert (2 ≤ length
            (JsMap.values
               (members "d"
                  (exec [Client no_faults sA (JoinNote "d");
                         Client no_faults sA' (JoinNote "d")] (initial db0)))))%nat
    as Hlen by (vm_compute; lia).
  destruct (own_tabs_count_as_people db0 _ "d" "uA" Hall Hlen) as [H _].
  unfold world_aa. rewrite H. vm_compute. reflexivity.
Defined.

(** At most five avatars are drawn, the first five users of the snapshot in
    order; the [+N] badge appears exactly when there are more, and N is the
    number of users without an avatar. *)
Theorem avatars_and_badge users :
  shown_avatars users ++ drop 5 users = users ∧
  length (shown_avatars users) = length users `min` 5 ∧
  (more_badge users = None ↔ (length users ≤ 5)%nat) ∧
  (∀ badge, more_badge users = Some badge →
            badge = "+" +:+ pretty (length (drop 5 users)) ∧
            0 < length (drop 5 users)).
Proof.
  unfold shown_avatars, more_badge. split; [apply take_drop|].
  split; [by rewrite length_take; lia|]. split.
  - case_decide; split; try done; lia.
  - intros badge. case_decide; [|done]. intros [= <-].
    rewrite length_drop. split; [done | lia].
Qed.

Section colour.
Open Scope Z_scope.

Lemma to_int32_range z : - 2 ^ 31 ≤ to_int32 z < 2 ^ 31.
Proof.
  unfold to_int32.
  pose proof (Z.mod_pos_bound (z + 2 ^ 31) (2 ^ 32)). lia.
Qed.

Lemma color_hash_step_bound acc email :
  Forall (λ c, 0 ≤ c ≤ 65535) email →
  Z.abs (foldl (λ hash c, c + (shift_left_5 hash - hash)) acc email) ≤
    Z.abs acc + (2 ^ 31 + 65535) * Z.of_nat (length email).
Proof.
  intros Hall. revert acc.
  induction Hall as [|c l Hc _ IH]; intros acc; simpl foldl.
  - simpl. lia.
  - etransitivity; [apply IH|].
    pose proof (to_int32_range (to_int32 acc * 32)) as Hr.
    unfold shift_left_5. rewrite length_cons, Nat2Z.inj_succ. lia.
Qed.

End colour.

(** [getColorForUser] always returns one of the eight colours, never
    [undefined], whatever the email; and for an email of [n] code units the
    hash stays within [(2^31 + 65535) * n] in absolute value, far below
    2^53 for any real email, so the number arithmetic is exact. *)
Theorem colour_is_always_defined email :
  (∃ c, getColorForUser email = Some c ∧ c ∈ colors) ∧
  (Forall (λ c, 0 ≤ c ≤ 65535)%Z email →
   (Z.abs (color_hash email) ≤
      (2 ^ 31 + 65535) * Z.of_nat (length email))%Z).
Proof.
  split.
  - unfold getColorForUser.
    assert (Z.to_nat (Z.abs (color_hash email) `mod` Z.of_nat (length colors))
            < length colors) as Hlt.
    { pose proof (Z.mod_pos_bound (Z.abs (color_hash email))
                    (Z.of_nat (length colors))) as Hb.
      simpl length in *. lia. }
    apply lookup_lt_is_Some_2 in Hlt as [c Hc]. exists c.
    split; [done|]. by eapply list_elem_of_lookup_2.
  - intros Hall. pose proof (color_hash_step_bound 0 email Hall) as H.
    unfold color_hash. lia.
Qed.

(** * The REST routes *)

Section bearer.

Lemma js_split_nonempty sep s : js_split sep s ≠ [].
Proof.
  destruct s as [|c s]; simpl; [done|].
  case_decide; [done|]. by destruct (js_split sep s).
Qed.

Lemma js_split_no_sep sep t :
  sep ∉ String.list_ascii_of_string t → js_split sep t = [t].
Proof.
  induction t as [|c t IH]; simpl; [done|].
  rewrite not_elem_of_cons. intros [Hne Hn].
  rewrite decide_False by done. by rewrite IH.
Qed.

Lemma js_split_piece sep t rest :
  sep ∉ String.list_ascii_of_string t →
  js_split sep (t +:+ String sep rest) = t :: js_split sep rest.
Proof.
  induction t as [|c t IH]; simpl.
  - intros _. by rewrite decide_True.
  - rewrite not_elem_of_cons. intros [Hne Hn].
    rewrite decide_False by done. by rewrite IH.
Qed.

Lemma js_split_bearer x :
  js_split Ascii.Space ("Bearer " +:+ x) !! 1 = js_split Ascii.Space x !! 0.
Proof.
  change ("Bearer " +:+ x) with ("Bearer" +:+ String Ascii.Space x).
  rewrite js_split_piece; [done|]. vm_compute.
  intros H. repeat (apply elem_of_cons in H as [H|H]; [done|]).
  by apply elem_of_nil in H.
Qed.

Lemma prefix_bearer x : String.prefix "Bearer " ("Bearer " +:+ x) = true.
Proof. vm_compute. by destruct x. Qed.

Lemma bearer_not_empty x : ("Bearer " +:+ x) ≠ "".
Proof. done. Qed.

End bearer.

(** [requireAuth] looks at the text between "Bearer " and the next space
    only.  With a header "Bearer t", [t] free of spaces, the request goes
    through exactly when [verifyToken t] gives a payload, which becomes
    [req.user]; anything after a further space is ignored; a header that
    does not start with "Bearer " (wrong case, another scheme, empty) is
    refused without [verifyToken] being asked. *)
Theorem bearer_token_is_the_second_piece ec verifyToken t rest :
  Ascii.Space ∉ String.list_ascii_of_string t →
  requireAuth ec verifyToken (Some ("Bearer " +:+ t)) =
    match verifyToken t with
    | Some payload => inr payload
    | None => inl (AppError (UnauthorizedError ec) "Invalid or expired token")
    end ∧
  requireAuth ec verifyToken
      (Some ("Bearer " +:+ (t +:+ String Ascii.Space rest))) =
    requireAuth ec verifyToken (Some ("Bearer " +:+ t)) ∧
  (∀ h, String.prefix "Bearer " h = false →
        requireAuth ec verifyToken (Some h) =
          inl (AppError (UnauthorizedError ec)
                 "Missing or invalid authorization header")).
Proof.
  intros Hsp.
  assert (∀ x, requireAuth ec verifyToken (Some ("Bearer " +:+ x)) =
               match js_split Ascii.Space x !! 0 ≫= verifyToken with
               | Some payload => inr payload
               | None => inl (AppError (UnauthorizedError ec)
                                "Invalid or expired token")
               end) as Hreq.
  { intros x. unfold requireAuth.
    rewrite bool_decide_eq_false_2 by apply bearer_not_empty.
    rewrite prefix_bearer. cbn [negb orb]. by rewrite js_split_bearer. }
  split; [|split].
  - rewrite Hreq, js_split_no_sep by done. simpl.
    by destruct (verifyToken t).
  - rewrite !Hreq, js_split_piece, (js_split_no_sep _ t) by done. done.
  - intros h Hh. unfold requireAuth. rewrite Hh. cbn [negb].
    by rewrite orb_true_r.
Qed.

Lemma bearer_token_is_the_second_piece_witness :
  (Ascii.Space ∉ String.list_ascii_of_string "tokA") ∧
  (requireAuth (errors env0) verify0 (Some "Bearer tokA junk") =
     inr {| jp_userId := "uA"; jp_email := "alice@example.org" |}).
Proof.
  assert (Ascii.Space ∉ String.list_ascii_of_string "tokA") as Hsp.
  { vm_compute. intros H.
    repeat (apply elem_of_cons in H as [H|H]; [done|]).
    by apply elem_of_nil in H. }
  destruct (bearer_token_is_the_second_piece (errors env0) verify0 "tokA"
              "junk" Hsp) as (H1 & H2 & _).
  split; [exact Hsp|].
  change (Some "Bearer tokA junk")
    with (Some ("Bearer " +:+ ("tokA" +:+ String Ascii.Space "junk"))).
  rewrite H2, H1. reflexivity.
Defined.

Section rest_cases.

Lemma errorHandler_is_error err : ∃ m, body (errorHandler err) = ErrorBody m.
Proof. destruct err; simpl; eauto. Qed.

(** The ways a request can end. *)
Lemma notes_api_cases env flt authorization req db :
  let res := notes_api env flt authorization req db in
  (res.2 = db ∧ ((∃ m, body res.1 = ErrorBody m) ∨ ∃ noteId, req = GetNote noteId)) ∨
  (∃ user noteId b changes existing,
     requireAuth (errors env) (verify env) authorization = inr user ∧
     req = UpdateNote noteId b ∧ updateNoteSchema b = Some changes ∧
     lookup_rejects flt = false ∧ mutation_rejects flt = false ∧
     db !! noteId = Some existing ∧ ownerId existing = jp_userId user ∧
     res = ({| status := 200;
               body := NoteBody noteId (apply_changes changes existing) |},
            <[noteId := apply_changes changes existing]> db)) ∨
  (∃ user noteId existing,
     requireAuth (errors env) (verify env) authorization = inr user ∧
     req = DeleteNote noteId ∧
     lookup_rejects flt = false ∧ mutation_rejects flt = false ∧
     db !! noteId = Some existing ∧ ownerId existing = jp_userId user ∧
     res = ({| status := 200; body := MessageBody "Note deleted" |},
            delete noteId db)) ∨
  (∃ user b t c,
     requireAuth (errors env) (verify env) authorization = inr user ∧
     req = CreateNote b ∧ createNoteSchema (zod env) b = inr (t, c) ∧
     mutation_rejects flt = false ∧ db !! nextId env = None ∧
     res = ({| status := 201;
               body := NoteBody (nextId env)
                         {| ownerId := jp_userId user; title := t;
                            content := c |} |},
            <[nextId env := {| ownerId := jp_userId user; title := t;
                               content := c |}]> db)).
Proof.
  intros res. subst res. unfold notes_api.
  destruct (requireAuth (errors env) (verify env) authorization)
    as [err|user] eqn:Hauth.
  { left. split; [done|]. left. apply errorHandler_is_error. }
  destruct req as [noteId|b|noteId b|noteId]; unfold route.
  - left. unfold get_note. destruct (lookup_rejects flt); simpl.
    + split; [done|]. eauto.
    + destruct (db !! noteId); simpl; split; eauto.
  - unfold post_note.
    destruct (createNoteSchema (zod env) b) as [m|[t c]] eqn:Hp; simpl.
    { left. split; eauto. }
    destruct (mutation_rejects flt) eqn:Hm; simpl.
    { left. split; eauto. }
    destruct (db !! nextId env) as [n|] eqn:Hn; simpl.
    { left. split; eauto. }
    right. right. right. exists user, b, t, c. done.
  - unfold put_note. destruct (updateNoteSchema b) as [changes|] eqn:Hp; simpl.
    2: { left. split; eauto. }
    destruct (lookup_rejects flt) eqn:Hl; simpl.
    { left. split; eauto. }
    destruct (db !! noteId) as [existing|] eqn:Hn; simpl.
    2: { left. split; eauto. }
    case_decide as Hown; simpl.
    { left. split; eauto. }
    destruct (mutation_rejects flt) eqn:Hm; simpl.
    { left. split; eauto. }
    right. left. exists user, noteId, b, changes, existing.
    repeat split; try done.
    all: by destruct (decide (ownerId existing = jp_userId user)) as [|H];
      [|destruct (Hown H)].
  - unfold delete_note. destruct (lookup_rejects flt) eqn:Hl; simpl.
    { left. split; eauto. }
    destruct (db !! noteId) as [existing|] eqn:Hn; simpl.
    2: { left. split; eauto. }
    case_decide as Hown; simpl.
    { left. split; eauto. }
    destruct (mutation_rejects flt) eqn:Hm; simpl.
    { left. split; eauto. }
    right. right. left. exists user, noteId, existing.
    repeat split; try done.
    all: by destruct (decide (ownerId existing = jp_userId user)) as [|H];
      [|destruct (Hown H)].
Qed.

End rest_cases.

(** No request changes or deletes a note of somebody else.  A note stays in
    the store exactly as it is through any request for [/api/notes/...]
    unless the request carries a token that [verifyToken] resolves to the
    note's owner, whatever the route, the id and the body. *)
Theorem rest_leaves_other_peoples_notes env flt authorization req db noteId n :
  db !! noteId = Some n →
  (∀ user, requireAuth (errors env) (verify env) authorization = inr user →
           ownerId n ≠ jp_userId user) →
  (notes_api env flt authorization req db).2 !! noteId = Some n.
Proof.
  intros Hn Hother.
  destruct (notes_api_cases env flt authorization req db)
    as [[-> _]|[H|[H|H]]]; [done| | |].
  - destruct H as (user & id' & b & ch & ex & Hauth & _ & _ & _ & _ & Hex
                   & Hown & ->). cbn [snd].
    destruct (decide (id' = noteId)) as [->|Hne].
    + exfalso. apply (Hother user Hauth). congruence.
    + by rewrite lookup_insert_ne.
  - destruct H as (user & id' & ex & Hauth & _ & _ & _ & Hex & Hown & ->).
    cbn [snd]. destruct (decide (id' = noteId)) as [->|Hne].
    + exfalso. apply (Hother user Hauth). congruence.
    + by rewrite lookup_delete_ne.
  - destruct H as (user & b & t & c & Hauth & _ & _ & _ & Hfresh & ->).
    cbn [snd]. destruct (decide (nextId env = noteId)) as [Heq|Hne].
    + congruence.
    + by rewrite lookup_insert_ne.
Qed.

Lemma rest_leaves_other_peoples_notes_witness :
  db0 !! "d" = Some noteD ∧
  (notes_api env0 rest_ok (Some "Bearer tokB")
     (UpdateNote "d" (BodyObject (FieldString "mine") (FieldString "now")))
     db0).2 !! "d" = Some noteD ∧
  (notes_api env0 rest_ok (Some "Bearer tokB") (DeleteNote "d") db0).2 !! "d"
    = Some noteD.
Proof.
  assert (db0 !! "d" = Some noteD) as Hn by (vm_compute; reflexivity).
  assert (∀ user,
            requireAuth (errors env0) (verify env0) (Some "Bearer tokB") =
              inr user → ownerId noteD ≠ jp_userId user) as Hother.
  { intros user. vm_compute. intros [= <-]. discriminate. }
  split; [exact Hn|]. split.
  - exact (rest_leaves_other_peoples_notes env0 rest_ok _ _ db0 "d" noteD
             Hn Hother).
  - exact (rest_leaves_other_peoples_notes env0 rest_ok _ _ db0 "d" noteD
             Hn Hother).
Defined.

(** All or nothing.  A request answered with an error body, whatever the
    error (validation, missing token, not found, not the owner, a store
    call that rejects), has left the store as it was; and a request that
    changes the store is answered with 200 or, for a creation, 201. *)
Theorem rest_errors_change_nothing env flt authorization req db :
  let res := notes_api env flt authorization req db in
  (∀ m, body res.1 = ErrorBody m → res.2 = db) ∧
  (res.2 ≠ db → status res.1 = 200 ∨ status res.1 = 201).
Proof.
  intros res. subst res.
  destruct (notes_api_cases env flt authorization req db)
    as [[Hdb _]|[H|[H|H]]].
  - split; [done|]. intros Hne. by destruct Hne.
  - destruct H as (user & id' & b & ch & ex & _ & _ & _ & _ & _ & _ & _ & ->).
    split; [done | by left].
  - destruct H as (user & id' & ex & _ & _ & _ & _ & _ & _ & ->).
    split; [done | by left].
  - destruct H as (user & b & t & c & _ & _ & _ & _ & _ & ->).
    split; [done | by right].
Qed.

(** [PUT /api/notes/:id] by the owner changes the fields the body carries
    and no other: a body with a title only keeps the content, one with a
    content only keeps the title, and the owner never changes.  The body is
    checked first: an invalid one (a field that is not a string, an empty
    title, no object) is answered with the bad-request error whether or not
    the note exists or belongs to the caller. *)
Theorem put_is_a_partial_update env flt authorization user noteId b db :
  requireAuth (errors env) (verify env) authorization = inr user →
  let res := notes_api env flt authorization (UpdateNote noteId b) db in
  (updateNoteSchema b = None →
   res = ({| status := BadRequestError (errors env);
             body := ErrorBody (zod env b) |}, db)) ∧
  (∀ changes existing,
     updateNoteSchema b = Some changes →
     lookup_rejects flt = false → mutation_rejects flt = false →
     db !! noteId = Some existing → ownerId existing = jp_userId user →
     res.2 = <[noteId :=
                 {| ownerId := ownerId existing;
                    title := default (title existing) (nc_title changes);
                    content := default (content existing)
                                 (nc_content changes) |}]> db ∧
     status res.1 = 200 ∧
     (b = BodyObject FieldMissing FieldMissing → res.2 = db)).
Proof.
  intros Hauth res. subst res. unfold notes_api. rewrite Hauth.
  unfold route, put_note. split.
  - by intros ->.
  - intros changes existing Hp -> -> Hn Hown. rewrite Hp, Hn.
    rewrite decide_False by (intros H; by apply H). simpl.
    split; [done|]. split; [done|].
    intros ->. simpl in Hp. injection Hp as <-.
    apply insert_id. rewrite Hn. by destruct existing.
Qed.

Lemma put_is_a_partial_update_witness :
  requireAuth (errors env0) (verify env0) (Some "Bearer tokA") =
    inr {| jp_userId := "uA"; jp_email := "alice@example.org" |} ∧
  (notes_api env0 rest_ok (Some "Bearer tokA")
     (UpdateNote "d" (BodyObject (FieldString "New") FieldMissing)) db0).2
    !! "d" = Some {| ownerId := "uA"; title := "New"; content := "C" |}.
Proof.
  assert (requireAuth (errors env0) (verify env0) (Some "Bearer tokA") =
          inr {| jp_userId := "uA"; jp_email := "alice@example.org" |})
    as Hauth by (vm_compute; reflexivity).
  destruct (put_is_a_partial_update env0 rest_ok _ _ "d"
              (BodyObject (FieldString "New") FieldMissing) db0 Hauth)
    as [_ H].
  destruct (H {| nc_title := Some "New"; nc_content := None |} noteD
              eq_refl eq_refl eq_refl eq_refl eq_refl) as (Hdb & _).
  split; [exact Hauth|]. rewrite Hdb. vm_compute. reflexivity.
Defined.

(** The REST path tells the caller when the store fails, and writes
    nothing.  For an authenticated request: if the lookup rejects, reading,
    editing (with a valid body) and deleting are answered 500 "Internal
    server error"; if the write rejects, so are the owner's edit, the
    owner's delete and a valid creation.  The store is as before in every
    case.  (The socket path of the same write sends the caller nothing.) *)
Theorem rest_reports_store_failures env flt authorization user noteId b db :
  requireAuth (errors env) (verify env) authorization = inr user →
  let failed :=
    ({| status := 500; body := ErrorBody "Internal server error" |}, db) in
  (lookup_rejects flt = true →
   notes_api env flt authorization (GetNote noteId) db = failed ∧
   notes_api env flt authorization (DeleteNote noteId) db = failed ∧
   (is_Some (updateNoteSchema b) →
    notes_api env flt authorization (UpdateNote noteId b) db = failed)) ∧
  (mutation_rejects flt = true →
   (∀ t c, createNoteSchema (zod env) b = inr (t, c) →
           notes_api env flt authorization (CreateNote b) db = failed) ∧
   (∀ existing,
      lookup_rejects flt = false →
      db !! noteId = Some existing → ownerId existing = jp_userId user →
      notes_api env flt authorization (DeleteNote noteId) db = failed ∧
      (is_Some (updateNoteSchema b) →
       notes_api env flt authorization (UpdateNote noteId b) db = failed))).
Proof.
  intros Hauth failed. subst failed. unfold notes_api. rewrite Hauth.
  unfold route, get_note, delete_note, put_note, post_note. split.
  - intros ->. split; [done|]. split; [done|]. by intros [changes ->].
  - intros Hm. split.
    + intros t c ->. by rewrite Hm.
    + intros existing Hl Hn Hown. split.
      * rewrite Hl, Hn, Hm.
        by rewrite decide_False by (intros H; by apply H).
      * intros [changes Hp]. rewrite Hp, Hl, Hn, Hm.
        by rewrite decide_False by (intros H; by apply H).
Qed.

Lemma rest_reports_store_failures_witness :
  notes_api env0 {| lookup_rejects := false; mutation_rejects := true |}
    (Some "Bearer tokA")
    (UpdateNote "d" (BodyObject FieldMissing (FieldString "X"))) db0 =
  ({| status := 500; body := ErrorBody "Internal server error" |}, db0).
Proof.
  assert (requireAuth (errors env0) (verify env0) (Some "Bearer tokA") =
          inr {| jp_userId := "uA"; jp_email := "alice@example.org" |})
    as Hauth by (vm_compute; reflexivity).
  destruct (rest_reports_store_failures env0
              {| lookup_rejects := false; mutation_rejects := true |}
              _ _ "d" (BodyObject FieldMissing (FieldString "X")) db0 Hauth)
    as [_ H].
  destruct (H eq_refl) as [_ H'].
  destruct (H' noteD eq_refl ltac:(vm_compute; reflexivity) eq_refl)
    as [_ Hput].
  apply Hput. vm_compute. eauto.
Defined.

(** The two ways to edit agree.  For a note, a user, a content and a
    non-empty title, with the store answering, [PUT /api/notes/:id] with
    that content and title and the socket event [note-update] with the same
    leave the same store: both write the row for the owner, both write
    nothing for anyone else or for a note that does not exist. *)
Theorem put_and_note_update_agree env authorization payload socket u noteId t c w :
  requireAuth (errors env) (verify env) authorization = inr payload →
  user socket = Some u →
  userId u = jp_userId payload →
  t ≠ "" →
  (notes_api env rest_ok authorization
     (UpdateNote noteId (BodyObject (FieldString t) (FieldString c)))
     (notes w)).2 =
  notes (step (Client no_faults socket
                 (NoteUpdate {| um_noteId := noteId; um_content := c;
                                um_title := Some t |})) w).1.
Proof.
  intros Hauth Hu Hid Ht. unfold notes_api. rewrite Hauth.
  unfold route, put_note, updateNoteSchema, parse_optional_string.
  rewrite bool_decide_eq_false_2 by done. cbn [andb rest_ok lookup_rejects
    mutation_rejects].
  set (data := {| um_noteId := noteId; um_content := c; um_title := Some t |}).
  unfold step, dispatch. cbn [fst].
  destruct (notes w !! noteId) as [n|] eqn:Hn.
  - destruct (decide (ownerId n = userId u)) as [Hown|Hown].
    + rewrite decide_False by (rewrite <- Hid; intros H; by apply H).
      rewrite (on_note_update_owner _ _ u data n) by done. done.
    + rewrite decide_True by (by rewrite <- Hid).
      by rewrite (on_note_update_not_owner _ _ u data n).
  - by rewrite (on_note_update_no_note _ _ u data).
Qed.

Lemma put_and_note_update_agree_witness :
  (notes_api env0 rest_ok (Some "Bearer tokA")
     (UpdateNote "d" (BodyObject (FieldString "T2") (FieldString "X")))
     (notes world_ab)).2 =
  notes (step (Client no_faults sA
                 (NoteUpdate {| um_noteId := "d"; um_content := "X";
                                um_title := Some "T2" |})) world_ab).1.
Proof.
  apply (put_and_note_update_agree env0 _
           {| jp_userId := "uA"; jp_email := "alice@example.org" |} sA alice).
  - vm_compute. reflexivity.
  - reflexivity.
  - reflexivity.
  - discriminate.
Defined.

(** [POST /api/notes] creates a note owned by the caller, with the title of
    the body and its content, or ["{}"] when the body has none, answers 201
    with it, and leaves every other note as it is; a body that has no
    non-empty string as title creates nothing and is answered with the
    bad-request error. *)
Theorem post_creates_the_callers_note env flt authorization user b db :
  requireAuth (errors env) (verify env) authorization = inr user →
  let res := notes_api env flt authorization (CreateNote b) db in
  (∀ t c, createNoteSchema (zod env) b = inr (t, c) →
          mutation_rejects flt = false → db !! nextId env = None →
          res.2 !! nextId env =
            Some {| ownerId := jp_userId user; title := t; content := c |} ∧
          status res.1 = 201 ∧
          t ≠ "" ∧
          (∀ noteId, noteId ≠ nextId env → res.2 !! noteId = db !! noteId) ∧
          (∀ c', b = BodyObject (FieldString t) (FieldString c') → c = c') ∧
          (b = BodyObject (FieldString t) FieldMissing → c = "{}")) ∧
  ((¬ ∃ t c, b = BodyObject (FieldString t) c ∧ t ≠ "") →
   res.2 = db ∧ status res.1 = BadRequestError (errors env)).
Proof.
  intros Hauth res. subst res. unfold notes_api. rewrite Hauth.
  unfold route, post_note. split.
  - intros t c Hp Hm Hfresh. rewrite Hp, Hm, Hfresh. simpl.
    rewrite lookup_insert_eq. split; [done|]. split; [done|].
    unfold createNoteSchema in Hp.
    destruct b as [|[|t0|] c0]; try done.
    destruct (bool_decide (t0 = "")) eqn:Ht; [done|].
    apply bool_decide_eq_false in Ht.
    destruct c0 as [|c0|]; simplify_eq; repeat split; try done.
    + intros noteId Hne. by rewrite lookup_insert_ne.
    + intros noteId Hne. by rewrite lookup_insert_ne.
    + by intros c' [= <-].
  - intros Hbad.
    assert (∃ m, createNoteSchema (zod env) b = inl m) as [m ->]; [|done].
    unfold createNoteSchema. destruct b as [|[|t0|] c0]; eauto.
    destruct (bool_decide (t0 = "")) eqn:Ht; eauto.
    apply bool_decide_eq_false in Ht. exfalso. apply Hbad. eauto.
Qed.

Lemma post_creates_the_callers_note_witness :
  (notes_api env0 rest_ok (Some "Bearer tokB")
     (CreateNote (BodyObject (FieldString "Mine") FieldMissing)) db0).2
    !! "n1" = Some {| ownerId := "uB"; title := "Mine"; content := "{}" |}.
Proof.
  assert (requireAuth (errors env0) (verify env0) (Some "Bearer tokB") =
          inr {| jp_userId := "uB"; jp_email := "bob@example.org" |})
    as Hauth by (vm_compute; reflexivity).
  destruct (post_creates_the_callers_note env0 rest_ok _ _
              (BodyObject (FieldString "Mine") FieldMissing) db0 Hauth)
    as [H _].
  destruct (H "Mine" "{}" ltac:(vm_compute; reflexivity)
              ltac:(vm_compute; reflexivity) ltac:(vm_compute; reflexivity))
    as (Hn & _).
  exact Hn.
Defined.

(** After the owner has deleted a note, it is gone for everybody: reading,
    editing or deleting it again is answered with the not-found error, for
    any authenticated caller, and the other notes are as they were. *)
Theorem deleted_notes_are_gone env flt authorization user noteId existing db :
  requireAuth (errors env) (verify env) authorization = inr user →
  lookup_rejects flt = false → mutation_rejects flt = false →
  db !! noteId = Some existing → ownerId existing = jp_userId user →
  let res := notes_api env flt authorization (DeleteNote noteId) db in
  res = ({| status := 200; body := MessageBody "Note deleted" |},
         delete noteId db) ∧
  (∀ other, other ≠ noteId → res.2 !! other = db !! other) ∧
  ∀ flt' authorization' user' req,
    requireAuth (errors env) (verify env) authorization' = inr user' →
    lookup_rejects flt' = false →
    req = GetNote noteId ∨ req = DeleteNote noteId ∨
    (∃ b, req = UpdateNote noteId b ∧ is_Some (updateNoteSchema b)) →
    notes_api env flt' authorization' req res.2 =
      ({| status := NotFoundError (errors env);
          body := ErrorBody "Note not found" |}, res.2).
Proof.
  intros Hauth Hl Hm Hn Hown res.
  assert (res = ({| status := 200; body := MessageBody "Note deleted" |},
                 delete noteId db)) as Hres.
  { unfold res, notes_api. rewrite Hauth. unfold route, delete_note.
    rewrite Hl, Hn, Hm. by rewrite decide_False by (intros H; by apply H). }
  rewrite Hres. cbn [snd]. split; [done|]. split.
  - intros other Hne. by rewrite lookup_delete_ne.
  - intros flt' authorization' user' req Hauth' Hl' Hreq.
    unfold notes_api. rewrite Hauth'.
    destruct Hreq as [->|[->|(b & -> & [changes Hp])]];
      unfold route, get_note, delete_note, put_note;
      rewrite ?Hp, Hl', lookup_delete_eq; done.
Qed.

Lemma deleted_notes_are_gone_witness :
  notes_api env0 rest_ok (Some "Bearer tokB") (GetNote "d")
    (notes_api env0 rest_ok (Some "Bearer tokA") (DeleteNote "d") db0).2 =
  ({| status := 404; body := ErrorBody "Note not found" |},
   (notes_api env0 rest_ok (Some "Bearer tokA") (DeleteNote "d") db0).2).
Proof.
  assert (requireAuth (errors env0) (verify env0) (Some "Bearer tokA") =
          inr {| jp_userId := "uA"; jp_email := "alice@example.org" |})
    as Hauth by (vm_compute; reflexivity).
  assert (requireAuth (errors env0) (verify env0) (Some "Bearer tokB") =
          inr {| jp_userId := "uB"; jp_email := "bob@example.org" |})
    as Hauth' by (vm_compute; reflexivity).
  destruct (deleted_notes_are_gone env0 rest_ok _ _ "d" noteD db0 Hauth
              eq_refl eq_refl ltac:(vm_compute; reflexivity) eq_refl)
    as (_ & _ & H).
  exact (H rest_ok _ _ (GetNote "d") Hauth' eq_refl (or_introl eq_refl)).
Defined.

(** A created note can be read back by any authenticated user: the answer
    carries the title and content that were stored, the creator as owner,
    and [isOwner] true for the creator and false for everybody else. *)
Theorem created_notes_can_be_read env flt authorization user b t c db :
  requireAuth (errors env) (verify env) authorization = inr user →
  createNoteSchema (zod env) b = inr (t, c) →
  mutation_rejects flt = false → db !! nextId env = None →
  let db' := (notes_api env flt authorization (CreateNote b) db).2 in
  ∀ flt' authorization' user',
    requireAuth (errors env) (verify env) authorization' = inr user' →
    lookup_rejects flt' = false →
    notes_api env flt' authorization' (GetNote (nextId env)) db' =
      ({| status := 200;
          body := NoteViewBody (nextId env)
                    {| ownerId := jp_userId user; title := t; content := c |}
                    ((λ row, (jp_userId user, row)) <$>
                       userTable env !! jp_userId user)
                    (bool_decide (jp_userId user = jp_userId user')) |},
       db').
Proof.
  intros Hauth Hp Hm Hfresh db' flt' authorization' user' Hauth' Hl'.
  assert (db' = <[nextId env := {| ownerId := jp_userId user; title := t;
                                   content := c |}]> db) as ->.
  { unfold db', notes_api. rewrite Hauth. unfold route, post_note.
    by rewrite Hp, Hm, Hfresh. }
  unfold notes_api. rewrite Hauth'. unfold route, get_note.
  by rewrite Hl', lookup_insert_eq.
Qed.

Lemma created_notes_can_be_read_witness :
  body (notes_api env0 rest_ok (Some "Bearer tokA") (GetNote "n1")
          (notes_api env0 rest_ok (Some "Bearer tokB")
             (CreateNote (BodyObject (FieldString "Mine") FieldMissing))
             db0).2).1 =
  NoteViewBody "n1" {| ownerId := "uB"; title := "Mine"; content := "{}" |}
    (Some ("uB", {| ur_name := "Bob"; ur_email := "bob@example.org" |}))
    false.
Proof.
  assert (requireAuth (errors env0) (verify env0) (Some "Bearer tokB") =
          inr {| jp_userId := "uB"; jp_email := "bob@example.org" |})
    as Hauth by (vm_compute; reflexivity).
  assert (requireAuth (errors env0) (verify env0) (Some "Bearer tokA") =
          inr {| jp_userId := "uA"; jp_email := "alice@example.org" |})
    as Hauth' by (vm_compute; reflexivity).
  pose proof (created_notes_can_be_read env0 rest_ok _ _
                (BodyObject (FieldString "Mine") FieldMissing) "Mine" "{}" db0
                Hauth ltac:(vm_compute; reflexivity) eq_refl
                ltac:(vm_compute; reflexivity) rest_ok _ _ Hauth' eq_refl)
    as H.
  apply (f_equal (λ r, body r.1)) in H. exact H.
Defined.
